(** * The flatness metric of disent ([disent/metrics/_flatness.py])

    A shallow embedding of the flatness metric and the proofs of its
    specified properties.

    Numbers.  Tensor entries produced by the representation function are
    exact rationals ([Q]): rounding is not modelled.  The scalars that the
    metric itself produces are [tfloat]: a rational or one of the IEEE
    special values, because [torch.mean] divides by the number of elements
    and that number can be zero.  Signed zeros are not modelled.

    Effects.  Python exceptions are values of [exn]; code that can raise
    returns a [result].  The representation function is a pure, total
    function of its batch.  The random source of the dataset is an explicit
    state threaded through the sampling calls ([M]).  In-place tensor
    updates are modelled over a store of tensors in [Module Aliasing]. *)

From Stdlib Require Import ZArith QArith Qabs Lia Lqa Bool.
From Stdlib Require Import Permutation Sorting.Sorted.
From stdpp Require Import base list strings pretty.

Local Open Scope Z_scope.

(** ** Exceptions *)

Inductive exn : Type :=
| AssertionError
| IndexError
| ValueError (msg : string)
| RuntimeError (msg : string)
| KeyError.

Inductive result (A : Type) : Type :=
| Ok (a : A)
| Raise (e : exn).
Arguments Ok {A} a.
Arguments Raise {A} e.

#[global] Instance result_ret : MRet result := fun A a => Ok a.
#[global] Instance result_bind : MBind result := fun A B f m =>
  match m with
  | Ok a => f a
  | Raise e => Raise e
  end.

Definition assert (b : bool) : result unit :=
  if b then Ok tt else Raise AssertionError.

(** [[f x for x in l]] where [f] can raise: the first exception wins. *)
Fixpoint for_each {A B} (f : A → result B) (l : list A) : result (list B) :=
  match l with
  | [] => Ok []
  | x :: l' => y ← f x; ys ← for_each f l'; Ok (y :: ys)
  end.

(** ** Scalars *)

Inductive tfloat : Type :=
| Fin (q : Q)
| PInf
| NInf
| NaN.

Definition Qlt_bool (a b : Q) : bool := negb (Qle_bool b a).

Definition tf_add (x y : tfloat) : tfloat :=
  match x, y with
  | NaN, _ | _, NaN => NaN
  | Fin a, Fin b => Fin (a + b)
  | PInf, NInf | NInf, PInf => NaN
  | PInf, _ | _, PInf => PInf
  | NInf, _ | _, NInf => NInf
  end.

Definition tf_inf (positive : bool) : tfloat := if positive then PInf else NInf.

Definition tf_mul (x y : tfloat) : tfloat :=
  match x, y with
  | NaN, _ | _, NaN => NaN
  | Fin a, Fin b => Fin (a * b)
  | Fin a, PInf | PInf, Fin a =>
      if Qeq_bool a 0 then NaN else tf_inf (Qlt_bool 0 a)
  | Fin a, NInf | NInf, Fin a =>
      if Qeq_bool a 0 then NaN else tf_inf (Qlt_bool a 0)
  | PInf, PInf | NInf, NInf => PInf
  | PInf, NInf | NInf, PInf => NInf
  end.

Definition tf_div (x y : tfloat) : tfloat :=
  match x, y with
  | NaN, _ | _, NaN => NaN
  | Fin a, Fin b =>
      if Qeq_bool b 0
      then (if Qeq_bool a 0 then NaN else tf_inf (Qlt_bool 0 a))
      else Fin (a / b)
  | Fin _, _ => Fin 0
  | PInf, Fin b => tf_inf (Qle_bool 0 b)
  | NInf, Fin b => tf_inf (Qlt_bool b 0)
  | _, _ => NaN
  end.

(** [x >= 0] and [x == 0]: every comparison with [nan] is false. *)
Definition tf_ge0 (x : tfloat) : bool :=
  match x with
  | Fin q => Qle_bool 0 q
  | PInf => true
  | _ => false
  end.

Definition tf_eq0 (x : tfloat) : bool :=
  match x with
  | Fin q => Qeq_bool q 0
  | _ => false
  end.

Definition is_finite (x : tfloat) : bool :=
  match x with
  | Fin _ => true
  | _ => false
  end.

(** ** One-dimensional tensors *)

Definition torch_sum (t : list tfloat) : tfloat := foldr tf_add (Fin 0) t.

(** [torch.mean]: the sum over the number of elements; [nan] when empty. *)
Definition torch_mean (t : list tfloat) : tfloat :=
  tf_div (torch_sum t) (Fin (inject_Z (Z.of_nat (length t)))).

(** Element-wise binary operation with the broadcasting of a one-element
    operand; any other mismatch of sizes raises. *)
Definition tensor_binop {A B C} (f : A → B → C) (a : list A) (b : list B)
  : result (list C) :=
  if (length a =? length b)%nat then Ok (zip_with f a b)
  else match a, b with
       | [x], _ => Ok (map (f x) b)
       | _, [y] => Ok (map (fun x => f x y) a)
       | _, _ => Raise (RuntimeError "The size of tensor a must match the size of tensor b")
       end.

(** [t[mask] = v]: the mask must have the shape of [t]. *)
Definition masked_fill {A} (t : list A) (mask : list bool) (v : A)
  : result (list A) :=
  if (length t =? length mask)%nat
  then Ok (zip_with (fun x (m : bool) => if m then v else x) t mask)
  else Raise IndexError.

(** [torch.nonzero(t, as_tuple=True)]: the positions of the nonzero entries. *)
Fixpoint nonzero_from (i : nat) (t : list Z) : list nat :=
  match t with
  | [] => []
  | z :: t' => if z =? 0 then nonzero_from (S i) t' else i :: nonzero_from (S i) t'
  end.
Definition nonzero (t : list Z) : list nat := nonzero_from 0 t.

(** [tensor[idx]] with an index tensor: a new tensor, one entry per index. *)
Definition index_select {A} (t : list A) (idx : list nat) : result (list A) :=
  for_each (fun i => match t !! i with
                     | Some x => Ok x
                     | None => Raise IndexError
                     end) idx.

(** Python's [l[i]] on a sequence: a negative index counts from the end. *)
Definition py_index {A} (l : list A) (i : Z) : result A :=
  let n := Z.of_nat (length l) in
  let j := if i <? 0 then i + n else i in
  if (0 <=? j) && (j <? n)
  then match l !! Z.to_nat j with
       | Some x => Ok x
       | None => Raise IndexError
       end
  else Raise IndexError.

(** Python's [l[i] = v]. *)
Definition py_set {A} (l : list A) (i : Z) (v : A) : result (list A) :=
  let n := Z.of_nat (length l) in
  let j := if i <? 0 then i + n else i in
  if (0 <=? j) && (j <? n) then Ok (<[Z.to_nat j := v]> l) else Raise IndexError.

(** A [dict] in insertion order; [d[k]] raises when the key is missing.  A
    key is read at its first entry: a repeated key leaves entries behind
    that are never read. *)
Abbreviation dict K V := (list (K * V)).

Fixpoint dict_get {K V} `{EqDecision K} (d : dict K V) (k : K) : result V :=
  match d with
  | [] => Raise KeyError
  | (k', v) :: d' => if decide (k = k') then Ok v else dict_get d' k
  end.

Definition dict_keys {K V} (d : dict K V) : list K := map fst d.

(** [default_collate] of a list of dicts: one dict with the keys of the
    first element, each value being the list of the values under that key.
    An empty list has no first element. *)
Definition default_collate {K V} `{EqDecision K} (batch : list (dict K V))
  : result (dict K (list V)) :=
  match batch with
  | [] => Raise IndexError
  | elem :: _ =>
      for_each (fun k => vs ← for_each (fun d => dict_get d k) batch; Ok (k, vs))
               (dict_keys elem)
  end.

(** ** Distances *)

(** The norms the metric asks for: [p=1] and [p=2]. *)
Inductive pnorm : Type := L1 | L2.

#[global] Instance pnorm_eq_dec : EqDecision pnorm.
Proof. solve_decision. Defined.

Definition vsub (a b : list Q) : list Q := zip_with Qminus a b.

Definition norm_l1 (v : list Q) : Q := foldr (fun x acc => Qabs x + acc)%Q 0%Q v.

Fixpoint insert_by (leb : Q → Q → bool) (x : Q) (l : list Q) : list Q :=
  match l with
  | [] => [x]
  | y :: l' => if leb x y then x :: l else y :: insert_by leb x l'
  end.

Definition sort_by (leb : Q → Q → bool) (l : list Q) : list Q :=
  foldr (insert_by leb) [] l.

Definition Qge_bool (a b : Q) : bool := Qle_bool b a.

(** [torch.topk(t, k, largest).values] of a vector.  With [sorted=False] the
    order of the values is not specified by torch; the model returns them
    in the order of the sort. *)
Definition topk (t : list Q) (k : Z) (largest : bool) : result (list Q) :=
  if (0 <=? k) && (k <=? Z.of_nat (length t))
  then Ok (take (Z.to_nat k) (sort_by (if largest then Qge_bool else Qle_bool) t))
  else Raise (RuntimeError "selected index k out of range").

Definition Qmax_of (a b : Q) : Q := if Qle_bool a b then b else a.

(** [t.max()] over all the entries; an empty tensor has no maximum. *)
Definition tensor_max (t : list Q) : result Q :=
  match t with
  | [] => Raise (RuntimeError "max(): Expected reduction dim to be specified for input.numel() == 0")
  | x :: t' => Ok (foldl Qmax_of x t')
  end.

(** [torch.roll(t, -1, dims=0)]: row [i] of the result is row [i+1] of [t],
    the last one is row [0]. *)
Definition roll_m1 {A} (t : list A) : list A :=
  match t with
  | [] => []
  | x :: t' => t' ++ [x]
  end.

(** Every row of [x] is as wide as every row of [y]. *)
Definition same_row_shape (x y : list (list Q)) : bool :=
  forallb (fun r => forallb (fun s => (length r =? length s)%nat) y) x.

Section Distances.

(** The Euclidean norm has no rational value in general: it is a
    parameter, constrained where a proof needs its properties. *)
Variable norm_l2 : list Q → Q.

(** [torch.norm(v, dim=-1, p=p)] of one row. *)
Definition torch_norm (p : pnorm) (v : list Q) : Q :=
  match p with
  | L1 => norm_l1 v
  | L2 => norm_l2 v
  end.

Definition dist (p : pnorm) (a b : list Q) : Q := torch_norm p (vsub a b).

(** [knn(x, y, k, largest, p).values]; [x] and [y] are matrices by their
    type, which is the assertion on [ndim]. *)
Definition knn (x y : list (list Q)) (k : Z) (largest : bool) (p : pnorm)
  : result (list (list Q)) :=
  _ ← assert ((0 <? k) && (k <=? Z.of_nat (length y)));
  _ ← assert (same_row_shape x y);
  let dist_mat := map (fun xi => map (fun yj => dist p xi yj) y) x in
  for_each (fun row => topk row k largest) dist_mat.

(** The two statistics of one traversal under one norm (the body of the
    loop [for p in ps]). *)
Definition traversal_width (zs : list (list Q)) (p : pnorm) : result Q :=
  v ← knn zs zs 1 true p;
  tensor_max (concat v).

Definition raw_deltas (zs : list (list Q)) (p : pnorm) : list Q :=
  zip_with (dist p) zs (roll_m1 zs).

Definition traversal_deltas (zs : list (list Q)) (f_size : Z) (p : pnorm)
  : result (list Q) :=
  topk (raw_deltas zs p) (f_size - 1) false.

End Distances.

(** ** Chunked encoding *)

(** Modelled from the spec: [chunked] (of [disent.util], not among the
    sources).  It partitions the rows, in order, into chunks of at most
    [chunk_size] rows, and a [chunk_size] that is not positive is an
    argument error. *)
Fixpoint chunks_of {A} (fuel n : nat) (l : list A) : list (list A) :=
  match fuel, l with
  | O, _ | _, [] => []
  | S fuel', _ => take n l :: chunks_of fuel' n (drop n l)
  end.

Definition chunked {A} (arr : list A) (chunk_size : Z) : result (list (list A)) :=
  if chunk_size <=? 0
  then Raise (ValueError "chunk_size must be positive")
  else Ok (chunks_of (length arr) (Z.to_nat chunk_size) arr).

(** [torch.cat(ts, dim=0)]: at least one tensor is needed. *)
Definition torch_cat {A} (ts : list (list A)) : result (list A) :=
  match ts with
  | [] => Raise (RuntimeError "torch.cat(): expected a non-empty list of Tensors")
  | _ => Ok (concat ts)
  end.

(** [a.repeat(num, axis=0)]: every row [num] times. *)
Definition np_repeat {A} (a : list A) (num : Z) : result (list A) :=
  if num <? 0
  then Raise (ValueError "repeats may not contain negative values.")
  else Ok (flat_map (replicate (Z.to_nat num)) a).

Definition arange (num : Z) : list Z := map Z.of_nat (seq 0 (Z.to_nat num)).

(** [a[:, idx] = vals]: [vals] has one value per row, or a single value. *)
Definition set_column (a : list (list Z)) (idx : Z) (vals : list Z)
  : result (list (list Z)) :=
  if (length a =? length vals)%nat
  then for_each (fun '(row, v) => py_set row idx v) (zip a vals)
  else match vals with
       | [v] => for_each (fun row => py_set row idx v) a
       | _ => Raise (ValueError "could not broadcast input array")
       end.

(** ** The metric *)

(** The per-factor output of the aggregator, for one norm. *)
Record measure : Type := { ave_width : tfloat; ave_delta : tfloat }.

(** The per-norm vectors over the factors. *)
Record fs_measure : Type :=
  { fs_ave_widths : list tfloat; fs_ave_lengths : list tfloat }.

(** ** The cross-factor stage *)

Definition filter_inactive_factors {A} (tensor : list A) (factor_sizes : list Z)
  : result (list A) :=
  _ ← assert (forallb (fun s => 1 <=? s) factor_sizes);
  let active_factors := nonzero (map (fun s => s - 1) factor_sizes) in
  index_select tensor active_factors.

Definition compute_flatness (widths lengths : list tfloat) (factor_sizes : list Z)
  : result tfloat :=
  widths ← filter_inactive_factors widths factor_sizes;
  lengths ← filter_inactive_factors lengths factor_sizes;
  _ ← assert (forallb tf_ge0 widths);
  _ ← assert (forallb tf_ge0 lengths);
  same ← tensor_binop Bool.eqb (map tf_eq0 widths) (map tf_eq0 lengths);
  _ ← assert (forallb id same);
  widths ← masked_fill widths (map tf_eq0 lengths) (Fin 0);
  lengths ← masked_fill lengths (map tf_eq0 lengths) (Fin 1);
  ratios ← tensor_binop tf_div widths lengths;
  Ok (torch_mean ratios).

Definition mean_of_active (tensor : list tfloat) (factor_sizes : list Z)
  : result tfloat :=
  t ← filter_inactive_factors tensor factor_sizes;
  Ok (torch_mean t).

(** The [results] dict of [metric_flatness], built entry by entry from the
    per-norm measures; [float(v)] leaves a scalar as it is. *)
Definition metric_flatness_results (p_fs_measures : dict pnorm fs_measure)
    (factor_sizes : list Z) : result (dict string tfloat) :=
  ave_flatness ← (m2 ← dict_get p_fs_measures L2; m1 ← dict_get p_fs_measures L1;
                  compute_flatness (fs_ave_widths m2) (fs_ave_lengths m1) factor_sizes);
  ave_flatness_l1 ← (w ← dict_get p_fs_measures L1; l ← dict_get p_fs_measures L1;
                     compute_flatness (fs_ave_widths w) (fs_ave_lengths l) factor_sizes);
  ave_flatness_l2 ← (w ← dict_get p_fs_measures L2; l ← dict_get p_fs_measures L2;
                     compute_flatness (fs_ave_widths w) (fs_ave_lengths l) factor_sizes);
  ave_width_l1 ← (m ← dict_get p_fs_measures L1;
                  mean_of_active (fs_ave_widths m) factor_sizes);
  ave_width_l2 ← (m ← dict_get p_fs_measures L2;
                  mean_of_active (fs_ave_widths m) factor_sizes);
  ave_length_l1 ← (m ← dict_get p_fs_measures L1;
                   mean_of_active (fs_ave_lengths m) factor_sizes);
  ave_length_l2 ← (m ← dict_get p_fs_measures L2;
                   mean_of_active (fs_ave_lengths m) factor_sizes);
  Ok [ ("flatness.ave_flatness", ave_flatness);
       ("flatness.ave_flatness_l1", ave_flatness_l1);
       ("flatness.ave_flatness_l2", ave_flatness_l2);
       ("flatness.ave_width_l1", ave_width_l1);
       ("flatness.ave_width_l2", ave_width_l2);
       ("flatness.ave_length_l1", ave_length_l1);
       ("flatness.ave_length_l2", ave_length_l2) ].

Section Metric.

(** [G]: the state of the random source; [X]: one model input. *)
Context {G X : Type}.
Variable norm_l2 : list Q → Q.

(** Code that samples and can raise. *)
Definition M (A : Type) : Type := G → result (A * G).

Definition ret {A} (a : A) : M A := fun g => Ok (a, g).
Definition bind {A B} (m : M A) (f : A → M B) : M B :=
  fun g => match m g with
           | Ok (a, g') => f a g'
           | Raise e => Raise e
           end.
Definition lift {A} (r : result A) : M A :=
  fun g => match r with
           | Ok a => Ok (a, g)
           | Raise e => Raise e
           end.
Definition sample {A} (f : G → A * G) : M A := fun g => Ok (f g).

Notation "x ⇐ m ;; k" := (bind m (fun x => k))
  (at level 100, m at next level, right associativity).

Fixpoint for_each_M {A B} (f : A → M B) (l : list A) : M (list B) :=
  match l with
  | [] => ret []
  | x :: l' => y ⇐ f x;; ys ⇐ for_each_M f l';; ret (y :: ys)
  end.

Record GroundTruthDataset : Type := {
  num_factors : nat;
  factor_sizes : list Z;
  sample_factors : nat → G → list (list Z) * G;
  dataset_batch_from_factors : list (list Z) → list X;
  dataset_sample_batch : nat → G → list X * G;
}.

Variable ground_truth_dataset : GroundTruthDataset.
Variable representation_function : list X → list (list Q).

Definition range_along_repeated_factors (idx num : Z) : M (list (list Z)) :=
  factors ⇐ sample (sample_factors ground_truth_dataset 1);;
  factors ⇐ lift (np_repeat factors num);;
  lift (set_column factors idx (arange num)).

Definition encode_all_factors (factors : list (list Z)) (batch_size : Z)
  : result (list (list Q)) :=
  chunks ← chunked factors batch_size;
  torch_cat (map (fun batch_factors =>
                    representation_function
                      (dataset_batch_from_factors ground_truth_dataset batch_factors))
                 chunks).

Definition encode_all_along_factor (f_idx batch_size : Z) : M (list (list Q)) :=
  f_size ⇐ lift (py_index (factor_sizes ground_truth_dataset) f_idx);;
  factors ⇐ range_along_repeated_factors f_idx f_size;;
  lift (encode_all_factors factors batch_size).

(** Only the effect of [get_device] is kept: one batch is sampled and
    encoded; the device itself plays no role in the values. *)
Definition get_device : M unit :=
  batch ⇐ sample (dataset_sample_batch ground_truth_dataset 1);;
  let _ := representation_function batch in ret tt.

Definition cycle_fail_message (f_size : Z) : string :=
  "dataset factor size is too small for flatness metric with cycle_normalize enabled! size="
    +:+ pretty f_size +:+ " < 2".

(** The body of one repeat: a traversal and, per norm, its width and its
    retained deltas. *)
Definition measure_repeat (f_idx f_size batch_size : Z) (ps : list pnorm)
  : M (dict pnorm (Q * list Q)) :=
  zs_traversal ⇐ encode_all_along_factor f_idx batch_size;;
  lift (for_each (fun p =>
                    width ← traversal_width norm_l2 zs_traversal p;
                    deltas ← traversal_deltas norm_l2 zs_traversal f_size p;
                    Ok (p, (width, deltas))) ps).

Definition aggregate_measure_distances_along_factor
    (f_idx repeats batch_size : Z) (ps : list pnorm) (cycle_fail : bool)
  : M (dict pnorm measure) :=
  f_size ⇐ lift (py_index (factor_sizes ground_truth_dataset) f_idx);;
  if f_size =? 1 then
    if cycle_fail then lift (Raise (ValueError (cycle_fail_message f_size)))
    else
      _ ⇐ get_device;;
      ret (map (fun p => (p, {| ave_width := Fin 0; ave_delta := Fin 0 |})) ps)
  else
    p_measures ⇐ for_each_M (fun _ => measure_repeat f_idx f_size batch_size ps)
                            (seq 0 (Z.to_nat repeats));;
    measures ⇐ lift (default_collate p_measures);;
    ret (map (fun '(p, ms) =>
                (p, {| ave_width := torch_mean (map (fun m => Fin (fst m)) ms);
                       ave_delta := torch_mean (map Fin (concat (map snd ms))) |}))
             measures).

Definition aggregate_measure_distances_along_all_factors
    (repeats batch_size : Z) (ps : list pnorm) : M (dict pnorm fs_measure) :=
  fs_p_measures ⇐ for_each_M
      (fun f_idx => aggregate_measure_distances_along_factor
                      (Z.of_nat f_idx) repeats batch_size ps false)
      (seq 0 (num_factors ground_truth_dataset));;
  collated ⇐ lift (default_collate fs_p_measures);;
  lift (for_each (fun '(p, fs_measures) =>
          let widths := map ave_width fs_measures in
          let fs_num_deltas := map (fun s => s - 1) (factor_sizes ground_truth_dataset) in
          let fs_ave_deltas := map ave_delta fs_measures in
          lengths ← tensor_binop (fun n d => tf_mul (Fin (inject_Z n)) d)
                                 fs_num_deltas fs_ave_deltas;
          Ok (p, {| fs_ave_widths := widths; fs_ave_lengths := lengths |}))
        collated).

Definition metric_flatness (factor_repeats batch_size : Z)
  : M (dict string tfloat) :=
  p_fs_measures ⇐ aggregate_measure_distances_along_all_factors
                    factor_repeats batch_size [L1; L2];;
  lift (metric_flatness_results p_fs_measures (factor_sizes ground_truth_dataset)).

End Metric.

(** ** The cross-factor stage over a store of tensors

    [compute_flatness] assigns in place to the tensors it holds.  Here a
    tensor is an address into a store, an indexing with an index tensor
    allocates its result, and a masked assignment writes to the store, so
    that what the caller's tensors hold afterwards can be stated.  Only the
    tensors of scores live in the store; masks and sizes are temporaries. *)

Module Aliasing.

(** A tensor is an address; the store holds the tensors by address. *)
Abbreviation loc := nat.
Abbreviation store := (list (list tfloat)).

(** A computation returns its outcome together with the store it leaves,
    also when it raises. *)
Definition ST (A : Type) : Type := store → result A * store.

Definition ret {A} (a : A) : ST A := fun h => (Ok a, h).
Definition bind {A B} (m : ST A) (f : A → ST B) : ST B :=
  fun h => match m h with
           | (Ok a, h') => f a h'
           | (Raise e, h') => (Raise e, h')
           end.
Definition lift {A} (r : result A) : ST A := fun h => (r, h).

Notation "x ⇐ m ;; k" := (bind m (fun x => k))
  (at level 100, m at next level, right associativity).

Definition alloc (t : list tfloat) : ST loc := fun h => (Ok (length h), h ++ [t]).

Definition read (l : loc) : ST (list tfloat) :=
  fun h => match h !! l with
           | Some t => (Ok t, h)
           | None => (Raise (RuntimeError "dangling tensor"), h)
           end.

Definition write (l : loc) (t : list tfloat) : ST unit :=
  fun h => (Ok tt, <[l := t]> h).

(** [tensor[active_factors]]: indexing with an index tensor copies. *)
Definition filter_inactive_factors (tensor : loc) (factor_sizes : list Z) : ST loc :=
  _ ⇐ lift (assert (forallb (fun s => 1 <=? s) factor_sizes));;
  let active_factors := nonzero (map (fun s => s - 1) factor_sizes) in
  t ⇐ read tensor;;
  selected ⇐ lift (index_select t active_factors);;
  alloc selected.

Definition compute_flatness (widths lengths : loc) (factor_sizes : list Z)
  : ST tfloat :=
  widths ⇐ filter_inactive_factors widths factor_sizes;;
  lengths ⇐ filter_inactive_factors lengths factor_sizes;;
  w ⇐ read widths;;
  _ ⇐ lift (assert (forallb tf_ge0 w));;
  l ⇐ read lengths;;
  _ ⇐ lift (assert (forallb tf_ge0 l));;
  same ⇐ lift (tensor_binop Bool.eqb (map tf_eq0 w) (map tf_eq0 l));;
  _ ⇐ lift (assert (forallb id same));;
  (* widths[lengths == 0] = 0 *)
  l ⇐ read lengths;;
  w ⇐ read widths;;
  w' ⇐ lift (masked_fill w (map tf_eq0 l) (Fin 0));;
  _ ⇐ write widths w';;
  (* lengths[lengths == 0] = 1 *)
  l ⇐ read lengths;;
  l' ⇐ lift (masked_fill l (map tf_eq0 l) (Fin 1));;
  _ ⇐ write lengths l';;
  (* (widths / lengths).mean() *)
  w ⇐ read widths;;
  l ⇐ read lengths;;
  ratios ⇐ lift (tensor_binop tf_div w l);;
  ratios ⇐ alloc ratios;;
  r ⇐ read ratios;;
  ret (torch_mean r).

Definition mean_of_active (tensor : loc) (factor_sizes : list Z) : ST tfloat :=
  t ⇐ filter_inactive_factors tensor factor_sizes;;
  t ⇐ read t;;
  ret (torch_mean t).

(** The per-norm measures as the caller holds them: two addresses. *)
Record fs_measure_ref : Type :=
  { fs_ave_widths_ref : loc; fs_ave_lengths_ref : loc }.

Definition metric_flatness_results (p_fs_measures : dict pnorm fs_measure_ref)
    (factor_sizes : list Z) : ST (dict string tfloat) :=
  ave_flatness ⇐ (m2 ⇐ lift (dict_get p_fs_measures L2);;
                  m1 ⇐ lift (dict_get p_fs_measures L1);;
                  compute_flatness (fs_ave_widths_ref m2) (fs_ave_lengths_ref m1) factor_sizes);;
  ave_flatness_l1 ⇐ (w ⇐ lift (dict_get p_fs_measures L1);;
                     l ⇐ lift (dict_get p_fs_measures L1);;
                     compute_flatness (fs_ave_widths_ref w) (fs_ave_lengths_ref l) factor_sizes);;
  ave_flatness_l2 ⇐ (w ⇐ lift (dict_get p_fs_measures L2);;
                     l ⇐ lift (dict_get p_fs_measures L2);;
                     compute_flatness (fs_ave_widths_ref w) (fs_ave_lengths_ref l) factor_sizes);;
  ave_width_l1 ⇐ (m ⇐ lift (dict_get p_fs_measures L1);;
                  mean_of_active (fs_ave_widths_ref m) factor_sizes);;
  ave_width_l2 ⇐ (m ⇐ lift (dict_get p_fs_measures L2);;
                  mean_of_active (fs_ave_widths_ref m) factor_sizes);;
  ave_length_l1 ⇐ (m ⇐ lift (dict_get p_fs_measures L1);;
                   mean_of_active (fs_ave_lengths_ref m) factor_sizes);;
  ave_length_l2 ⇐ (m ⇐ lift (dict_get p_fs_measures L2);;
                   mean_of_active (fs_ave_lengths_ref m) factor_sizes);;
  ret [ ("flatness.ave_flatness", ave_flatness);
        ("flatness.ave_flatness_l1", ave_flatness_l1);
        ("flatness.ave_flatness_l2", ave_flatness_l2);
        ("flatness.ave_width_l1", ave_width_l1);
        ("flatness.ave_width_l2", ave_width_l2);
        ("flatness.ave_length_l1", ave_length_l1);
        ("flatness.ave_length_l2", ave_length_l2) ].

(** What the measures hold in a store: the values behind the addresses. *)
Definition deref (h : store) (m : fs_measure_ref) : option fs_measure :=
  w ← h !! fs_ave_widths_ref m;
  l ← h !! fs_ave_lengths_ref m;
  Some {| fs_ave_widths := w; fs_ave_lengths := l |}.

Fixpoint deref_dict (h : store) (d : dict pnorm fs_measure_ref)
  : option (dict pnorm fs_measure) :=
  match d with
  | [] => Some []
  | (p, m) :: d' =>
      v ← deref h m; vs ← deref_dict h d'; Some ((p, v) :: vs)
  end.

End Aliasing.

(** ** The specified scores

    The cross-factor stage as the specification words it, to be compared
    with [compute_flatness] and [metric_flatness_results]. *)

(** The entries of a per-factor vector that belong to active factors: a
    factor of size 1 is excluded. *)
Fixpoint active_entries {A} (t : list A) (factor_sizes : list Z) : list A :=
  match t, factor_sizes with
  | x :: t', s :: sizes' =>
      if s =? 1 then active_entries t' sizes' else x :: active_entries t' sizes'
  | _, _ => []
  end.

Definition tf_gt0 (x : tfloat) : bool :=
  match x with
  | Fin q => Qlt_bool 0 q
  | PInf => true
  | _ => false
  end.

(** Flatness per factor: [width / length] if [length > 0], else [0]. *)
Definition factor_flatness (width length : tfloat) : tfloat :=
  if tf_gt0 length then tf_div width length else Fin 0.

(** Final flatness score: the mean of the per-factor ratios over the
    active factors. *)
Definition mean_factor_flatness (widths lengths : list tfloat) (factor_sizes : list Z)
  : tfloat :=
  torch_mean (zip_with factor_flatness (active_entries widths factor_sizes)
                                       (active_entries lengths factor_sizes)).

(** A list with one more entry at position [k]. *)
Definition insert_at {A} (k : nat) (x : A) (l : list A) : list A :=
  take k l ++ x :: drop k l.

(** The per-norm measures of a dataset extended by one factor at position
    [k], whose width is [wv p] and whose length is [lv p] under norm [p]. *)
Definition with_extra_factor (k : nat) (wv lv : pnorm → tfloat)
    (p_fs_measures : dict pnorm fs_measure) : dict pnorm fs_measure :=
  map (fun '(p, m) =>
         (p, {| fs_ave_widths := insert_at k (wv p) (fs_ave_widths m);
                fs_ave_lengths := insert_at k (lv p) (fs_ave_lengths m) |}))
      p_fs_measures.


(** The measures of the two norms, as [metric_flatness] receives them. *)
Record measures_ok (sizes : list Z) (m : fs_measure) : Prop := {
  widths_per_factor : length (fs_ave_widths m) = length sizes;
  lengths_per_factor : length (fs_ave_lengths m) = length sizes;
  widths_nonneg : Forall (fun x => tf_ge0 x = true) (fs_ave_widths m);
  lengths_nonneg : Forall (fun y => tf_ge0 y = true) (fs_ave_lengths m);
}.

(** Width is zero exactly when length is zero, factor by factor. *)
Definition zero_pattern (widths lengths : list tfloat) : Prop :=
  Forall2 (fun x y => tf_eq0 x = tf_eq0 y) widths lengths.

(** A computation over the store simulates a pure one from [h0] on: started
    in any extension of [h0] it returns the pure value and extends the
    store further. *)
Definition simulates {A} (h0 : list (list tfloat)) (m : Aliasing.ST A) (r : result A)
  : Prop :=
  ∀ ext, ∃ ext', m (h0 ++ ext) = (r, (h0 ++ ext) ++ ext').

(** ** Notions used in the proofs *)

Definition value_or {A} (d : A) (r : result A) : A :=
  match r with
  | Ok a => a
  | Raise _ => d
  end.

Definition Qsum (l : list Q) : Q := foldr Qplus 0%Q l.

(** All the points of a traversal coincide. *)
Definition flat (zs : list (list Q)) : Prop :=
  ∀ a b, a ∈ zs → b ∈ zs → Forall2 Qeq a b.

(** A traversal of a factor of size [s >= 2]: [s] points of [z] coordinates. *)
Definition wellshaped (s : Z) (z : nat) (zs : list (list Q)) : Prop :=
  Z.of_nat (length zs) = s ∧ 2 ≤ s ∧ Forall (fun r => length r = z) zs.

(** The width and the retained deltas of a traversal, as values. *)
Definition width_value (norm_l2 : list Q → Q) (zs : list (list Q)) (p : pnorm) : Q :=
  value_or 0%Q (traversal_width norm_l2 zs p).

Definition deltas_value (norm_l2 : list Q → Q) (zs : list (list Q)) (p : pnorm)
  : list Q :=
  value_or [] (traversal_deltas norm_l2 zs (Z.of_nat (length zs)) p).

(** The measure of a factor from the traversals of its repeats. *)
Definition factor_measure (norm_l2 : list Q → Q) (zss : list (list (list Q)))
    (p : pnorm) : measure :=
  {| ave_width := torch_mean (map (fun zs => Fin (width_value norm_l2 zs p)) zss);
     ave_delta := torch_mean
                    (map Fin (concat (map (fun zs => deltas_value norm_l2 zs p) zss))) |}.

Definition zero_measure (p : pnorm) : measure :=
  {| ave_width := Fin 0; ave_delta := Fin 0 |}.

(** The per-norm measures over the factors, from the measures of each
    factor. *)
Definition collect_measures (sizes : list Z) (ms : list (pnorm → measure)) (p : pnorm)
  : fs_measure :=
  {| fs_ave_widths := map (fun m => ave_width (m p)) ms;
     fs_ave_lengths := zip_with (fun s d => tf_mul (Fin (inject_Z (s - 1))) d)
                                sizes (map (fun m => ave_delta (m p)) ms) |}.

(** What the aggregator returns for a factor of size [s], whatever the
    norm: finite and non-negative numbers, null together (and null for a
    factor of size 1). *)
Definition factor_ok (s : Z) (m : pnorm → measure) : Prop :=
  ∃ Zf : Prop,
    (s = 1 → Zf)
    ∧ ∀ p, ∃ a b, m p = {| ave_width := Fin a; ave_delta := Fin b |}
                  ∧ (0 <= a)%Q ∧ (0 <= b)%Q
                  ∧ ((a == 0)%Q ↔ Zf) ∧ ((b == 0)%Q ↔ Zf).

(** The points of a traversal advance along a straight line under the norm
    [p]: the last point is as far from the first as the path through all
    the points is long, and the two end points differ. *)
Definition straight (norm_l2 : list Q → Q) (p : pnorm) (zs : list (list Q)) : Prop :=
  ∃ first mid last_pt,
    zs = first :: mid ++ [last_pt]
    ∧ (0 < dist norm_l2 p last_pt first)%Q
    ∧ (dist norm_l2 p last_pt first
       == Qsum (zip_with (dist norm_l2 p) zs (tail zs)))%Q.

(** ** A synthetic dataset

    Two factors of sizes [1, 5]; an observation is its own row of factor
    values, and the representation maps the value [v] of the second factor
    to the one-dimensional point [v * 2].  The random source is a linear
    congruential generator. *)

Definition scenario_dataset : @GroundTruthDataset Z (list Z) :=
  {| num_factors := 2;
     factor_sizes := [1; 5];
     sample_factors := fun size g => (replicate size [0; g mod 5], (g * 7 + 3) mod 101);
     dataset_batch_from_factors := fun rows => rows;
     dataset_sample_batch := fun n g => (replicate n [0; g mod 5], (g * 7 + 3) mod 101) |}.

Definition scenario_point (row : list Z) : list Q := [(inject_Z (nth 1 row 0%Z) * 2)%Q].

Definition scenario_representation (batch : list (list Z)) : list (list Q) :=
  map scenario_point batch.

(** The latent traversal of the second factor of the synthetic dataset. *)
Definition scenario_traversal : list (list Q) := [[0]; [2]; [4]; [6]; [8]]%Q.

(** The measures of the synthetic dataset in exact arithmetic, as
    [metric_flatness] collects them. *)
Definition scenario_measures : dict pnorm fs_measure :=
  [ (L1, {| fs_ave_widths := [Fin 0; Fin 8]; fs_ave_lengths := [Fin 0; Fin 8] |});
    (L2, {| fs_ave_widths := [Fin 0; Fin 8]; fs_ave_lengths := [Fin 0; Fin 8] |}) ].

(** A dataset whose only factor has one value. *)
Definition degenerate_dataset : @GroundTruthDataset Z (list Z) :=
  {| num_factors := 1;
     factor_sizes := [1];
     sample_factors := fun size g => (replicate size [0], (g * 7 + 3) mod 101);
     dataset_batch_from_factors := fun rows => rows;
     dataset_sample_batch := fun n g => (replicate n [0], (g * 7 + 3) mod 101) |}.

Definition constant_representation (batch : list (list Z)) : list (list Q) :=
  map (fun _ => [0%Q]) batch.


(** * Properties *)

(** ** The result monad *)

Lemma for_each_map {A B} (f : A → B) (l : list A) :
  for_each (fun x => Ok (f x)) l = Ok (map f l).
Proof. induction l as [|x l IH]; simpl; [done|]. by rewrite IH. Qed.

Lemma for_each_ext {A B} (f g : A → result B) (l : list A) :
  (∀ x, x ∈ l → f x = g x) → for_each f l = for_each g l.
Proof.
  induction l as [|x l IH]; intros Hfg; simpl; [done|].
  rewrite Hfg by left. rewrite IH; [done|]. intros y Hy. apply Hfg. by right.
Qed.

Lemma for_each_Ok_length {A B} (f : A → result B) (l : list A) (ys : list B) :
  for_each f l = Ok ys → length ys = length l.
Proof.
  revert ys. induction l as [|x l IH]; simpl; intros ys H.
  - by inversion H.
  - destruct (f x); simpl in H; [|done].
    destruct (for_each f l) eqn:E; simpl in H; [|done].
    inversion H; subst. simpl. f_equal. by apply IH.
Qed.

(** ** Order facts on the rationals, in boolean form *)

Lemma Qle_bool_true (a b : Q) : Qle_bool a b = true ↔ (a <= b)%Q.
Proof. apply Qle_bool_iff. Qed.

Lemma Qle_bool_false (a b : Q) : Qle_bool a b = false ↔ (b < a)%Q.
Proof.
  split; intros H.
  - apply Qnot_le_lt. intros Hle. apply Qle_bool_iff in Hle. congruence.
  - destruct (Qle_bool a b) eqn:E; [|done].
    apply Qle_bool_iff in E. lra.
Qed.

Lemma Qeq_bool_true (a b : Q) : Qeq_bool a b = true ↔ (a == b)%Q.
Proof. apply Qeq_bool_iff. Qed.

Lemma Qeq_bool_false (a b : Q) : Qeq_bool a b = false ↔ ¬ (a == b)%Q.
Proof.
  split; intros H.
  - intros He. apply Qeq_bool_iff in He. congruence.
  - destruct (Qeq_bool a b) eqn:E; [|done]. apply Qeq_bool_iff in E. done.
Qed.

(** ** Sorting *)

Section Sorting.

Variable leb : Q → Q → bool.
Hypothesis leb_total : ∀ a b, leb a b = true ∨ leb b a = true.
Hypothesis leb_trans : ∀ a b c, leb a b = true → leb b c = true → leb a c = true.

Lemma insert_by_perm (x : Q) (l : list Q) : insert_by leb x l ≡ₚ x :: l.
Proof.
  induction l as [|y l IH]; simpl; [done|].
  destruct (leb x y); [done|]. rewrite IH. apply Permutation_swap.
Qed.

Lemma sort_by_perm (l : list Q) : sort_by leb l ≡ₚ l.
Proof.
  induction l as [|x l IH]; simpl; [done|].
  rewrite insert_by_perm. by rewrite IH.
Qed.

Lemma length_sort_by (l : list Q) : length (sort_by leb l) = length l.
Proof. apply Permutation_length, sort_by_perm. Qed.

Lemma insert_by_sorted (x : Q) (l : list Q) :
  StronglySorted (fun a b => leb a b = true) l →
  StronglySorted (fun a b => leb a b = true) (insert_by leb x l).
Proof.
  induction 1 as [|y l Hl IH Hy]; simpl.
  - repeat constructor.
  - destruct (leb x y) eqn:E.
    + constructor; [by constructor|].
      constructor; [done|].
      eapply Forall_impl; [exact Hy|]. intros z Hz. by eapply leb_trans.
    + constructor; [done|].
      assert (Hyx : leb y x = true) by (destruct (leb_total x y); congruence).
      eapply Permutation_Forall; [symmetry; apply insert_by_perm|].
      by constructor.
Qed.

Lemma sort_by_sorted (l : list Q) :
  StronglySorted (fun a b => leb a b = true) (sort_by leb l).
Proof.
  induction l as [|x l IH]; simpl; [constructor|]. by apply insert_by_sorted.
Qed.

Lemma sorted_head_least (x : Q) (l : list Q) :
  StronglySorted (fun a b => leb a b = true) (x :: l) →
  ∀ y, y ∈ x :: l → leb x y = true.
Proof.
  intros Hs y Hy. inversion Hs as [|? ? _ Hall]; subst.
  apply elem_of_cons in Hy as [->|Hy].
  - destruct (leb_total x x); done.
  - rewrite Forall_forall in Hall. by apply Hall.
Qed.

Lemma sorted_last_greatest (l : list Q) (m : Q) :
  StronglySorted (fun a b => leb a b = true) (l ++ [m]) →
  ∀ y, y ∈ l ++ [m] → leb y m = true.
Proof.
  induction l as [|x l IH]; simpl; intros Hs y Hy.
  - apply list_elem_of_singleton in Hy as ->. destruct (leb_total m m); done.
  - inversion Hs as [|? ? Hs' Hall]; subst.
    apply elem_of_cons in Hy as [->|Hy]; [|by apply IH].
    rewrite Forall_forall in Hall. apply Hall.
    apply elem_of_app. right. by left.
Qed.

End Sorting.

Lemma Qle_bool_total (a b : Q) : Qle_bool a b = true ∨ Qle_bool b a = true.
Proof.
  destruct (Qle_bool a b) eqn:E; [by left|right].
  apply Qle_bool_false in E. apply Qle_bool_true. lra.
Qed.

Lemma Qle_bool_trans (a b c : Q) :
  Qle_bool a b = true → Qle_bool b c = true → Qle_bool a c = true.
Proof. rewrite !Qle_bool_true. lra. Qed.

Lemma Qge_bool_total (a b : Q) : Qge_bool a b = true ∨ Qge_bool b a = true.
Proof. unfold Qge_bool. destruct (Qle_bool_total a b); auto. Qed.

Lemma Qge_bool_trans (a b c : Q) :
  Qge_bool a b = true → Qge_bool b c = true → Qge_bool a c = true.
Proof. unfold Qge_bool. intros. by eapply Qle_bool_trans. Qed.

(** ** Maximum and top-k *)

Lemma foldl_Qmax_of_spec (t : list Q) (x : Q) :
  foldl Qmax_of x t ∈ x :: t ∧ ∀ y, y ∈ x :: t → (y <= foldl Qmax_of x t)%Q.
Proof.
  revert x. induction t as [|z t IH]; intros x; simpl.
  - split; [by left|]. intros y Hy. apply list_elem_of_singleton in Hy as ->. lra.
  - destruct (IH (Qmax_of x z)) as [Hin Hmax]. split.
    + apply elem_of_cons in Hin as [Heq|Hin]; [|by do 2 right].
      rewrite Heq. unfold Qmax_of. destruct (Qle_bool x z); [right|]; by left.
    + intros y Hy.
      assert (Hxz : (x <= Qmax_of x z ∧ z <= Qmax_of x z)%Q).
      { unfold Qmax_of. destruct (Qle_bool x z) eqn:E.
        - apply Qle_bool_true in E. lra.
        - apply Qle_bool_false in E. lra. }
      assert (Hm : (Qmax_of x z <= foldl Qmax_of (Qmax_of x z) t)%Q)
        by (apply Hmax; by left).
      apply elem_of_cons in Hy as [->|Hy]; [lra|].
      apply elem_of_cons in Hy as [->|Hy]; [lra|].
      apply Hmax. by right.
Qed.

Lemma tensor_max_spec (t : list Q) :
  t ≠ [] →
  ∃ m, tensor_max t = Ok m ∧ m ∈ t ∧ ∀ y, y ∈ t → (y <= m)%Q.
Proof.
  destruct t as [|x t]; [done|]. intros _. exists (foldl Qmax_of x t).
  split; [done|]. apply foldl_Qmax_of_spec.
Qed.

(** The largest entry of a non-empty row. *)
Lemma topk_one_largest (row : list Q) :
  row ≠ [] →
  ∃ m, topk row 1 true = Ok [m] ∧ m ∈ row ∧ ∀ y, y ∈ row → (y <= m)%Q.
Proof.
  intros Hne. unfold topk.
  assert (Hlen : (1 ≤ length row)%nat) by (destruct row; [done|simpl; lia]).
  replace ((0 <=? 1) && (1 <=? Z.of_nat (length row))) with true
    by (symmetry; apply andb_true_iff; split; [done|apply Z.leb_le; lia]).
  pose proof (sort_by_perm Qge_bool row) as Hp.
  pose proof (sort_by_sorted Qge_bool Qge_bool_total Qge_bool_trans row) as Hs.
  destruct (sort_by Qge_bool row) as [|m s] eqn:E.
  { apply Permutation_length in Hp. simpl in Hp. lia. }
  exists m. split; [done|]. split.
  - rewrite <- Hp. by left.
  - intros y Hy. rewrite <- Hp in Hy.
    apply (sorted_head_least Qge_bool Qge_bool_total) with (y := y) in Hs; [|done].
    by apply Qle_bool_true.
Qed.

(** All but a largest entry, when [k] is one less than the size. *)
Lemma topk_all_but_largest (t : list Q) (n : nat) :
  length t = S n →
  ∃ kept m, topk t (Z.of_nat n) false = Ok kept
            ∧ length kept = n
            ∧ kept ++ [m] ≡ₚ t
            ∧ ∀ y, y ∈ t → (y <= m)%Q.
Proof.
  intros Hlen. unfold topk.
  replace ((0 <=? Z.of_nat n) && (Z.of_nat n <=? Z.of_nat (length t))) with true
    by (symmetry; apply andb_true_iff; split; apply Z.leb_le; lia).
  rewrite Nat2Z.id.
  pose proof (sort_by_perm Qle_bool t) as Hp.
  pose proof (sort_by_sorted Qle_bool Qle_bool_total Qle_bool_trans t) as Hs.
  pose proof (length_sort_by Qle_bool t) as Hl.
  set (s := sort_by Qle_bool t) in *.
  assert (Hsplit : s = take n s ++ drop n s) by (by rewrite take_drop).
  destruct (drop n s) as [|m [|m' r]] eqn:Ed.
  - apply (f_equal length) in Ed. rewrite length_drop in Ed. simpl in Ed. lia.
  - exists (take n s), m. split; [done|]. split; [rewrite length_take; lia|].
    split; [by rewrite <- Hsplit|].
    intros y Hy. rewrite <- Hp, Hsplit in Hy. rewrite Hsplit in Hs.
    apply Qle_bool_true.
    by apply (sorted_last_greatest Qle_bool Qle_bool_total (take n s) m).
  - apply (f_equal length) in Ed. rewrite length_drop in Ed. simpl in Ed. lia.
Qed.

Lemma for_each_Forall2 {A B} (R : A → B → Prop) (f : A → result B) (l : list A) :
  (∀ x, x ∈ l → ∃ y, f x = Ok y ∧ R x y) →
  ∃ ys, for_each f l = Ok ys ∧ Forall2 R l ys.
Proof.
  induction l as [|x l IH]; intros H; simpl.
  - by exists [].
  - destruct (H x) as (y & Hy & HR); [by left|].
    destruct IH as (ys & Hys & HRs); [intros z Hz; apply H; by right|].
    exists (y :: ys). rewrite Hy, Hys. split; [done|by constructor].
Qed.

Lemma elem_of_concat {A} (x : A) (ls : list (list A)) :
  x ∈ concat ls ↔ ∃ l, x ∈ l ∧ l ∈ ls.
Proof.
  rewrite list_elem_of_In, in_concat. split.
  - intros (l & Hl & Hx). exists l. by rewrite !list_elem_of_In.
  - intros (l & Hx & Hl). exists l. by rewrite <- !list_elem_of_In.
Qed.

Lemma roll_m1_lookup {A} (t : list A) (i : nat) :
  (i < length t)%nat → roll_m1 t !! i = t !! ((i + 1) mod length t)%nat.
Proof.
  destruct t as [|x t]; [simpl; lia|]. intros Hi.
  change (length (x :: t)) with (S (length t)) in *. unfold roll_m1.
  destruct (decide (i = length t)) as [->|Hne].
  - replace (length t + 1)%nat with (S (length t)) by lia.
    rewrite Nat.Div0.mod_same. by rewrite list_lookup_middle.
  - rewrite Nat.mod_small by lia. rewrite lookup_app_l by lia.
    by replace (i + 1)%nat with (S i) by lia.
Qed.

Lemma length_roll_m1 {A} (t : list A) : length (roll_m1 t) = length t.
Proof. destruct t; simpl; [done|]. rewrite length_app. simpl. lia. Qed.

(** ** The statistics of one traversal *)

Section TraversalStatistics.

Variable norm_l2 : list Q → Q.

Lemma same_row_shape_refl (zs : list (list Q)) (d : nat) :
  Forall (fun r => length r = d) zs → same_row_shape zs zs = true.
Proof.
  intros H. unfold same_row_shape.
  apply forallb_forall. intros r Hr. apply forallb_forall. intros s Hs.
  rewrite Forall_forall in H. apply Nat.eqb_eq.
  rewrite (H r), (H s); [done| |]; by apply list_elem_of_In.
Qed.

Lemma traversal_width_spec (zs : list (list Q)) (p : pnorm) (d : nat) :
  (2 ≤ length zs)%nat →
  Forall (fun r => length r = d) zs →
  ∃ w, traversal_width norm_l2 zs p = Ok w
       ∧ (∃ a b, a ∈ zs ∧ b ∈ zs ∧ w = dist norm_l2 p a b)
       ∧ (∀ a b, a ∈ zs → b ∈ zs → (dist norm_l2 p a b <= w)%Q).
Proof.
  intros Hlen Hrect. unfold traversal_width, knn.
  replace ((0 <? 1) && (1 <=? Z.of_nat (length zs))) with true
    by (symmetry; apply andb_true_iff; split; [done|apply Z.leb_le; lia]).
  rewrite (same_row_shape_refl zs d Hrect). simpl.
  set (dist_mat := map (fun xi => map (fun yj => dist norm_l2 p xi yj) zs) zs).
  destruct (for_each_Forall2
              (fun row v => ∃ m, v = [m] ∧ m ∈ row ∧ ∀ y, y ∈ row → (y <= m)%Q)
              (fun row => topk row 1 true) dist_mat) as (v & Hv & HR).
  { intros row Hrow. apply list_elem_of_fmap in Hrow as (xi & -> & _).
    destruct (topk_one_largest (map (fun yj => dist norm_l2 p xi yj) zs))
      as (m & Hm & Hin & Hmax).
    - destruct zs; [simpl in Hlen; lia|done].
    - exists [m]. split; [done|]. by exists m. }
  rewrite Hv. simpl.
  assert (Hne : concat v ≠ []).
  { unfold dist_mat in HR. destruct zs as [|z0 zs']; [simpl in Hlen; lia|].
    inversion HR as [|? ? ? ? H1 _]; subst. by destruct H1 as (m & -> & _). }
  destruct (tensor_max_spec (concat v) Hne) as (w & Hw & Hin & Hmax).
  exists w. split; [done|]. split.
  - apply elem_of_concat in Hin as (r & Hwr & Hr).
    apply list_elem_of_lookup in Hr as (i & Hi).
    destruct (Forall2_lookup_r _ _ _ _ _ HR Hi) as (row & Hrow & (m & -> & Hm & _)).
    apply list_elem_of_singleton in Hwr as ->.
    apply list_elem_of_lookup_2 in Hrow.
    apply list_elem_of_fmap in Hrow as (a & -> & Ha).
    apply list_elem_of_fmap in Hm as (b & -> & Hb).
    by exists a, b.
  - intros a b Ha Hb.
    apply list_elem_of_lookup in Ha as (i & Hi).
    assert (Hrow : dist_mat !! i = Some (map (fun yj => dist norm_l2 p a yj) zs))
      by (unfold dist_mat; by rewrite list_lookup_fmap, Hi).
    destruct (Forall2_lookup_l _ _ _ _ _ HR Hrow) as (r & Hr & (m & -> & _ & Hm)).
    assert (Hmw : (m <= w)%Q).
    { apply Hmax. apply elem_of_concat. exists [m].
      split; [by left|]. by eapply list_elem_of_lookup_2. }
    assert (Hd : (dist norm_l2 p a b <= m)%Q).
    { apply Hm. apply list_elem_of_fmap. by exists b. }
    lra.
Qed.

Lemma traversal_deltas_spec (zs : list (list Q)) (p : pnorm) (n : nat) :
  length zs = n → (2 ≤ n)%nat →
  length (raw_deltas norm_l2 zs p) = n
  ∧ (∀ i a b, zs !! i = Some a → zs !! ((i + 1) mod n)%nat = Some b →
              raw_deltas norm_l2 zs p !! i = Some (dist norm_l2 p a b))
  ∧ ∃ kept m, traversal_deltas norm_l2 zs (Z.of_nat n) p = Ok kept
       ∧ length kept = (n - 1)%nat
       ∧ kept ++ [m] ≡ₚ raw_deltas norm_l2 zs p
       ∧ (∀ x, x ∈ raw_deltas norm_l2 zs p → (x <= m)%Q)
       ∧ (∀ x, x ∈ kept → (x <= m)%Q).
Proof.
  intros Hlen Hn.
  assert (Hraw : length (raw_deltas norm_l2 zs p) = n).
  { unfold raw_deltas. rewrite length_zip_with, length_roll_m1. lia. }
  split; [done|]. split.
  - intros i a b Ha Hb. unfold raw_deltas.
    rewrite lookup_zip_with, Ha. simpl.
    rewrite roll_m1_lookup by (rewrite Hlen; apply lookup_lt_Some in Ha; lia).
    by rewrite Hlen, Hb.
  - unfold traversal_deltas.
    destruct (topk_all_but_largest (raw_deltas norm_l2 zs p) (n - 1))
      as (kept & m & Hk & Hkl & Hperm & Hmax); [lia|].
    exists kept, m. replace (Z.of_nat n - 1) with (Z.of_nat (n - 1)) by lia.
    repeat split; try done.
    intros x Hx. apply Hmax. rewrite <- Hperm. apply elem_of_app. by left.
Qed.



End TraversalStatistics.

(** ** Filtering the inactive factors *)

Lemma index_select_nonzero_from {A} (pre t : list A) (sizes : list Z) :
  length t = length sizes →
  index_select (pre ++ t) (nonzero_from (length pre) (map (fun s => s - 1) sizes))
  = Ok (active_entries t sizes).
Proof.
  revert pre t. induction sizes as [|s sizes IH]; intros pre t Hlen.
  - by destruct t.
  - destruct t as [|x t]; [done|]. simpl in Hlen. simpl.
    specialize (IH (pre ++ [x]) t). rewrite length_app in IH. simpl in IH.
    replace (length pre + 1)%nat with (S (length pre)) in IH by lia.
    rewrite <- app_assoc in IH. simpl in IH.
    destruct (s - 1 =? 0) eqn:E.
    + replace (s =? 1) with true by (symmetry; apply Z.eqb_eq; apply Z.eqb_eq in E; lia).
      apply IH. lia.
    + replace (s =? 1) with false by (symmetry; apply Z.eqb_neq; apply Z.eqb_neq in E; lia).
      unfold index_select in *. simpl. rewrite list_lookup_middle by done. simpl.
      rewrite IH by lia. done.
Qed.

Lemma filter_inactive_factors_active {A} (t : list A) (sizes : list Z) :
  length t = length sizes →
  filter_inactive_factors t sizes
  = (_ ← assert (forallb (fun s => 1 <=? s) sizes); Ok (active_entries t sizes)).
Proof.
  intros Hlen. unfold filter_inactive_factors.
  destruct (assert _); simpl; [|done].
  by apply (index_select_nonzero_from []).
Qed.

Lemma active_entries_length {A B} (t : list A) (u : list B) (sizes : list Z) :
  length t = length sizes → length u = length sizes →
  length (active_entries t sizes) = length (active_entries u sizes).
Proof.
  revert t u. induction sizes as [|s sizes IH]; intros [|x t] [|y u] Ht Hu;
    simpl in *; try done.
  destruct (s =? 1); simpl; [|f_equal]; apply IH; lia.
Qed.

Lemma active_entries_Forall {A} (P : A → Prop) (t : list A) (sizes : list Z) :
  Forall P t → Forall P (active_entries t sizes).
Proof.
  intros H. revert sizes. induction H as [|x t Hx Ht IH]; intros [|s sizes]; simpl;
    try constructor.
  destruct (s =? 1); [apply IH|constructor; [done|apply IH]].
Qed.

Lemma active_entries_Forall2 {A B} (R : A → B → Prop) (t : list A) (u : list B)
    (sizes : list Z) :
  Forall2 R t u → Forall2 R (active_entries t sizes) (active_entries u sizes).
Proof.
  intros H. revert sizes. induction H as [|x y t u Hxy Htu IH]; intros [|s sizes];
    simpl; try constructor.
  destruct (s =? 1); [apply IH|constructor; [done|apply IH]].
Qed.

Lemma active_entries_insert_at {A} (k : nat) (x : A) (t : list A) (sizes : list Z) :
  length t = length sizes → (k ≤ length sizes)%nat →
  active_entries (insert_at k x t) (insert_at k 1 sizes) = active_entries t sizes.
Proof.
  revert t sizes. induction k as [|k IH]; intros t sizes Hlen Hk.
  - unfold insert_at. by rewrite !take_0, !drop_0.
  - destruct sizes as [|s sizes]; [simpl in Hk; lia|].
    destruct t as [|y t]; [done|]. simpl in Hlen, Hk.
    unfold insert_at in *. simpl.
    destruct (s =? 1); [|f_equal]; apply IH; lia.
Qed.

Lemma forallb_insert_at {A} (f : A → bool) (k : nat) (x : A) (l : list A) :
  f x = true → forallb f (insert_at k x l) = forallb f l.
Proof.
  intros Hx. unfold insert_at.
  transitivity (forallb f (take k l ++ drop k l)); [|by rewrite take_drop].
  rewrite !forallb_app. simpl. by rewrite Hx.
Qed.

Lemma length_insert_at {A} (k : nat) (x : A) (l : list A) :
  length (insert_at k x l) = S (length l).
Proof.
  unfold insert_at. rewrite length_app. simpl. rewrite length_take, length_drop. lia.
Qed.

Lemma filter_inactive_factors_insert_at {A} (k : nat) (x : A) (t : list A)
    (sizes : list Z) :
  length t = length sizes → (k ≤ length sizes)%nat →
  filter_inactive_factors (insert_at k x t) (insert_at k 1 sizes)
  = filter_inactive_factors t sizes.
Proof.
  intros Hlen Hk.
  rewrite !filter_inactive_factors_active by (rewrite ?length_insert_at; lia).
  rewrite forallb_insert_at by done.
  by rewrite active_entries_insert_at.
Qed.

(** ** The flatness of the active factors *)

Lemma tensor_binop_same_length {A B C} (f : A → B → C) (a : list A) (b : list B) :
  length a = length b → tensor_binop f a b = Ok (zip_with f a b).
Proof. intros H. unfold tensor_binop. by rewrite H, Nat.eqb_refl. Qed.

Lemma masked_fill_same_length {A} (t : list A) (mask : list bool) (v : A) :
  length t = length mask →
  masked_fill t mask v = Ok (zip_with (fun x (m : bool) => if m then v else x) t mask).
Proof. intros H. unfold masked_fill. by rewrite H, Nat.eqb_refl. Qed.

Lemma assert_true (b : bool) : b = true → assert b = Ok tt.
Proof. by intros ->. Qed.

Lemma factor_flatness_masked (x y : tfloat) :
  tf_ge0 y = true →
  tf_div (if tf_eq0 y then Fin 0 else x) (if tf_eq0 y then Fin 1 else y)
  = factor_flatness x y.
Proof.
  unfold factor_flatness. destruct y as [q| | |]; simpl; try done.
  intros Hq. apply Qle_bool_true in Hq. unfold Qlt_bool.
  destruct (Qeq_bool q 0) eqn:E.
  - apply Qeq_bool_true in E.
    replace (Qle_bool q 0) with true by (symmetry; apply Qle_bool_true; lra).
    reflexivity.
  - apply Qeq_bool_false in E.
    replace (Qle_bool q 0) with false by (symmetry; apply Qle_bool_false; lra).
    reflexivity.
Qed.

Lemma flatness_ratios (w l : list tfloat) :
  Forall (fun y => tf_ge0 y = true) l →
  zip_with tf_div
    (zip_with (fun x (m : bool) => if m then Fin 0 else x) w (map tf_eq0 l))
    (zip_with (fun x (m : bool) => if m then Fin 1 else x) l (map tf_eq0 l))
  = zip_with factor_flatness w l.
Proof.
  intros H. revert w. induction H as [|y l Hy Hl IH]; intros [|x w]; simpl; try done.
  by rewrite IH, factor_flatness_masked.
Qed.

Lemma zero_pattern_check (w l : list tfloat) :
  Forall2 (fun x y => tf_eq0 x = tf_eq0 y) w l →
  forallb id (zip_with Bool.eqb (map tf_eq0 w) (map tf_eq0 l)) = true.
Proof.
  induction 1 as [|x y w l Hxy Hwl IH]; simpl; [done|].
  rewrite Hxy, eqb_reflx. done.
Qed.

Lemma Forall_forallb {A} (f : A → bool) (l : list A) :
  Forall (fun x => f x = true) l → forallb f l = true.
Proof. induction 1; simpl; [done|]. by apply andb_true_iff. Qed.

(** [compute_flatness] on measures that pass its checks. *)
Lemma compute_flatness_mean (w l : list tfloat) (sizes : list Z) :
  Forall (fun s => 1 ≤ s) sizes →
  length w = length sizes → length l = length sizes →
  Forall (fun x => tf_ge0 x = true) w →
  Forall (fun y => tf_ge0 y = true) l →
  Forall2 (fun x y => tf_eq0 x = tf_eq0 y) w l →
  compute_flatness w l sizes = Ok (mean_factor_flatness w l sizes).
Proof.
  intros Hs Hw Hl Hw0 Hl0 Hz. unfold compute_flatness.
  rewrite !filter_inactive_factors_active by done.
  rewrite assert_true
    by (apply Forall_forallb; eapply Forall_impl; [exact Hs|]; intros s; apply Z.leb_le).
  simpl.
  pose proof (active_entries_length w l sizes Hw Hl) as Hlen.
  rewrite (assert_true _ (Forall_forallb _ _ (active_entries_Forall _ _ sizes Hw0))).
  simpl.
  rewrite (assert_true _ (Forall_forallb _ _ (active_entries_Forall _ _ sizes Hl0))).
  simpl.
  rewrite tensor_binop_same_length by (by rewrite !length_map).
  simpl.
  rewrite (assert_true _ (zero_pattern_check _ _ (active_entries_Forall2 _ _ _ sizes Hz))).
  simpl.
  rewrite masked_fill_same_length by (by rewrite length_map).
  simpl.
  rewrite masked_fill_same_length by (by rewrite length_map).
  simpl.
  rewrite tensor_binop_same_length
    by (rewrite !length_zip_with, !length_map; lia).
  simpl. unfold mean_factor_flatness.
  by rewrite (flatness_ratios _ _ (active_entries_Forall _ _ sizes Hl0)).
Qed.

Lemma mean_of_active_active (t : list tfloat) (sizes : list Z) :
  Forall (fun s => 1 ≤ s) sizes → length t = length sizes →
  mean_of_active t sizes = Ok (torch_mean (active_entries t sizes)).
Proof.
  intros Hs Ht. unfold mean_of_active.
  rewrite filter_inactive_factors_active by done.
  rewrite assert_true
    by (apply Forall_forallb; eapply Forall_impl; [exact Hs|]; intros s; apply Z.leb_le).
  done.
Qed.

(** The seven scores on measures that pass the checks. *)
Lemma metric_flatness_results_scores
    (p_fs_measures : dict pnorm fs_measure) (m1 m2 : fs_measure) (sizes : list Z) :
  dict_get p_fs_measures L1 = Ok m1 →
  dict_get p_fs_measures L2 = Ok m2 →
  Forall (fun s => 1 ≤ s) sizes →
  measures_ok sizes m1 → measures_ok sizes m2 →
  zero_pattern (fs_ave_widths m2) (fs_ave_lengths m1) →
  zero_pattern (fs_ave_widths m1) (fs_ave_lengths m1) →
  zero_pattern (fs_ave_widths m2) (fs_ave_lengths m2) →
  metric_flatness_results p_fs_measures sizes
  = Ok [ ("flatness.ave_flatness",
          mean_factor_flatness (fs_ave_widths m2) (fs_ave_lengths m1) sizes);
         ("flatness.ave_flatness_l1",
          mean_factor_flatness (fs_ave_widths m1) (fs_ave_lengths m1) sizes);
         ("flatness.ave_flatness_l2",
          mean_factor_flatness (fs_ave_widths m2) (fs_ave_lengths m2) sizes);
         ("flatness.ave_width_l1", torch_mean (active_entries (fs_ave_widths m1) sizes));
         ("flatness.ave_width_l2", torch_mean (active_entries (fs_ave_widths m2) sizes));
         ("flatness.ave_length_l1", torch_mean (active_entries (fs_ave_lengths m1) sizes));
         ("flatness.ave_length_l2", torch_mean (active_entries (fs_ave_lengths m2) sizes)) ].
Proof.
  intros H1 H2 Hs [Hw1 Hl1 Hw1n Hl1n] [Hw2 Hl2 Hw2n Hl2n] Z21 Z11 Z22.
  unfold metric_flatness_results. rewrite H1, H2. simpl.
  rewrite !compute_flatness_mean by done. simpl.
  rewrite !mean_of_active_active by done. simpl.
  done.
Qed.


(** C4: a factor of size 1 takes no part in any score.  Whatever width and
    length the extra factor is given, and wherever it stands in the factor
    list, the seven scores are those of the dataset without it. *)
Theorem extra_inactive_factor_changes_nothing
    (p_fs_measures : dict pnorm fs_measure) (sizes : list Z)
    (k : nat) (wv lv : pnorm → tfloat) :
  (∀ p m, (p, m) ∈ p_fs_measures →
          length (fs_ave_widths m) = length sizes
          ∧ length (fs_ave_lengths m) = length sizes) →
  (k ≤ length sizes)%nat →
  metric_flatness_results (with_extra_factor k wv lv p_fs_measures) (insert_at k 1 sizes)
  = metric_flatness_results p_fs_measures sizes.
Proof.
  intros Hlen Hk.
  assert (Hget : ∀ p, dict_get (with_extra_factor k wv lv p_fs_measures) p
                      = (m ← dict_get p_fs_measures p;
                         Ok {| fs_ave_widths := insert_at k (wv p) (fs_ave_widths m);
                               fs_ave_lengths := insert_at k (lv p) (fs_ave_lengths m) |})).
  { intros p. clear Hlen. induction p_fs_measures as [|[p' m] d IH]; simpl; [done|].
    destruct (decide (p = p')) as [->|]; [done|]. apply IH. }
  assert (Hin : ∀ p m, dict_get p_fs_measures p = Ok m →
                       length (fs_ave_widths m) = length sizes
                       ∧ length (fs_ave_lengths m) = length sizes).
  { intros p m. clear Hget. induction p_fs_measures as [|[p' m'] d IH]; simpl; [done|].
    destruct (decide (p = p')) as [->|].
    - intros [= ->]. apply (Hlen p'). by left.
    - apply IH. intros q mq Hq. apply (Hlen q). by right. }
  assert (Hcf : ∀ pw pl mw ml,
             dict_get p_fs_measures pw = Ok mw → dict_get p_fs_measures pl = Ok ml →
             compute_flatness (insert_at k (wv pw) (fs_ave_widths mw))
                              (insert_at k (lv pl) (fs_ave_lengths ml)) (insert_at k 1 sizes)
             = compute_flatness (fs_ave_widths mw) (fs_ave_lengths ml) sizes).
  { intros pw pl mw ml Hw Hl. unfold compute_flatness.
    destruct (Hin _ _ Hw) as [? _]. destruct (Hin _ _ Hl) as [_ ?].
    by rewrite !filter_inactive_factors_insert_at. }
  assert (Hmw : ∀ p m, dict_get p_fs_measures p = Ok m →
             mean_of_active (insert_at k (wv p) (fs_ave_widths m)) (insert_at k 1 sizes)
             = mean_of_active (fs_ave_widths m) sizes).
  { intros p m Hm. unfold mean_of_active. destruct (Hin _ _ Hm) as [? _].
    by rewrite filter_inactive_factors_insert_at. }
  assert (Hml : ∀ p m, dict_get p_fs_measures p = Ok m →
             mean_of_active (insert_at k (lv p) (fs_ave_lengths m)) (insert_at k 1 sizes)
             = mean_of_active (fs_ave_lengths m) sizes).
  { intros p m Hm. unfold mean_of_active. destruct (Hin _ _ Hm) as [_ ?].
    by rewrite filter_inactive_factors_insert_at. }
  unfold metric_flatness_results. rewrite !Hget.
  destruct (dict_get p_fs_measures L2) as [m2|e2] eqn:E2;
    destruct (dict_get p_fs_measures L1) as [m1|e1] eqn:E1; simpl; try done.
  rewrite !(Hcf _ _ _ _ E2 E1), !(Hcf _ _ _ _ E1 E1), !(Hcf _ _ _ _ E2 E2).
  by rewrite (Hmw _ _ E1), (Hmw _ _ E2), (Hml _ _ E1), (Hml _ _ E2).
Qed.

(** ** In-place updates and the caller's tensors *)

Section StoreFacts.

Lemma lookup_fresh0 {A} (h r : list A) (a : A) : (h ++ a :: r) !! length h = Some a.
Proof. by apply list_lookup_middle. Qed.

Lemma lookup_fresh1 {A} (h r : list A) (a b : A) :
  (h ++ a :: b :: r) !! S (length h) = Some b.
Proof.
  replace (h ++ a :: b :: r) with ((h ++ [a]) ++ b :: r) by (by rewrite <- app_assoc).
  apply list_lookup_middle. rewrite length_app. simpl. lia.
Qed.

Lemma insert_fresh0 {A} (h r : list A) (a x : A) :
  <[length h := x]> (h ++ a :: r) = h ++ x :: r.
Proof. by rewrite insert_app_r_alt, Nat.sub_diag by lia. Qed.

Lemma insert_fresh1 {A} (h r : list A) (a b x : A) :
  <[S (length h) := x]> (h ++ a :: b :: r) = h ++ a :: x :: r.
Proof.
  rewrite insert_app_r_alt by lia.
  by replace (S (length h) - length h)%nat with 1%nat by lia.
Qed.

(** Filtering reads its argument and allocates its result: it writes to no
    tensor of the store. *)
Lemma filter_inactive_factors_run (h : Aliasing.store) (tensor : Aliasing.loc) (t : list tfloat)
    (sizes : list Z) :
  h !! tensor = Some t →
  Aliasing.filter_inactive_factors tensor sizes h
  = match filter_inactive_factors t sizes with
    | Ok s => (Ok (length h), h ++ [s])
    | Raise e => (Raise e, h)
    end.
Proof.
  intros Ht.
  unfold Aliasing.filter_inactive_factors, filter_inactive_factors,
    Aliasing.bind, Aliasing.lift, Aliasing.read, Aliasing.alloc.
  destruct (assert _); simpl; [|done]. rewrite Ht.
  by destruct (index_select t _).
Qed.

Lemma filter_inactive_factors_dangling (h : Aliasing.store) (tensor : Aliasing.loc) (sizes : list Z) :
  h !! tensor = None →
  ∃ e, Aliasing.filter_inactive_factors tensor sizes h = (Raise e, h).
Proof.
  intros Ht.
  unfold Aliasing.filter_inactive_factors, Aliasing.bind, Aliasing.lift, Aliasing.read.
  destruct (assert _); simpl; [|by eexists]. rewrite Ht. by eexists.
Qed.

(** [compute_flatness] over the store: its value is that of the pure
    function on what the two tensors hold, and the store it leaves only
    extends the one it was given. *)
Lemma compute_flatness_run (h : Aliasing.store) (widths lengths : Aliasing.loc) (tw tl : list tfloat)
    (sizes : list Z) :
  h !! widths = Some tw → h !! lengths = Some tl →
  ∃ ext, Aliasing.compute_flatness widths lengths sizes h
         = (compute_flatness tw tl sizes, h ++ ext).
Proof.
  intros Hw Hl.
  unfold Aliasing.compute_flatness, compute_flatness.
  unfold Aliasing.bind at 1. rewrite (filter_inactive_factors_run h widths tw sizes Hw).
  destruct (filter_inactive_factors tw sizes) as [a|e]; simpl;
    [|exists []; by rewrite app_nil_r].
  unfold Aliasing.bind at 1.
  rewrite (filter_inactive_factors_run (h ++ [a]) lengths tl sizes)
    by (by apply lookup_app_l_Some).
  destruct (filter_inactive_factors tl sizes) as [b|e]; simpl;
    [|by exists [a]].
  rewrite length_app. simpl. rewrite Nat.add_1_r, <- app_assoc. simpl.
  unfold Aliasing.bind, Aliasing.read, Aliasing.write, Aliasing.lift, Aliasing.alloc,
    Aliasing.ret.
  rewrite lookup_fresh0.
  destruct (assert (forallb tf_ge0 a)); simpl; [|by exists [a; b]].
  rewrite lookup_fresh1.
  destruct (assert (forallb tf_ge0 b)); simpl; [|by exists [a; b]].
  destruct (tensor_binop Bool.eqb (map tf_eq0 a) (map tf_eq0 b)) as [same|e];
    simpl; [|by exists [a; b]].
  destruct (assert (forallb id same)); simpl; [|by exists [a; b]].
  rewrite lookup_fresh1, lookup_fresh0.
  destruct (masked_fill a (map tf_eq0 b) (Fin 0)) as [a'|e]; simpl;
    [|by exists [a; b]].
  rewrite insert_fresh0, lookup_fresh1.
  destruct (masked_fill b (map tf_eq0 b) (Fin 1)) as [b'|e]; simpl;
    [|by exists [a'; b]].
  rewrite insert_fresh1, lookup_fresh0, lookup_fresh1.
  destruct (tensor_binop tf_div a' b') as [ratios|e]; simpl;
    [|by exists [a'; b']].
  rewrite length_app. simpl.
  replace (length h + 2)%nat with (length (h ++ [a'; b'])) by (rewrite length_app; done).
  rewrite <- app_assoc. simpl.
  replace (h ++ [a'; b'; ratios]) with ((h ++ [a'; b']) ++ [ratios])
    by (by rewrite <- app_assoc).
  rewrite lookup_fresh0. rewrite <- app_assoc. by exists [a'; b'; ratios].
Qed.

Lemma simulates_lift {A} (h0 : list (list tfloat)) (r : result A) :
  simulates h0 (Aliasing.lift r) r.
Proof. intros ext. exists []. by rewrite app_nil_r. Qed.

Lemma simulates_ret {A} (h0 : list (list tfloat)) (a : A) :
  simulates h0 (Aliasing.ret a) (Ok a).
Proof. intros ext. exists []. by rewrite app_nil_r. Qed.

Lemma simulates_bind {A B} (h0 : list (list tfloat)) (m : Aliasing.ST A)
    (f : A → Aliasing.ST B) (r : result A) (g : A → result B) :
  simulates h0 m r →
  (∀ a, r = Ok a → simulates h0 (f a) (g a)) →
  simulates h0 (Aliasing.bind m f) (r ≫= g).
Proof.
  intros Hm Hf ext. destruct (Hm ext) as (e1 & He1).
  unfold Aliasing.bind. rewrite He1. destruct r as [a|e]; simpl.
  - destruct (Hf a eq_refl (ext ++ e1)) as (e2 & He2).
    rewrite app_assoc in He2. rewrite He2. exists (e1 ++ e2).
    by rewrite !app_assoc.
  - by exists e1.
Qed.

Lemma simulates_compute_flatness (h0 : list (list tfloat)) (widths lengths : nat)
    (tw tl : list tfloat) (sizes : list Z) :
  h0 !! widths = Some tw → h0 !! lengths = Some tl →
  simulates h0 (Aliasing.compute_flatness widths lengths sizes)
            (compute_flatness tw tl sizes).
Proof.
  intros Hw Hl ext.
  apply compute_flatness_run; by apply lookup_app_l_Some.
Qed.

Lemma simulates_mean_of_active (h0 : list (list tfloat)) (tensor : nat)
    (t : list tfloat) (sizes : list Z) :
  h0 !! tensor = Some t →
  simulates h0 (Aliasing.mean_of_active tensor sizes) (mean_of_active t sizes).
Proof.
  intros Ht ext. unfold Aliasing.mean_of_active, mean_of_active.
  unfold Aliasing.bind at 1.
  rewrite (filter_inactive_factors_run (h0 ++ ext) tensor t sizes)
    by (by apply lookup_app_l_Some).
  destruct (filter_inactive_factors t sizes) as [a|e]; simpl;
    [|exists []; by rewrite app_nil_r].
  unfold Aliasing.bind, Aliasing.read, Aliasing.ret.
  rewrite lookup_fresh0. by exists [a].
Qed.

Lemma deref_dict_get (h : list (list tfloat)) (d : dict pnorm Aliasing.fs_measure_ref)
    (vals : dict pnorm fs_measure) (p : pnorm) :
  Aliasing.deref_dict h d = Some vals →
  match dict_get d p with
  | Ok m => ∃ v, dict_get vals p = Ok v ∧ Aliasing.deref h m = Some v
  | Raise e => dict_get vals p = Raise e
  end.
Proof.
  revert vals. induction d as [|[p' m] d IH]; intros vals H; simpl in *.
  - by inversion H.
  - destruct (Aliasing.deref h m) as [v|] eqn:Ev; simpl in H; [|done].
    destruct (Aliasing.deref_dict h d) as [vs|] eqn:Evs; simpl in H; [|done].
    inversion H; subst. simpl.
    destruct (decide (p = p')); [by exists v|]. by apply IH.
Qed.

Lemma deref_Some (h : list (list tfloat)) (m : Aliasing.fs_measure_ref) (v : fs_measure) :
  Aliasing.deref h m = Some v →
  h !! Aliasing.fs_ave_widths_ref m = Some (fs_ave_widths v)
  ∧ h !! Aliasing.fs_ave_lengths_ref m = Some (fs_ave_lengths v).
Proof.
  unfold Aliasing.deref. intros H.
  destruct (h !! Aliasing.fs_ave_widths_ref m) as [w|]; simpl in H; [|done].
  destruct (h !! Aliasing.fs_ave_lengths_ref m) as [l|]; simpl in H; [|done].
  by inversion H.
Qed.

(** Looking a norm up in the caller's measures and handing two of its
    tensors to a stage of the metric. *)
Lemma simulates_lookup {A} (h0 : list (list tfloat))
    (d : dict pnorm Aliasing.fs_measure_ref) (vals : dict pnorm fs_measure) (p : pnorm)
    (f : Aliasing.fs_measure_ref → Aliasing.ST A) (g : fs_measure → result A) :
  Aliasing.deref_dict h0 d = Some vals →
  (∀ m v, Aliasing.deref h0 m = Some v → simulates h0 (f m) (g v)) →
  simulates h0 (Aliasing.bind (Aliasing.lift (dict_get d p)) f) (dict_get vals p ≫= g).
Proof.
  intros Hd Hf ext. pose proof (deref_dict_get h0 d vals p Hd) as Hp.
  unfold Aliasing.bind, Aliasing.lift.
  destruct (dict_get d p) as [m|e].
  - destruct Hp as (v & -> & Hv). simpl. by apply Hf.
  - rewrite Hp. simpl. exists []. by rewrite app_nil_r.
Qed.

Lemma simulates_metric_flatness_results (h0 : list (list tfloat))
    (d : dict pnorm Aliasing.fs_measure_ref) (vals : dict pnorm fs_measure)
    (sizes : list Z) :
  Aliasing.deref_dict h0 d = Some vals →
  simulates h0 (Aliasing.metric_flatness_results d sizes)
            (metric_flatness_results vals sizes).
Proof.
  intros Hd. unfold Aliasing.metric_flatness_results, metric_flatness_results.
  repeat (apply simulates_bind; [|intros ? _]); try apply simulates_ret;
    repeat (apply (simulates_lookup h0 d vals); [done|intros ? ? ?]);
    try (apply simulates_compute_flatness);
    try (apply simulates_mean_of_active);
    try (by eapply proj1, deref_Some); try (by eapply proj2, deref_Some).
Qed.

(** C10: [compute_flatness] leaves every tensor of its caller as it was, the
    two it is given included: it assigns only to the copies that
    [filter_inactive_factors] allocates.  So the tensors of [p_fs_measures]
    hold their original values through the three calls, and the seven
    scores are those computed from these original values. *)
Theorem compute_flatness_preserves_caller_tensors :
  (∀ (h : list (list tfloat)) (widths lengths : nat) (sizes : list Z)
     (a : nat) (t : list tfloat),
      is_Some (h !! widths) → is_Some (h !! lengths) →
      h !! a = Some t →
      (Aliasing.compute_flatness widths lengths sizes h).2 !! a = Some t)
  ∧ (∀ (h : list (list tfloat)) (d : dict pnorm Aliasing.fs_measure_ref)
       (vals : dict pnorm fs_measure) (sizes : list Z),
        Aliasing.deref_dict h d = Some vals →
        (Aliasing.metric_flatness_results d sizes h).1
        = metric_flatness_results vals sizes
        ∧ Aliasing.deref_dict (Aliasing.metric_flatness_results d sizes h).2 d
          = Some vals
        ∧ ∀ a t, h !! a = Some t →
                 (Aliasing.metric_flatness_results d sizes h).2 !! a = Some t).
Proof.
  split.
  - intros h widths lengths sizes a t [tw Hw] [tl Hl] Ha.
    destruct (compute_flatness_run h widths lengths tw tl sizes Hw Hl) as (ext & ->).
    simpl. by apply lookup_app_l_Some.
  - intros h d vals sizes Hd.
    destruct (simulates_metric_flatness_results h d vals sizes Hd []) as (ext & He).
    rewrite app_nil_r in He. rewrite He. simpl.
    assert (Hkeep : ∀ a t, h !! a = Some t → (h ++ ext) !! a = Some t)
      by (intros; by apply lookup_app_l_Some).
    split; [done|]. split; [|done].
    clear He. revert vals Hd. induction d as [|[p m] d IH]; intros vals Hd; [done|].
    simpl in *.
    destruct (Aliasing.deref h m) as [v|] eqn:Ev; simpl in Hd; [|done].
    destruct (Aliasing.deref_dict h d) as [vs|] eqn:Evs; simpl in Hd; [|done].
    rewrite (IH vs eq_refl).
    destruct (deref_Some h m v Ev) as [H1 H2].
    unfold Aliasing.deref. rewrite (Hkeep _ _ H1), (Hkeep _ _ H2). simpl.
    destruct v. simpl. done.
Qed.

End StoreFacts.

(** ** Degenerate factors and preconditions *)

Section Preconditions.

Context {G X : Type}.
Variable norm_l2 : list Q → Q.
Variable ground_truth_dataset : @GroundTruthDataset G X.
Variable representation_function : list X → list (list Q).

Lemma py_index_out_of_range {A} (l : list A) (i : Z) :
  i < - Z.of_nat (length l) ∨ Z.of_nat (length l) ≤ i → py_index l i = Raise IndexError.
Proof.
  intros H. unfold py_index.
  destruct (i <? 0) eqn:E; [apply Z.ltb_lt in E|apply Z.ltb_ge in E].
  - destruct H as [H|H]; [|lia].
    replace (0 <=? i + Z.of_nat (length l)) with false
      by (symmetry; apply Z.leb_gt; lia). done.
  - destruct H as [H|H]; [lia|].
    replace (i <? Z.of_nat (length l)) with false
      by (symmetry; apply Z.ltb_ge; lia). by rewrite andb_false_r.
Qed.

Lemma aggregate_factor_degenerate (f_idx repeats batch_size : Z) (ps : list pnorm) (g : G) :
  py_index (factor_sizes ground_truth_dataset) f_idx = Ok 1 →
  aggregate_measure_distances_along_factor norm_l2 ground_truth_dataset
    representation_function f_idx repeats batch_size ps false g
  = Ok (map (fun p => (p, zero_measure p)) ps,
        (dataset_sample_batch ground_truth_dataset 1 g).2).
Proof.
  intros H. unfold aggregate_measure_distances_along_factor, bind, lift.
  rewrite H. simpl.
  unfold get_device, bind, sample, ret.
  by destruct (dataset_sample_batch ground_truth_dataset 1 g).
Qed.

(** C6, as the code has it: for a factor of size 1 the aggregator returns
    a zero width and a zero delta for every requested norm, after one
    encoding of a sampled batch (the device query); when [cycle_fail] is
    set it raises instead, at once, a [ValueError] whose message gives the
    size, and only the size. *)
Theorem degenerate_factor_measures (f_idx repeats batch_size : Z) (ps : list pnorm) (g : G) :
  py_index (factor_sizes ground_truth_dataset) f_idx = Ok 1 →
  aggregate_measure_distances_along_factor norm_l2 ground_truth_dataset
    representation_function f_idx repeats batch_size ps false g
  = Ok (map (fun p => (p, {| ave_width := Fin 0; ave_delta := Fin 0 |})) ps,
        (dataset_sample_batch ground_truth_dataset 1 g).2)
  ∧ aggregate_measure_distances_along_factor norm_l2 ground_truth_dataset
      representation_function f_idx repeats batch_size ps true g
    = Raise (ValueError
        "dataset factor size is too small for flatness metric with cycle_normalize enabled! size=1 < 2").
Proof.
  intros H. split; [by apply aggregate_factor_degenerate|].
  unfold aggregate_measure_distances_along_factor, bind, lift.
  by rewrite H.
Qed.

Lemma chunked_not_positive {A} (arr : list A) (chunk_size : Z) :
  chunk_size ≤ 0 → chunked arr chunk_size = Raise (ValueError "chunk_size must be positive").
Proof. intros H. unfold chunked. by replace (chunk_size <=? 0) with true by (symmetry; apply Z.leb_le; lia). Qed.

Lemma for_each_M_first_raises {A B} (f : A → M B) (x : A) (l : list A) (g : G) (e : exn) :
  f x g = Raise e → for_each_M f (x :: l) g = Raise e.
Proof. intros H. simpl. unfold bind. by rewrite H. Qed.


End Preconditions.

(** The error of the cycle-normalize configuration is the same whichever
    factor is the degenerate one: the factor cannot be read off it. *)
Lemma cycle_fail_error_does_not_name_factor :
  ¬ ∃ factor_of : exn → Z,
      ∀ f_idx, f_idx = 0 ∨ f_idx = 1 →
        ∃ e, aggregate_measure_distances_along_factor norm_l1
               {| num_factors := 2; factor_sizes := [1; 1];
                  sample_factors := fun size (g : Z) => (replicate size [0; 0], g);
                  dataset_batch_from_factors := fun rows => rows;
                  dataset_sample_batch := fun n g => (replicate n [0; 0], g) |}
               constant_representation f_idx 64 64 [L1; L2] true 0
             = Raise e
           ∧ factor_of e = f_idx.
Proof.
  intros (factor_of & H).
  destruct (H 0 (or_introl eq_refl)) as (e0 & He0 & Hf0).
  destruct (H 1 (or_intror eq_refl)) as (e1 & He1 & Hf1).
  vm_compute in He0, He1. congruence.
Qed.



(** ** Chunked encoding *)

Lemma chunks_of_concat {A} (fuel n : nat) (l : list A) :
  (1 ≤ n)%nat → (length l ≤ fuel)%nat → concat (chunks_of fuel n l) = l.
Proof.
  intros Hn. revert l. induction fuel as [|fuel IH]; intros l Hl.
  - destruct l; [done|simpl in Hl; lia].
  - destruct l as [|x l]; [done|].
    change (chunks_of (S fuel) n (x :: l))
      with (take n (x :: l) :: chunks_of fuel n (drop n (x :: l))).
    cbn [concat]. rewrite IH; [apply take_drop|].
    rewrite length_drop. simpl in *. lia.
Qed.

Lemma chunks_of_bounded {A} (fuel n : nat) (l : list A) :
  (1 ≤ n)%nat →
  Forall (fun c => (1 ≤ length c ≤ n)%nat) (chunks_of fuel n l).
Proof.
  intros Hn. revert l. induction fuel as [|fuel IH]; intros l.
  - destruct l; constructor.
  - destruct l as [|x l]; [constructor|].
    change (chunks_of (S fuel) n (x :: l))
      with (take n (x :: l) :: chunks_of fuel n (drop n (x :: l))).
    constructor; [|apply IH].
    rewrite length_take. simpl. lia.
Qed.

Lemma chunked_positive {A} (arr : list A) (chunk_size : Z) :
  0 < chunk_size →
  ∃ chunks, chunked arr chunk_size = Ok chunks
            ∧ concat chunks = arr
            ∧ Forall (fun c => (1 ≤ length c)%nat ∧ Z.of_nat (length c) ≤ chunk_size) chunks.
Proof.
  intros H. unfold chunked.
  replace (chunk_size <=? 0) with false by (symmetry; apply Z.leb_gt; lia).
  eexists. split; [done|]. split.
  - apply chunks_of_concat; lia.
  - eapply Forall_impl; [apply chunks_of_bounded; lia|].
    intros c Hc. simpl in Hc. lia.
Qed.

Section Chunking.

Context {G X : Type}.
Variable norm_l2 : list Q → Q.
Variable ground_truth_dataset : @GroundTruthDataset G X.
Variable representation_function : list X → list (list Q).

(** The encoder works row by row: the latent rows of a batch of factor rows
    are the encodings of the rows, in order. *)
Variable encode_row : list Z → list Q.
Hypothesis encode_rowwise :
  ∀ rows, representation_function
            (dataset_batch_from_factors ground_truth_dataset rows)
          = map encode_row rows.

Lemma encode_all_factors_rowwise (factors : list (list Z)) (batch_size : Z) :
  0 < batch_size →
  encode_all_factors ground_truth_dataset representation_function factors batch_size
  = match factors with
    | [] => Raise (RuntimeError "torch.cat(): expected a non-empty list of Tensors")
    | _ => Ok (map encode_row factors)
    end.
Proof.
  intros Hb. unfold encode_all_factors.
  destruct (chunked_positive factors batch_size Hb) as (chunks & -> & Hcat & Hne).
  simpl. erewrite map_ext; [|intros c; apply encode_rowwise].
  destruct chunks as [|c chunks]; simpl in *.
  - by subst.
  - destruct factors as [|r factors].
    + inversion Hne as [|? ? [Hc _] _]; subst.
      apply (f_equal length) in Hcat. rewrite length_app in Hcat. simpl in Hcat. lia.
    + f_equal. rewrite <- Hcat, map_app. f_equal.
      clear. induction chunks as [|d chunks IH]; simpl; [done|].
      by rewrite map_app, IH.
Qed.

Lemma bind_ext {A B} (m1 m2 : M A) (f1 f2 : A → M B) (g : G) :
  m1 g = m2 g → (∀ a g', f1 a g' = f2 a g') → bind m1 f1 g = bind m2 f2 g.
Proof.
  intros Hm Hf. unfold bind. rewrite Hm.
  destruct (m2 g) as [[a g']|e]; [apply Hf|done].
Qed.

Lemma for_each_M_ext {A B} (f1 f2 : A → @M G B) (l : list A) (g : G) :
  (∀ x g', f1 x g' = f2 x g') → for_each_M f1 l g = for_each_M f2 l g.
Proof.
  intros Hf. revert g. induction l as [|x l IH]; intros g; simpl; [done|].
  apply bind_ext; [apply Hf|]. intros y g'.
  apply bind_ext; [apply IH|done].
Qed.

(** C8: with a row-wise encoder, encoding the traversal rows chunk by
    chunk and concatenating gives the encoding of the rows whatever the
    positive batch size, and so, from the same state of the random source,
    the metric returns the same outcome (scores and next state) for any two
    positive batch sizes. *)
Theorem batch_size_does_not_matter (b1 b2 : Z) :
  0 < b1 → 0 < b2 →
  (∀ factors, factors ≠ [] →
     encode_all_factors ground_truth_dataset representation_function factors b1
     = Ok (map encode_row factors))
  ∧ (∀ factors,
       encode_all_factors ground_truth_dataset representation_function factors b1
       = encode_all_factors ground_truth_dataset representation_function factors b2)
  ∧ (∀ factor_repeats g,
       metric_flatness norm_l2 ground_truth_dataset representation_function
         factor_repeats b1 g
       = metric_flatness norm_l2 ground_truth_dataset representation_function
           factor_repeats b2 g).
Proof.
  intros H1 H2.
  assert (Henc : ∀ factors,
    encode_all_factors ground_truth_dataset representation_function factors b1
    = encode_all_factors ground_truth_dataset representation_function factors b2)
    by (intros; by rewrite !encode_all_factors_rowwise).
  split; [|split; [done|]].
  - intros factors Hne. rewrite encode_all_factors_rowwise by done.
    by destruct factors.
  - intros factor_repeats g. unfold metric_flatness.
    apply bind_ext; [|done].
    unfold aggregate_measure_distances_along_all_factors.
    apply bind_ext; [|done].
    apply for_each_M_ext. intros f_idx g1.
    unfold aggregate_measure_distances_along_factor.
    apply bind_ext; [done|]. intros f_size g2.
    destruct (f_size =? 1); [done|].
    apply bind_ext; [|done].
    apply for_each_M_ext. intros _ g3.
    unfold measure_repeat.
    apply bind_ext; [|done].
    unfold encode_all_along_factor.
    apply bind_ext; [done|]. intros s g4.
    apply bind_ext; [done|]. intros factors g5.
    unfold lift. by rewrite Henc.
Qed.

End Chunking.

(** ** Sums and means of rationals *)

Lemma torch_sum_Fin (l : list Q) : torch_sum (map Fin l) = Fin (Qsum l).
Proof.
  induction l as [|x l IH]; simpl; [done|].
  unfold torch_sum in *. simpl. by rewrite IH.
Qed.

Lemma Qeq_bool_count_nonzero (n : nat) :
  Qeq_bool (inject_Z (Z.of_nat (S n))) 0 = false.
Proof.
  apply Qeq_bool_false. intros H.
  assert (0 < inject_Z (Z.of_nat (S n)))%Q; [|lra].
  replace 0%Q with (inject_Z 0) by done. rewrite <- Zlt_Qlt. lia.
Qed.

Lemma torch_mean_Fin (l : list Q) :
  l ≠ [] →
  torch_mean (map Fin l) = Fin (Qsum l / inject_Z (Z.of_nat (length l))).
Proof.
  intros Hne. unfold torch_mean. rewrite torch_sum_Fin, length_map.
  destruct l as [|x l]; [done|]. simpl length.
  unfold tf_div. by rewrite Qeq_bool_count_nonzero.
Qed.

Lemma Qsum_nonneg (l : list Q) : Forall (fun x => (0 <= x)%Q) l → (0 <= Qsum l)%Q.
Proof. induction 1 as [|x l Hx Hl IH]; simpl; lra. Qed.

Lemma Qsum_zero (l : list Q) :
  Forall (fun x => (0 <= x)%Q) l →
  (Qsum l == 0)%Q ↔ Forall (fun x => (x == 0)%Q) l.
Proof.
  induction 1 as [|x l Hx Hl IH]; simpl.
  - split; [constructor|reflexivity].
  - pose proof (Qsum_nonneg l Hl) as Hs. split.
    + intros H. constructor; [lra|]. apply IH. lra.
    + intros H. inversion H as [|? ? H1 H2]; subst. apply IH in H2. lra.
Qed.

Lemma Qdiv_count_nonneg (a : Q) (n : nat) :
  (0 <= a)%Q → (0 <= a / inject_Z (Z.of_nat (S n)))%Q.
Proof.
  intros Ha. apply Qle_shift_div_l.
  - replace 0%Q with (inject_Z 0) by done. rewrite <- Zlt_Qlt. lia.
  - lra.
Qed.

Lemma Qdiv_count_zero (a : Q) (n : nat) :
  (a / inject_Z (Z.of_nat (S n)) == 0)%Q ↔ (a == 0)%Q.
Proof.
  assert (Hn : ¬ (inject_Z (Z.of_nat (S n)) == 0)%Q).
  { apply Qeq_bool_false, Qeq_bool_count_nonzero. }
  split; intros H.
  - rewrite <- (Qmult_div_r a (inject_Z (Z.of_nat (S n)))) by done.
    rewrite H. ring.
  - rewrite H. unfold Qdiv. ring.
Qed.

(** ** Dictionaries and [default_collate] *)

Lemma for_each_fmap {A B C} (f : B → result C) (h : A → B) (l : list A) :
  for_each f (map h l) = for_each (fun x => f (h x)) l.
Proof. induction l as [|x l IH]; simpl; [done|]. by rewrite IH. Qed.

Lemma dict_get_tabulate {K V} `{EqDecision K} (F : K → V) (ks : list K) (k : K) :
  k ∈ ks → dict_get (map (fun k => (k, F k)) ks) k = Ok (F k).
Proof.
  induction ks as [|k' ks IH]; intros Hk; simpl.
  - by apply elem_of_nil in Hk.
  - destruct (decide (k = k')) as [->|Hne]; [done|].
    apply IH. apply elem_of_cons in Hk as [?|?]; done.
Qed.

Lemma dict_keys_tabulate {K V} (F : K → V) (ks : list K) :
  dict_keys (map (fun k => (k, F k)) ks) = ks.
Proof.
  unfold dict_keys. rewrite map_map. simpl. apply map_id.
Qed.

Lemma collate_columns {I K V} `{EqDecision K} (F : I → K → V)
    (rows : list I) (ks : list K) :
  for_each (fun k =>
              vs ← for_each (fun d => dict_get d k)
                            (map (fun i => map (fun k => (k, F i k)) ks) rows);
              Ok (k, vs)) ks
  = Ok (map (fun k => (k, map (fun i => F i k) rows)) ks).
Proof.
  rewrite <- for_each_map. apply for_each_ext. intros k Hk.
  rewrite for_each_fmap.
  erewrite for_each_ext; [|intros i _; by apply dict_get_tabulate].
  by rewrite for_each_map.
Qed.

(** Collating dicts that all tabulate the same keys. *)
Lemma default_collate_tabulate {I K V} `{EqDecision K} (F : I → K → V)
    (rows : list I) (ks : list K) :
  rows ≠ [] →
  default_collate (map (fun i => map (fun k => (k, F i k)) ks) rows)
  = Ok (map (fun k => (k, map (fun i => F i k) rows)) ks).
Proof.
  intros Hne. destruct rows as [|i0 rows]; [done|].
  pose proof (collate_columns F (i0 :: rows) ks) as Hc.
  unfold default_collate. cbn [map] in *. by rewrite dict_keys_tabulate.
Qed.

(** ** Norms, and traversals whose points coincide *)

Lemma norm_l1_nonneg (v : list Q) : (0 <= norm_l1 v)%Q.
Proof.
  induction v as [|x v IH]; simpl; [lra|].
  pose proof (Qabs_nonneg x). lra.
Qed.

Lemma Qabs_zero (x : Q) : (Qabs x == 0)%Q ↔ (x == 0)%Q.
Proof.
  split; intros H.
  - pose proof (Qle_Qabs x). pose proof (Qle_Qabs (- x)).
    rewrite Qabs_opp in *. lra.
  - rewrite H. reflexivity.
Qed.

Lemma norm_l1_zero (v : list Q) :
  (norm_l1 v == 0)%Q ↔ Forall (fun x => (x == 0)%Q) v.
Proof.
  induction v as [|x v IH]; simpl.
  - split; [constructor|reflexivity].
  - pose proof (Qabs_nonneg x). pose proof (norm_l1_nonneg v). split.
    + intros H1. constructor; [apply Qabs_zero; lra|apply IH; lra].
    + intros H1. inversion H1 as [|? ? Hx Hv]; subst.
      apply Qabs_zero in Hx. apply IH in Hv. lra.
Qed.

Lemma vsub_zero (a b : list Q) :
  length a = length b →
  Forall (fun x => (x == 0)%Q) (vsub a b) ↔ Forall2 Qeq a b.
Proof.
  revert b. induction a as [|x a IH]; intros [|y b] Hl; simpl in *; try done.
  assert (Hab : length a = length b) by lia.
  split; intros H; inversion H; subst; constructor; try lra;
    by apply (IH b Hab).
Qed.

Lemma Forall2_Qeq_refl (a : list Q) : Forall2 Qeq a a.
Proof. induction a; constructor; [reflexivity|done]. Qed.

Lemma Forall2_Qeq_sym (a b : list Q) : Forall2 Qeq a b → Forall2 Qeq b a.
Proof. induction 1; constructor; [by symmetry|done]. Qed.

Lemma Forall2_Qeq_trans (a b c : list Q) :
  Forall2 Qeq a b → Forall2 Qeq b c → Forall2 Qeq a c.
Proof.
  intros H. revert c. induction H as [|x y a b Hxy Hab IH]; intros c Hc;
    inversion Hc; subst; constructor; [by etransitivity|by apply IH].
Qed.

Section Norms.

Variable norm_l2 : list Q → Q.
Hypothesis norm_l2_nonneg : ∀ v, (0 <= norm_l2 v)%Q.
Hypothesis norm_l2_zero : ∀ v, (norm_l2 v == 0)%Q ↔ Forall (fun x => (x == 0)%Q) v.

Lemma dist_nonneg (p : pnorm) (a b : list Q) : (0 <= dist norm_l2 p a b)%Q.
Proof. unfold dist. destruct p; simpl; [apply norm_l1_nonneg|apply norm_l2_nonneg]. Qed.

Lemma dist_zero (p : pnorm) (a b : list Q) :
  length a = length b → (dist norm_l2 p a b == 0)%Q ↔ Forall2 Qeq a b.
Proof.
  intros Hl. rewrite <- (vsub_zero a b Hl). unfold dist.
  destruct p; simpl; [apply norm_l1_zero|apply norm_l2_zero].
Qed.

Lemma rows_same_length (zs : list (list Q)) (z : nat) (a b : list Q) :
  Forall (fun r => length r = z) zs → a ∈ zs → b ∈ zs → length a = length b.
Proof.
  rewrite Forall_forall. intros H Ha Hb. by rewrite (H a Ha), (H b Hb).
Qed.

Lemma width_value_spec (zs : list (list Q)) (p : pnorm) (z : nat) :
  (2 ≤ length zs)%nat → Forall (fun r => length r = z) zs →
  traversal_width norm_l2 zs p = Ok (width_value norm_l2 zs p)
  ∧ (0 <= width_value norm_l2 zs p)%Q
  ∧ ((width_value norm_l2 zs p == 0)%Q ↔ flat zs).
Proof.
  intros Hlen Hrect.
  destruct (traversal_width_spec norm_l2 zs p z Hlen Hrect)
    as (w & Hw & (a & b & Ha & Hb & Hab) & Hmax).
  unfold width_value. rewrite Hw. simpl. split; [done|].
  split; [rewrite Hab; apply dist_nonneg|]. split.
  - intros H0 c d Hc Hd.
    apply (dist_zero p); [by eapply rows_same_length|].
    pose proof (Hmax c d Hc Hd). pose proof (dist_nonneg p c d). lra.
  - intros Hflat. rewrite Hab.
    apply dist_zero; [by eapply rows_same_length|]. by apply Hflat.
Qed.

(** *** Rotations of a traversal *)

Lemma zip_with_roll_m1 {A B C} (f : A → B → C) (a : list A) (b : list B) :
  length a = length b →
  zip_with f (roll_m1 a) (roll_m1 b) = roll_m1 (zip_with f a b).
Proof.
  destruct a as [|x a], b as [|y b]; simpl; try done.
  intros Hl. rewrite zip_with_app by lia. done.
Qed.

Lemma raw_deltas_roll_m1 (zs : list (list Q)) (p : pnorm) :
  raw_deltas norm_l2 (roll_m1 zs) p = roll_m1 (raw_deltas norm_l2 zs p).
Proof.
  unfold raw_deltas. apply zip_with_roll_m1. by rewrite length_roll_m1.
Qed.

Lemma iter_roll_m1_app {A} (a b : list A) :
  Nat.iter (length a) roll_m1 (a ++ b) = b ++ a.
Proof.
  revert b. induction a as [|x a IH]; intros b; simpl length.
  - simpl. by rewrite app_nil_r.
  - rewrite Nat.iter_succ_r. simpl roll_m1.
    rewrite <- app_assoc, IH. by rewrite <- app_assoc.
Qed.

Lemma raw_deltas_iter_roll (k : nat) (zs : list (list Q)) (p : pnorm) :
  raw_deltas norm_l2 (Nat.iter k roll_m1 zs) p
  = Nat.iter k roll_m1 (raw_deltas norm_l2 zs p).
Proof.
  induction k as [|k IH]; simpl; [done|]. by rewrite raw_deltas_roll_m1, IH.
Qed.

Lemma roll_m1_perm {A} (l : list A) : roll_m1 l ≡ₚ l.
Proof.
  destruct l as [|x l]; simpl; [done|]. by rewrite Permutation_app_comm.
Qed.

Lemma iter_roll_m1_perm {A} (k : nat) (l : list A) : Nat.iter k roll_m1 l ≡ₚ l.
Proof. induction k as [|k IH]; simpl; [done|]. by rewrite roll_m1_perm. Qed.

(** A chain of points in which every step is null. *)
Lemma null_steps_chain (y0 t : list Q) (ys : list (list Q)) (p : pnorm) (z : nat)
    (lin : list Q) (c : Q) :
  Forall (fun r => length r = z) (y0 :: ys) →
  zip_with (dist norm_l2 p) (y0 :: ys) (ys ++ [t]) = lin ++ [c] →
  Forall (fun x => (x == 0)%Q) lin →
  Forall (Forall2 Qeq y0) ys.
Proof.
  revert y0 lin. induction ys as [|y1 ys IH]; intros y0 lin Hrect Hzip Hlin.
  - constructor.
  - simpl in Hzip.
    destruct lin as [|d lin].
    { simpl in Hzip. inversion Hzip as [[Hd Hrest]].
      destruct ys; simpl in Hrest; discriminate. }
    simpl in Hzip. inversion Hzip as [[Hd Hrest]].
    inversion Hlin as [|? ? Hd0 Hlin']; subst.
    inversion Hrect as [|? ? Hy0 Hrect']; subst.
    assert (H01 : Forall2 Qeq y0 y1).
    { apply (dist_zero p); [|done].
      inversion Hrect' as [|? ? Hy1 _]; subst. lia. }
    constructor; [done|].
    eapply Forall_impl; [apply (IH y1 lin Hrect' Hrest Hlin')|].
    intros r Hr. by eapply Forall2_Qeq_trans.
Qed.

Lemma flat_of_chain (y0 : list Q) (ys : list (list Q)) :
  Forall (Forall2 Qeq y0) ys → flat (y0 :: ys).
Proof.
  intros H a b Ha Hb.
  assert (Hy : ∀ r, r ∈ y0 :: ys → Forall2 Qeq y0 r).
  { intros r Hr. apply elem_of_cons in Hr as [->|Hr]; [apply Forall2_Qeq_refl|].
    rewrite Forall_forall in H. by apply H. }
  eapply Forall2_Qeq_trans; [apply Forall2_Qeq_sym|]; by apply Hy.
Qed.

Lemma flat_perm (zs zs' : list (list Q)) : zs ≡ₚ zs' → flat zs → flat zs'.
Proof. intros Hp H a b Ha Hb. apply H; by rewrite Hp. Qed.

(** If all the cyclic deltas but one are null, the points coincide. *)
Lemma flat_of_null_deltas (zs : list (list Q)) (p : pnorm) (z : nat)
    (kept : list Q) (m : Q) :
  zs ≠ [] → Forall (fun r => length r = z) zs →
  kept ++ [m] ≡ₚ raw_deltas norm_l2 zs p →
  Forall (fun x => (x == 0)%Q) kept →
  flat zs.
Proof.
  intros Hne Hrect Hperm Hkept.
  assert (Hm : m ∈ raw_deltas norm_l2 zs p).
  { rewrite <- Hperm. apply elem_of_app. right. by left. }
  apply list_elem_of_split in Hm as (l1 & l2 & Hraw).
  assert (Hk : kept ≡ₚ l1 ++ l2).
  { apply (Permutation_cons_inv (a := m)).
    rewrite Permutation_middle, <- Hraw, <- Hperm.
    by rewrite Permutation_app_comm. }
  set (k := length (l1 ++ [m])).
  set (zs' := Nat.iter k roll_m1 zs).
  assert (Hraw' : raw_deltas norm_l2 zs' p = (l2 ++ l1) ++ [m]).
  { unfold zs'. rewrite raw_deltas_iter_roll, Hraw.
    replace (l1 ++ m :: l2) with ((l1 ++ [m]) ++ l2) by (by rewrite <- app_assoc).
    unfold k. rewrite iter_roll_m1_app. by rewrite !app_assoc. }
  assert (Hp' : zs' ≡ₚ zs) by apply iter_roll_m1_perm.
  apply (flat_perm zs' zs Hp').
  destruct zs' as [|y0 ys] eqn:Ez.
  { apply Permutation_nil_l in Hp'. congruence. }
  apply flat_of_chain.
  apply (null_steps_chain y0 y0 ys p z (l2 ++ l1) m).
  - by rewrite Hp'.
  - exact Hraw'.
  - rewrite Hk in Hkept. apply Forall_app in Hkept as [H1 H2].
    apply Forall_app. done.
Qed.

Lemma deltas_value_spec (zs : list (list Q)) (p : pnorm) (z : nat) :
  (2 ≤ length zs)%nat → Forall (fun r => length r = z) zs →
  traversal_deltas norm_l2 zs (Z.of_nat (length zs)) p = Ok (deltas_value norm_l2 zs p)
  ∧ length (deltas_value norm_l2 zs p) = (length zs - 1)%nat
  ∧ Forall (fun x => (0 <= x)%Q) (deltas_value norm_l2 zs p)
  ∧ (Forall (fun x => (x == 0)%Q) (deltas_value norm_l2 zs p) ↔ flat zs).
Proof.
  intros Hlen Hrect.
  destruct (traversal_deltas_spec norm_l2 zs p (length zs) eq_refl Hlen)
    as (Hrl & Hraw & kept & m & Hk & Hkl & Hperm & Hmax & _).
  unfold deltas_value. rewrite Hk. simpl. split; [done|]. split; [done|].
  assert (Hin : ∀ x, x ∈ raw_deltas norm_l2 zs p →
                     ∃ a b, a ∈ zs ∧ b ∈ zs ∧ x = dist norm_l2 p a b).
  { intros x Hx. unfold raw_deltas in Hx.
    apply list_elem_of_lookup in Hx as (i & Hi).
    apply lookup_zip_with_Some in Hi as (a & b & -> & Ha & Hb).
    exists a, b. split; [by eapply list_elem_of_lookup_2|]. split; [|done].
    rewrite <- (roll_m1_perm zs). by eapply list_elem_of_lookup_2. }
  assert (Hsub : ∀ x, x ∈ kept → x ∈ raw_deltas norm_l2 zs p).
  { intros x Hx. rewrite <- Hperm. apply elem_of_app. by left. }
  split; [|split].
  - apply Forall_forall. intros x Hx.
    destruct (Hin x (Hsub x Hx)) as (a & b & _ & _ & ->).
    apply dist_nonneg.
  - intros H0. apply (flat_of_null_deltas zs p z kept m); try done.
    destruct zs; [simpl in Hlen; lia|done].
  - intros Hflat. apply Forall_forall. intros x Hx.
    destruct (Hin x (Hsub x Hx)) as (a & b & Ha & Hb & ->).
    apply dist_zero; [by eapply rows_same_length|]. by apply Hflat.
Qed.

End Norms.

(** ** The pipeline on well-formed inputs *)

Lemma Forall2_tabulated {A B C} (T : C → Prop) (h : C → B) (l : list A) (ys : list B) :
  Forall2 (fun _ y => ∃ c, T c ∧ y = h c) l ys →
  ∃ cs, ys = map h cs ∧ Forall T cs ∧ length cs = length l.
Proof.
  induction 1 as [|x y l ys (c & Hc & ->) _ (cs & -> & Hcs & Hlen)].
  - by exists [].
  - exists (c :: cs). split; [done|]. split; [by constructor|]. simpl. lia.
Qed.

Lemma Forall2_tabulated_indexed {A B C} (R : A → C → Prop) (h : C → B)
    (l : list A) (ys : list B) :
  Forall2 (fun x y => ∃ c, R x c ∧ y = h c) l ys →
  ∃ cs, ys = map h cs ∧ Forall2 R l cs.
Proof.
  induction 1 as [|x y l ys (c & Hc & ->) _ (cs & -> & Hcs)].
  - by exists [].
  - exists (c :: cs). split; [done|]. by constructor.
Qed.

Section Pipeline.

Context {G X : Type}.
Variable norm_l2 : list Q → Q.
Hypothesis norm_l2_nonneg : ∀ v, (0 <= norm_l2 v)%Q.
Hypothesis norm_l2_zero : ∀ v, (norm_l2 v == 0)%Q ↔ Forall (fun x => (x == 0)%Q) v.
Variable ground_truth_dataset : @GroundTruthDataset G X.
Variable representation_function : list X → list (list Q).

Lemma for_each_M_Forall2 {A B} (R : A → B → Prop) (f : A → @M G B) (l : list A) :
  (∀ x, x ∈ l → ∀ g, ∃ y g', f x g = Ok (y, g') ∧ R x y) →
  ∀ g, ∃ ys g', for_each_M f l g = Ok (ys, g') ∧ Forall2 R l ys.
Proof.
  induction l as [|x l IH]; intros H g; simpl.
  - exists [], g. split; [done|constructor].
  - destruct (H x (list_elem_of_here _ _) g) as (y & g1 & Hy & HR).
    destruct (IH (fun z Hz => H z (list_elem_of_further _ _ _ Hz)) g1)
      as (ys & g2 & Hys & HRs).
    exists (y :: ys), g2. unfold bind. rewrite Hy, Hys.
    split; [done|by constructor].
Qed.

(** One repeat on a well-shaped traversal. *)
Lemma measure_repeat_value (f_idx f_size batch_size : Z) (ps : list pnorm)
    (g g' : G) (zs : list (list Q)) (z : nat) :
  encode_all_along_factor ground_truth_dataset representation_function
    f_idx batch_size g = Ok (zs, g') →
  wellshaped f_size z zs →
  measure_repeat norm_l2 ground_truth_dataset representation_function
    f_idx f_size batch_size ps g
  = Ok (map (fun p => (p, (width_value norm_l2 zs p, deltas_value norm_l2 zs p))) ps, g').
Proof.
  intros Henc (Hlen & Hs & Hrect). unfold measure_repeat, bind.
  rewrite Henc. unfold lift.
  assert (H2 : (2 ≤ length zs)%nat) by lia.
  erewrite for_each_ext.
  - by rewrite for_each_map.
  - intros p _. simpl.
    destruct (width_value_spec norm_l2 norm_l2_nonneg norm_l2_zero zs p z H2 Hrect)
      as (-> & _).
    destruct (deltas_value_spec norm_l2 norm_l2_nonneg norm_l2_zero zs p z H2 Hrect)
      as (Hd & _).
    rewrite <- Hlen, Hd. done.
Qed.

(** The aggregator on a factor with several values, given what its
    traversals are ([T]). *)
Lemma aggregate_factor_form (T : list (list Q) → Prop) (f_idx f_size repeats batch_size : Z)
    (ps : list pnorm) (z : nat) :
  py_index (factor_sizes ground_truth_dataset) f_idx = Ok f_size →
  f_size ≠ 1 → 1 ≤ repeats →
  (∀ g, ∃ zs g',
      encode_all_along_factor ground_truth_dataset representation_function
        f_idx batch_size g = Ok (zs, g') ∧ T zs) →
  (∀ zs, T zs → wellshaped f_size z zs) →
  ∀ g, ∃ zss g',
    aggregate_measure_distances_along_factor norm_l2 ground_truth_dataset
      representation_function f_idx repeats batch_size ps false g
    = Ok (map (fun p => (p, factor_measure norm_l2 zss p)) ps, g')
    ∧ Forall T zss ∧ length zss = Z.to_nat repeats.
Proof.
  intros Hidx Hne Hrep Henc Hshape g.
  unfold aggregate_measure_distances_along_factor.
  unfold bind at 1. unfold lift at 1. rewrite Hidx.
  replace (f_size =? 1) with false by (symmetry; by apply Z.eqb_neq).
  set (h := fun zs : list (list Q) =>
              map (fun p => (p, (width_value norm_l2 zs p, deltas_value norm_l2 zs p))) ps).
  destruct (for_each_M_Forall2
              (fun (_ : nat) d => ∃ zs, T zs ∧ d = h zs)
              (fun _ => measure_repeat norm_l2 ground_truth_dataset
                          representation_function f_idx f_size batch_size ps)
              (seq 0 (Z.to_nat repeats))) with (g := g)
    as (ys & g' & Hys & HR).
  { intros _ _ g0. destruct (Henc g0) as (zs & g1 & Hz & HT).
    exists (h zs), g1. split; [|by exists zs].
    by apply (measure_repeat_value _ _ _ _ _ _ _ z), Hshape. }
  apply Forall2_tabulated in HR as (zss & -> & HT & Hlen).
  rewrite length_seq in Hlen.
  exists zss, g'. split; [|done].
  unfold bind. rewrite Hys. unfold lift, h.
  rewrite (default_collate_tabulate
             (fun zs p => (width_value norm_l2 zs p, deltas_value norm_l2 zs p)))
    by (destruct zss; [simpl in Hlen; lia|done]).
  unfold ret. do 2 f_equal. rewrite map_map. apply map_ext. intros p.
  unfold factor_measure. by rewrite !map_map.
Qed.

(** What the measure of a factor says of its traversals. *)
Lemma factor_measure_spec (zss : list (list (list Q))) (s : Z) (z : nat) (p : pnorm) :
  zss ≠ [] → Forall (wellshaped s z) zss →
  ∃ a b, factor_measure norm_l2 zss p = {| ave_width := Fin a; ave_delta := Fin b |}
         ∧ (0 <= a)%Q ∧ (0 <= b)%Q
         ∧ ((a == 0)%Q ↔ Forall flat zss)
         ∧ ((b == 0)%Q ↔ Forall flat zss).
Proof.
  intros Hne Hws.
  assert (Hw : ∀ zs, zs ∈ zss →
             (0 <= width_value norm_l2 zs p)%Q
             ∧ ((width_value norm_l2 zs p == 0)%Q ↔ flat zs)).
  { intros zs Hzs. rewrite Forall_forall in Hws.
    destruct (Hws zs Hzs) as (Hl & Hs & Hr).
    eapply width_value_spec; try done. lia. }
  assert (Hd : ∀ zs, zs ∈ zss →
             length (deltas_value norm_l2 zs p) = (length zs - 1)%nat
             ∧ (2 ≤ length zs)%nat
             ∧ Forall (fun x => (0 <= x)%Q) (deltas_value norm_l2 zs p)
             ∧ (Forall (fun x => (x == 0)%Q) (deltas_value norm_l2 zs p) ↔ flat zs)).
  { intros zs Hzs. rewrite Forall_forall in Hws.
    destruct (Hws zs Hzs) as (Hl & Hs & Hr).
    assert (H2 : (2 ≤ length zs)%nat) by lia.
    destruct (deltas_value_spec norm_l2 norm_l2_nonneg norm_l2_zero zs p z H2 Hr)
      as (_ & ? & ? & ?). done. }
  set (ws := map (fun zs => width_value norm_l2 zs p) zss).
  set (ds := concat (map (fun zs => deltas_value norm_l2 zs p) zss)).
  assert (Hws_ne : ws ≠ []) by (unfold ws; by destruct zss).
  assert (Hds_ne : ds ≠ []).
  { unfold ds. destruct zss as [|zs zss']; [done|]. simpl.
    destruct (Hd zs (list_elem_of_here _ _)) as (Hl & H2 & _).
    destruct (deltas_value norm_l2 zs p); [simpl in Hl; lia|done]. }
  assert (Hws_nn : Forall (fun x => (0 <= x)%Q) ws).
  { unfold ws. apply Forall_forall. intros x Hx.
    apply list_elem_of_fmap in Hx as (zs & -> & Hzs). by apply Hw. }
  assert (Hds_nn : Forall (fun x => (0 <= x)%Q) ds).
  { unfold ds. apply Forall_forall. intros x Hx.
    apply elem_of_concat in Hx as (l & Hx & Hl).
    apply list_elem_of_fmap in Hl as (zs & -> & Hzs).
    destruct (Hd zs Hzs) as (_ & _ & Hnn & _).
    rewrite Forall_forall in Hnn. by apply Hnn. }
  exists (Qsum ws / inject_Z (Z.of_nat (length ws)))%Q,
         (Qsum ds / inject_Z (Z.of_nat (length ds)))%Q.
  split.
  { unfold factor_measure. f_equal.
    - rewrite <- (torch_mean_Fin ws Hws_ne). unfold ws. by rewrite map_map.
    - by rewrite <- (torch_mean_Fin ds Hds_ne). }
  destruct ws as [|w0 ws'] eqn:Ews; [done|].
  destruct ds as [|d0 ds'] eqn:Eds; [done|].
  simpl length.
  split; [apply Qdiv_count_nonneg, Qsum_nonneg; done|].
  split; [apply Qdiv_count_nonneg, Qsum_nonneg; done|].
  rewrite !Qdiv_count_zero, !Qsum_zero by done.
  rewrite <- Ews, <- Eds. split.
  - unfold ws. rewrite !Forall_forall. split.
    + intros H zs Hzs. apply Hw; [done|]. apply H.
      apply list_elem_of_fmap. by exists zs.
    + intros H x Hx. apply list_elem_of_fmap in Hx as (zs & -> & Hzs).
      apply Hw; [done|]. by apply H.
  - unfold ds. rewrite !Forall_forall. split.
    + intros H zs Hzs. apply Hd; [done|]. apply Forall_forall. intros x Hx.
      apply H. apply elem_of_concat. eexists. split; [exact Hx|].
      apply list_elem_of_fmap. by exists zs.
    + intros H x Hx. apply elem_of_concat in Hx as (l & Hx & Hl).
      apply list_elem_of_fmap in Hl as (zs & -> & Hzs).
      destruct (Hd zs Hzs) as (_ & _ & _ & Hf).
      apply Hf in H; [|done]. rewrite Forall_forall in H. by apply H.
Qed.

End Pipeline.

(** ** The measures over the factors *)

Lemma Qeq_bool_of_iff (a b : Q) :
  ((a == 0)%Q ↔ (b == 0)%Q) → Qeq_bool a 0 = Qeq_bool b 0.
Proof.
  intros H. destruct (Qeq_bool a 0) eqn:Ea, (Qeq_bool b 0) eqn:Eb; try done.
  - apply Qeq_bool_true in Ea. apply Qeq_bool_false in Eb. tauto.
  - apply Qeq_bool_false in Ea. apply Qeq_bool_true in Eb. tauto.
Qed.

Lemma Qmult_size_zero (s : Z) (b : Q) :
  1 ≤ s → ((inject_Z (s - 1) * b == 0)%Q ↔ s = 1 ∨ (b == 0)%Q).
Proof.
  intros Hs. split.
  - intros H. destruct (decide (s = 1)) as [|Hne]; [by left|right].
    apply Qmult_integral in H as [H|H]; [|done].
    exfalso. assert (0 < inject_Z (s - 1))%Q; [|lra].
    replace 0%Q with (inject_Z 0) by done. rewrite <- Zlt_Qlt. lia.
  - intros [->|H]; [change (inject_Z (1 - 1)) with 0%Q; ring|]. rewrite H. ring.
Qed.

Lemma collect_measures_ok (sizes : list Z) (ms : list (pnorm → measure)) (p : pnorm) :
  Forall (fun s => 1 ≤ s) sizes → Forall2 factor_ok sizes ms →
  measures_ok sizes (collect_measures sizes ms p).
Proof.
  intros Hs Hok. pose proof (Forall2_length _ _ _ Hok) as Hlen.
  split; simpl.
  - by rewrite length_map.
  - rewrite length_zip_with, length_map. lia.
  - clear Hs Hlen. induction Hok as [|s m sizes ms (Zf & _ & Hm) _ IH]; simpl;
      constructor; [|done].
    destruct (Hm p) as (a & b & -> & Ha & _). simpl. by apply Qle_bool_true.
  - clear Hlen. induction Hok as [|s m sizes ms (Zf & _ & Hm) _ IH]; simpl;
      [constructor|].
    inversion Hs as [|? ? Hs1 Hs']; subst.
    constructor; [|by apply IH].
    destruct (Hm p) as (a & b & -> & _ & Hb & _). simpl. apply Qle_bool_true.
    apply Qmult_le_0_compat; [|done].
    replace 0%Q with (inject_Z 0) by done. rewrite <- Zle_Qle. lia.
Qed.

Lemma collect_zero_pattern (sizes : list Z) (ms : list (pnorm → measure)) (p q : pnorm) :
  Forall (fun s => 1 ≤ s) sizes → Forall2 factor_ok sizes ms →
  zero_pattern (fs_ave_widths (collect_measures sizes ms p))
               (fs_ave_lengths (collect_measures sizes ms q)).
Proof.
  intros Hs Hok. unfold zero_pattern. simpl.
  induction Hok as [|s m sizes ms (Zf & H1 & Hm) _ IH]; simpl; [constructor|].
  inversion Hs as [|? ? Hs1 Hs']; subst.
  constructor; [|by apply IH].
  destruct (Hm p) as (a & b & -> & _ & _ & Ha & _).
  destruct (Hm q) as (a' & b' & -> & _ & _ & _ & Hb'). simpl.
  apply Qeq_bool_of_iff. rewrite Qmult_size_zero by done. tauto.
Qed.

Lemma collect_measures_finite (sizes : list Z) (ms : list (pnorm → measure)) (p : pnorm) :
  Forall2 factor_ok sizes ms →
  Forall (fun x => is_finite x = true) (fs_ave_widths (collect_measures sizes ms p))
  ∧ Forall (fun x => is_finite x = true) (fs_ave_lengths (collect_measures sizes ms p)).
Proof.
  intros Hok. simpl.
  induction Hok as [|s m sizes ms (Zf & _ & Hm) _ [IH1 IH2]]; simpl;
    [split; constructor|].
  destruct (Hm p) as (a & b & -> & _). simpl. split; by constructor.
Qed.

Lemma finite_tensor (t : list tfloat) :
  Forall (fun x => is_finite x = true) t → ∃ qs, t = map Fin qs.
Proof.
  induction 1 as [|x t Hx _ (qs & ->)]; [by exists []|].
  destruct x as [q| | |]; try done. by exists (q :: qs).
Qed.

Lemma torch_mean_finite (t : list tfloat) :
  t ≠ [] → Forall (fun x => is_finite x = true) t → is_finite (torch_mean t) = true.
Proof.
  intros Hne Hf. destruct (finite_tensor t Hf) as (qs & ->).
  rewrite torch_mean_Fin; [done|]. by destruct qs.
Qed.

Lemma factor_flatness_finite (w l : tfloat) :
  is_finite w = true → is_finite l = true → is_finite (factor_flatness w l) = true.
Proof.
  destruct w as [a| | |], l as [b| | |]; try done. intros _ _.
  unfold factor_flatness. simpl. unfold Qlt_bool.
  destruct (Qle_bool b 0) eqn:E; simpl; [done|].
  apply Qle_bool_false in E.
  replace (Qeq_bool b 0) with false; [done|].
  symmetry. apply Qeq_bool_false. lra.
Qed.

Lemma active_entries_nonempty {A} (t : list A) (sizes : list Z) :
  length t = length sizes → (∃ s, s ∈ sizes ∧ s ≠ 1) → active_entries t sizes ≠ [].
Proof.
  revert t. induction sizes as [|s sizes IH]; intros [|x t] Hl (s' & Hin & Hne);
    simpl in *; try done.
  - by apply elem_of_nil in Hin.
  - destruct (s =? 1) eqn:E; [|done].
    apply Z.eqb_eq in E. subst.
    apply IH; [lia|]. exists s'.
    apply elem_of_cons in Hin as [->|Hin]; done.
Qed.

Lemma mean_factor_flatness_finite (w l : list tfloat) (sizes : list Z) :
  length w = length sizes → length l = length sizes →
  (∃ s, s ∈ sizes ∧ s ≠ 1) →
  Forall (fun x => is_finite x = true) w →
  Forall (fun x => is_finite x = true) l →
  is_finite (mean_factor_flatness w l sizes) = true.
Proof.
  intros Hw Hl Hact Hfw Hfl. unfold mean_factor_flatness.
  pose proof (active_entries_nonempty w sizes Hw Hact) as Hne.
  pose proof (active_entries_length w l sizes Hw Hl) as Hlen.
  apply (active_entries_Forall _ _ sizes) in Hfw, Hfl.
  apply torch_mean_finite.
  - destruct (active_entries w sizes), (active_entries l sizes); done.
  - clear Hne. revert Hfl Hlen. generalize (active_entries l sizes).
    induction Hfw as [|x t Hx Ht IH]; intros [|y u] Hfu Hlen; simpl; try constructor.
    + inversion Hfu; subst. by apply factor_flatness_finite.
    + inversion Hfu; subst. apply IH; [done|]. simpl in Hlen. lia.
Qed.

(** The seven scores on the measures of well-behaved factors: they are the
    specified means, and they are finite when some factor is active. *)
Lemma scores_of_collected (sizes : list Z) (ms : list (pnorm → measure)) :
  Forall (fun s => 1 ≤ s) sizes → Forall2 factor_ok sizes ms →
  let m1 := collect_measures sizes ms L1 in
  let m2 := collect_measures sizes ms L2 in
  ∃ r, metric_flatness_results
         (map (fun p => (p, collect_measures sizes ms p)) [L1; L2]) sizes = Ok r
       ∧ r = [ ("flatness.ave_flatness",
                mean_factor_flatness (fs_ave_widths m2) (fs_ave_lengths m1) sizes);
               ("flatness.ave_flatness_l1",
                mean_factor_flatness (fs_ave_widths m1) (fs_ave_lengths m1) sizes);
               ("flatness.ave_flatness_l2",
                mean_factor_flatness (fs_ave_widths m2) (fs_ave_lengths m2) sizes);
               ("flatness.ave_width_l1", torch_mean (active_entries (fs_ave_widths m1) sizes));
               ("flatness.ave_width_l2", torch_mean (active_entries (fs_ave_widths m2) sizes));
               ("flatness.ave_length_l1", torch_mean (active_entries (fs_ave_lengths m1) sizes));
               ("flatness.ave_length_l2", torch_mean (active_entries (fs_ave_lengths m2) sizes)) ]
       ∧ ((∃ s, s ∈ sizes ∧ s ≠ 1) → Forall (fun kv => is_finite kv.2 = true) r).
Proof.
  intros Hs Hok m1 m2.
  pose proof (collect_measures_ok sizes ms L1 Hs Hok) as Hm1.
  pose proof (collect_measures_ok sizes ms L2 Hs Hok) as Hm2.
  eexists. split.
  - apply (metric_flatness_results_scores _ m1 m2); try done;
      by apply collect_zero_pattern.
  - split; [done|]. intros Hact.
    destruct Hm1 as [Hw1 Hl1 _ _], Hm2 as [Hw2 Hl2 _ _].
    destruct (collect_measures_finite sizes ms L1 Hok) as [Fw1 Fl1].
    destruct (collect_measures_finite sizes ms L2 Hok) as [Fw2 Fl2].
    repeat constructor; simpl;
      try (by apply mean_factor_flatness_finite);
      (apply torch_mean_finite;
       [by apply active_entries_nonempty|by apply active_entries_Forall]).
Qed.

(** ** Traversals of a well-formed dataset *)

Lemma py_index_nat {A} (l : list A) (i : nat) (x : A) :
  l !! i = Some x → py_index l (Z.of_nat i) = Ok x.
Proof.
  intros H. pose proof (lookup_lt_Some _ _ _ H) as Hlt. unfold py_index.
  replace (Z.of_nat i <? 0) with false by (symmetry; apply Z.ltb_ge; lia).
  replace ((0 <=? Z.of_nat i) && (Z.of_nat i <? Z.of_nat (length l))) with true.
  - by rewrite Nat2Z.id, H.
  - symmetry. apply andb_true_iff. split; [apply Z.leb_le|apply Z.ltb_lt]; lia.
Qed.

Lemma py_set_in_range {A} (l : list A) (i : Z) (v : A) :
  0 ≤ i < Z.of_nat (length l) → py_set l i v = Ok (<[Z.to_nat i := v]> l).
Proof.
  intros H. unfold py_set.
  replace (i <? 0) with false by (symmetry; apply Z.ltb_ge; lia).
  replace ((0 <=? i) && (i <? Z.of_nat (length l))) with true; [done|].
  symmetry. apply andb_true_iff. split; [apply Z.leb_le|apply Z.ltb_lt]; lia.
Qed.

Lemma length_arange (num : Z) : length (arange num) = Z.to_nat num.
Proof. unfold arange. by rewrite length_map, length_seq. Qed.

Lemma set_column_replicate (row : list Z) (idx : Z) (vals : list Z) :
  0 ≤ idx < Z.of_nat (length row) →
  set_column (replicate (length vals) row) idx vals
  = Ok (map (fun v => <[Z.to_nat idx := v]> row) vals).
Proof.
  intros Hidx. unfold set_column. rewrite length_replicate, Nat.eqb_refl.
  induction vals as [|v vals IH]; simpl; [done|].
  rewrite py_set_in_range by done. simpl. by rewrite IH.
Qed.

Section WellFormed.

Context {G X : Type}.
Variable norm_l2 : list Q → Q.
Hypothesis norm_l2_nonneg : ∀ v, (0 <= norm_l2 v)%Q.
Hypothesis norm_l2_zero : ∀ v, (norm_l2 v == 0)%Q ↔ Forall (fun x => (x == 0)%Q) v.
Variable ground_truth_dataset : @GroundTruthDataset G X.
Variable representation_function : list X → list (list Q).

(** The traversal rows of a factor: the sampled row with the column of the
    factor running over its values. *)
Lemma range_along_repeated_factors_value (idx num : Z) (g g' : G) (row : list Z) :
  sample_factors ground_truth_dataset 1 g = ([row], g') →
  0 ≤ idx < Z.of_nat (length row) → 0 ≤ num →
  range_along_repeated_factors ground_truth_dataset idx num g
  = Ok (map (fun v => <[Z.to_nat idx := v]> row) (arange num), g').
Proof.
  intros Hs Hidx Hnum. unfold range_along_repeated_factors, bind, sample, lift.
  rewrite Hs. unfold np_repeat.
  replace (num <? 0) with false by (symmetry; apply Z.ltb_ge; lia).
  simpl flat_map. rewrite app_nil_r, <- (length_arange num).
  by rewrite set_column_replicate.
Qed.

(** The dataset is well formed: one size, at least 1, per factor, and
    sampled rows have one column per factor. *)
Hypothesis sizes_per_factor :
  num_factors ground_truth_dataset = length (factor_sizes ground_truth_dataset).
Hypothesis sizes_positive : Forall (fun s => 1 ≤ s) (factor_sizes ground_truth_dataset).
Hypothesis sample_one_row :
  ∀ g, ∃ row, (sample_factors ground_truth_dataset 1 g).1 = [row]
              ∧ length row = num_factors ground_truth_dataset.

(** The encoder returns one latent row of [z] coordinates per input row. *)
Variable z : nat.
Hypothesis encoder_shape :
  ∀ rows, length (representation_function
                    (dataset_batch_from_factors ground_truth_dataset rows))
          = length rows
          ∧ Forall (fun r => length r = z)
                   (representation_function
                      (dataset_batch_from_factors ground_truth_dataset rows)).

Variables factor_repeats batch_size : Z.
Hypothesis repeats_positive : 1 ≤ factor_repeats.
Hypothesis batch_size_positive : 1 ≤ batch_size.

Lemma encode_all_factors_shape (factors : list (list Z)) :
  factors ≠ [] →
  ∃ zs, encode_all_factors ground_truth_dataset representation_function
          factors batch_size = Ok zs
        ∧ length zs = length factors
        ∧ Forall (fun r => length r = z) zs.
Proof.
  intros Hne. unfold encode_all_factors.
  destruct (chunked_positive factors batch_size) as (chunks & -> & Hcat & _); [lia|].
  simpl. destruct chunks as [|c chunks]; [simpl in Hcat; congruence|].
  eexists. split; [reflexivity|]. rewrite <- Hcat. clear Hcat Hne.
  generalize (c :: chunks). intros cs.
  induction cs as [|c' cs [IH1 IH2]]; simpl; [split; [done|constructor]|].
  destruct (encoder_shape c') as [H1 H2].
  rewrite !length_app, H1, IH1. split; [done|]. by apply Forall_app.
Qed.

(** Every traversal of a factor with several values is well shaped. *)
Lemma encode_all_along_factor_shape (f : nat) (s : Z) (g : G) :
  factor_sizes ground_truth_dataset !! f = Some s → s ≠ 1 →
  ∃ zs g', encode_all_along_factor ground_truth_dataset representation_function
             (Z.of_nat f) batch_size g = Ok (zs, g')
           ∧ wellshaped s z zs.
Proof.
  intros Hf Hne.
  assert (Hs : 2 ≤ s).
  { rewrite Forall_forall in sizes_positive.
    pose proof (sizes_positive s (list_elem_of_lookup_2 _ _ _ Hf)). lia. }
  destruct (sample_one_row g) as (row & Hrow & Hlen).
  destruct (sample_factors ground_truth_dataset 1 g) as [rows g'] eqn:Es.
  simpl in Hrow. subst rows.
  unfold encode_all_along_factor, bind. unfold lift at 1.
  rewrite (py_index_nat _ _ _ Hf).
  rewrite (range_along_repeated_factors_value _ _ g g' row Es).
  - set (factors := map _ (arange s)).
    destruct (encode_all_factors_shape factors) as (zs & Hz & Hzl & Hzr).
    { unfold factors, arange. destruct (Z.to_nat s) eqn:E; [lia|done]. }
    exists zs, g'. unfold lift. rewrite Hz. split; [done|].
    split; [|done]. rewrite Hzl. unfold factors.
    rewrite length_map, length_arange. lia.
  - pose proof (lookup_lt_Some _ _ _ Hf). lia.
  - lia.
Qed.

Lemma zero_measure_ok : factor_ok 1 zero_measure.
Proof.
  exists True. split; [done|]. intros p. exists 0%Q, 0%Q.
  split; [done|]. repeat split; try lra; done.
Qed.

(** The aggregator on any factor of the dataset. *)
Lemma aggregate_factor_ok (f : nat) (s : Z) (g : G) :
  factor_sizes ground_truth_dataset !! f = Some s →
  ∃ m g', aggregate_measure_distances_along_factor norm_l2 ground_truth_dataset
            representation_function (Z.of_nat f) factor_repeats batch_size
            [L1; L2] false g
          = Ok (map (fun p => (p, m p)) [L1; L2], g')
          ∧ factor_ok s m.
Proof.
  intros Hf. destruct (decide (s = 1)) as [->|Hne].
  - eexists zero_measure, _. split; [|apply zero_measure_ok].
    apply aggregate_factor_degenerate. by apply py_index_nat.
  - destruct (aggregate_factor_form norm_l2 norm_l2_nonneg norm_l2_zero
                ground_truth_dataset representation_function
                (wellshaped s z) (Z.of_nat f) s factor_repeats batch_size [L1; L2] z)
      with (g := g) as (zss & g' & Hagg & Hws & Hlen); try done.
    { by apply py_index_nat. }
    { intros g0. by apply encode_all_along_factor_shape. }
    exists (factor_measure norm_l2 zss), g'. split; [done|].
    exists (Forall flat zss). split; [done|]. intros p.
    destruct (factor_measure_spec norm_l2 norm_l2_nonneg norm_l2_zero zss s z p)
      as (a & b & Hm & ?); [destruct zss; [simpl in Hlen; lia|done]|done|].
    by exists a, b.
Qed.

End WellFormed.

(** ** The metric from the measures of its factors *)

Lemma Forall2_seq_lookup {A B} (P : A → B → Prop) (Q' : nat → B → Prop)
    (l : list A) (ms : list B) :
  Forall2 (fun f m => Q' f m ∧ ∀ x, l !! f = Some x → P x m) (seq 0 (length l)) ms →
  Forall2 P l ms ∧ Forall2 Q' (seq 0 (length l)) ms.
Proof.
  intros H. split.
  - apply Forall2_same_length_lookup_2.
    + apply Forall2_length in H. by rewrite length_seq in H.
    + intros i x m Hx Hm.
      assert (Hi : seq 0 (length l) !! i = Some i).
      { apply lookup_seq. split; [done|]. by apply lookup_lt_Some in Hx. }
      destruct (Forall2_lookup_lr _ _ _ _ _ _ H Hi Hm) as [_ HP]. by apply HP.
  - eapply Forall2_impl; [exact H|]. by intros ? ? [? _].
Qed.

Section Assembly.

Context {G X : Type}.
Variable norm_l2 : list Q → Q.
Variable ground_truth_dataset : @GroundTruthDataset G X.
Variable representation_function : list X → list (list Q).
Variables factor_repeats batch_size : Z.

Hypothesis sizes_per_factor :
  num_factors ground_truth_dataset = length (factor_sizes ground_truth_dataset).
Hypothesis sizes_positive : Forall (fun s => 1 ≤ s) (factor_sizes ground_truth_dataset).
Hypothesis some_factor : (1 ≤ num_factors ground_truth_dataset)%nat.

(** What is known of the measure of each factor. *)
Variable R : nat → (pnorm → measure) → Prop.
Hypothesis factors_ok :
  ∀ f s g, factor_sizes ground_truth_dataset !! f = Some s →
    ∃ m g', aggregate_measure_distances_along_factor norm_l2 ground_truth_dataset
              representation_function (Z.of_nat f) factor_repeats batch_size
              [L1; L2] false g
            = Ok (map (fun p => (p, m p)) [L1; L2], g')
            ∧ factor_ok s m ∧ R f m.

Lemma aggregate_all_factors_form (g : G) :
  ∃ ms g',
    aggregate_measure_distances_along_all_factors norm_l2 ground_truth_dataset
      representation_function factor_repeats batch_size [L1; L2] g
    = Ok (map (fun p => (p, collect_measures (factor_sizes ground_truth_dataset) ms p))
              [L1; L2], g')
    ∧ Forall2 factor_ok (factor_sizes ground_truth_dataset) ms
    ∧ Forall2 R (seq 0 (num_factors ground_truth_dataset)) ms.
Proof.
  unfold aggregate_measure_distances_along_all_factors.
  set (sizes := factor_sizes ground_truth_dataset) in *.
  set (h := fun m : pnorm → measure => map (fun p => (p, m p)) [L1; L2]).
  destruct (for_each_M_Forall2
              (fun f d => ∃ m, (R f m ∧ ∀ s, sizes !! f = Some s → factor_ok s m)
                               ∧ d = h m)
              (fun f_idx => aggregate_measure_distances_along_factor norm_l2
                              ground_truth_dataset representation_function
                              (Z.of_nat f_idx) factor_repeats batch_size [L1; L2] false)
              (seq 0 (num_factors ground_truth_dataset))) with (g := g)
    as (ys & g' & Hys & HR).
  { intros f Hf g0. apply elem_of_seq in Hf as [_ Hf]. simpl in Hf.
    rewrite sizes_per_factor in Hf.
    destruct (lookup_lt_is_Some_2 sizes f Hf) as (s & Hs).
    destruct (factors_ok f s g0 Hs) as (m & g1 & Hm & Hok & HRm).
    exists (h m), g1. split; [done|]. exists m. split; [|done].
    split; [done|]. intros s' Hs'. by replace s' with s by congruence. }
  apply Forall2_tabulated_indexed in HR as (ms & -> & HR).
  rewrite sizes_per_factor in HR.
  apply Forall2_seq_lookup in HR as [Hok HR'].
  rewrite <- sizes_per_factor in HR'.
  exists ms, g'. split; [|done].
  unfold bind. rewrite Hys. unfold lift, h.
  pose proof (Forall2_length _ _ _ Hok) as Hlen.
  rewrite (default_collate_tabulate (fun (m : pnorm → measure) p => m p))
    by (destruct ms; [simpl in Hlen; unfold sizes in *; lia|done]).
  rewrite for_each_fmap.
  erewrite for_each_ext; [by rewrite for_each_map|].
  intros p _. simpl.
  rewrite tensor_binop_same_length by (by rewrite !length_map).
  simpl. unfold collect_measures. rewrite !map_map.
  do 3 f_equal. by rewrite zip_with_fmap_l.
Qed.

(** The outcome of the metric: the specified scores of the collected
    measures, all finite as soon as one factor is active. *)
Lemma metric_flatness_form (g : G) :
  ∃ ms g' r,
    metric_flatness norm_l2 ground_truth_dataset representation_function
      factor_repeats batch_size g = Ok (r, g')
    ∧ Forall2 factor_ok (factor_sizes ground_truth_dataset) ms
    ∧ Forall2 R (seq 0 (num_factors ground_truth_dataset)) ms
    ∧ metric_flatness_results
        (map (fun p => (p, collect_measures (factor_sizes ground_truth_dataset) ms p))
             [L1; L2])
        (factor_sizes ground_truth_dataset) = Ok r
    ∧ dict_keys r = [ "flatness.ave_flatness"; "flatness.ave_flatness_l1";
                      "flatness.ave_flatness_l2"; "flatness.ave_width_l1";
                      "flatness.ave_width_l2"; "flatness.ave_length_l1";
                      "flatness.ave_length_l2" ]
    ∧ ((∃ s, s ∈ factor_sizes ground_truth_dataset ∧ s ≠ 1) →
       Forall (fun kv => is_finite kv.2 = true) r).
Proof.
  destruct (aggregate_all_factors_form g) as (ms & g' & Hagg & Hok & HR).
  destruct (scores_of_collected _ ms sizes_positive Hok) as (r & Hr & Hexp & Hfin).
  exists ms, g', r. unfold metric_flatness, bind. rewrite Hagg. unfold lift.
  rewrite Hr. repeat split; try done. by rewrite Hexp.
Qed.

End Assembly.

(** ** The scores of a well-formed dataset *)

Section Scores.

Context {G X : Type}.
Variable norm_l2 : list Q → Q.
Hypothesis norm_l2_nonneg : ∀ v, (0 <= norm_l2 v)%Q.
Hypothesis norm_l2_zero : ∀ v, (norm_l2 v == 0)%Q ↔ Forall (fun x => (x == 0)%Q) v.
Variable ground_truth_dataset : @GroundTruthDataset G X.
Variable representation_function : list X → list (list Q).

Hypothesis sizes_per_factor :
  num_factors ground_truth_dataset = length (factor_sizes ground_truth_dataset).
Hypothesis sizes_positive : Forall (fun s => 1 ≤ s) (factor_sizes ground_truth_dataset).
Hypothesis sample_one_row :
  ∀ g, ∃ row, (sample_factors ground_truth_dataset 1 g).1 = [row]
              ∧ length row = num_factors ground_truth_dataset.

Variable z : nat.
Hypothesis encoder_shape :
  ∀ rows, length (representation_function
                    (dataset_batch_from_factors ground_truth_dataset rows))
          = length rows
          ∧ Forall (fun r => length r = z)
                   (representation_function
                      (dataset_batch_from_factors ground_truth_dataset rows)).

Variables factor_repeats batch_size : Z.
Hypothesis repeats_positive : 1 ≤ factor_repeats.
Hypothesis batch_size_positive : 1 ≤ batch_size.


End Scores.

(** ** The synthetic scenario *)

Lemma Qsum_const (c : Q) (l : list Q) :
  Forall (fun x => (x == c)%Q) l → (Qsum l == c * inject_Z (Z.of_nat (length l)))%Q.
Proof.
  induction 1 as [|x l Hx Hl IH].
  - simpl. ring.
  - change (Qsum (x :: l)) with (x + Qsum l)%Q. rewrite IH, Hx.
    cbn [length]. rewrite Nat2Z.inj_succ. unfold Z.succ. rewrite inject_Z_plus. ring.
Qed.

(** The mean of a non-empty tensor whose entries all equal [c] is [c]. *)
Lemma torch_mean_const (c : Q) (l : list Q) :
  l ≠ [] → Forall (fun x => (x == c)%Q) l →
  ∃ q, torch_mean (map Fin l) = Fin q ∧ (q == c)%Q.
Proof.
  intros Hne Hc. rewrite torch_mean_Fin by done. eexists. split; [done|].
  rewrite (Qsum_const c l Hc). destruct l as [|x l]; [done|].
  field. apply Qeq_bool_false, (Qeq_bool_count_nonzero (length l)).
Qed.

Lemma factor_flatness_positive (a b : Q) :
  (0 < b)%Q → factor_flatness (Fin a) (Fin b) = Fin (a / b).
Proof.
  intros Hb. unfold factor_flatness. simpl. unfold Qlt_bool.
  replace (Qle_bool b 0) with false by (symmetry; apply Qle_bool_false; lra).
  simpl. replace (Qeq_bool b 0) with false; [done|].
  symmetry. apply Qeq_bool_false. lra.
Qed.

Lemma scores_lookup (v0 v1 v2 v3 v4 v5 v6 : tfloat) (r : dict string tfloat) :
  r = [ ("flatness.ave_flatness", v0); ("flatness.ave_flatness_l1", v1);
        ("flatness.ave_flatness_l2", v2); ("flatness.ave_width_l1", v3);
        ("flatness.ave_width_l2", v4); ("flatness.ave_length_l1", v5);
        ("flatness.ave_length_l2", v6) ] →
  dict_get r "flatness.ave_flatness_l1" = Ok v1
  ∧ dict_get r "flatness.ave_width_l1" = Ok v3
  ∧ dict_get r "flatness.ave_length_l1" = Ok v5.
Proof. by intros ->. Qed.

Lemma torch_mean_singleton (q : Q) : torch_mean [Fin q] = Fin ((q + 0) / 1).
Proof. reflexivity. Qed.

Section Scenario.

Context {G X : Type}.
Variable norm_l2 : list Q → Q.
Hypothesis norm_l2_nonneg : ∀ v, (0 <= norm_l2 v)%Q.
Hypothesis norm_l2_zero : ∀ v, (norm_l2 v == 0)%Q ↔ Forall (fun x => (x == 0)%Q) v.
Variable ground_truth_dataset : @GroundTruthDataset G X.
Variable representation_function : list X → list (list Q).

(** Two factors of sizes [1, 5]; the encoder maps the value [v] of the
    second factor to the point [v * 2]. *)
Hypothesis two_factors : num_factors ground_truth_dataset = 2%nat.
Hypothesis sizes_1_5 : factor_sizes ground_truth_dataset = [1; 5].
Hypothesis sample_one_row :
  ∀ g, ∃ row, (sample_factors ground_truth_dataset 1 g).1 = [row]
              ∧ length row = num_factors ground_truth_dataset.
Hypothesis encoder_doubles :
  ∀ rows, representation_function
            (dataset_batch_from_factors ground_truth_dataset rows)
          = map scenario_point rows.

Variables factor_repeats batch_size : Z.
Hypothesis repeats_positive : 1 ≤ factor_repeats.
Hypothesis batch_size_positive : 1 ≤ batch_size.

Lemma scenario_width_and_deltas :
  width_value norm_l2 scenario_traversal L1 = 8%Q
  ∧ deltas_value norm_l2 scenario_traversal L1 = [2; 2; 2; 2]%Q.
Proof. split; by vm_compute. Qed.

Lemma scenario_encode (g : G) :
  ∃ g', encode_all_along_factor ground_truth_dataset representation_function
          1 batch_size g = Ok (scenario_traversal, g').
Proof.
  destruct (sample_one_row g) as (row & Hrow & Hlen).
  destruct (sample_factors ground_truth_dataset 1 g) as [rows g'] eqn:Es.
  simpl in Hrow. subst rows. exists g'.
  unfold encode_all_along_factor, bind. unfold lift at 1.
  rewrite sizes_1_5. change (py_index [1; 5] 1) with (Ok (A := Z) 5).
  cbv beta iota.
  rewrite (range_along_repeated_factors_value _ _ _ g g' row Es)
    by (rewrite ?Hlen, ?two_factors; lia).
  unfold lift.
  rewrite (encode_all_factors_rowwise _ _ scenario_point encoder_doubles) by lia.
  rewrite two_factors in Hlen.
  destruct row as [|a [|b [|c row]]]; simpl in Hlen; try lia.
  by vm_compute.
Qed.

Lemma scenario_wellshaped : wellshaped 5 1 scenario_traversal.
Proof. split; [done|]. split; [lia|]. repeat constructor. Qed.

(** The measure of the second factor: a mean width of 8 and a mean delta
    of 2 under the [p=1] norm. *)
Lemma scenario_factor_measure (zss : list (list (list Q))) :
  zss ≠ [] → Forall (fun zs => zs = scenario_traversal) zss →
  ∃ qw qd, ave_width (factor_measure norm_l2 zss L1) = Fin qw
           ∧ ave_delta (factor_measure norm_l2 zss L1) = Fin qd
           ∧ (qw == 8)%Q ∧ (qd == 2)%Q.
Proof.
  intros Hne Hall. destruct scenario_width_and_deltas as [Hw Hd].
  destruct (torch_mean_const 8 (map (fun zs => width_value norm_l2 zs L1) zss))
    as (qw & Hqw & Hqw8).
  { by destruct zss. }
  { apply Forall_fmap. eapply Forall_impl; [exact Hall|].
    intros zs ->. simpl. by rewrite Hw. }
  destruct (torch_mean_const 2 (concat (map (fun zs => deltas_value norm_l2 zs L1) zss)))
    as (qd & Hqd & Hqd2).
  { destruct zss as [|zs zss']; [done|]. inversion Hall; subst. cbn [map concat].
    by rewrite Hd. }
  { apply Forall_forall. intros x Hx.
    apply elem_of_concat in Hx as (l & Hx & Hl).
    apply list_elem_of_fmap in Hl as (zs & -> & Hzs).
    rewrite Forall_forall in Hall. rewrite (Hall zs Hzs), Hd in Hx.
    repeat (apply elem_of_cons in Hx as [->|Hx]; [reflexivity|]).
    by apply elem_of_nil in Hx. }
  exists qw, qd. simpl. rewrite map_map in Hqw. done.
Qed.

(** C5: on the dataset with factors of sizes [1, 5] and the encoder
    [v * 2], for any state of the random source and any positive repeats
    and batch size, the metric returns [ave_flatness_l1 = 1]; its average
    width and length under [p=1] are both 8, the values of the second
    factor alone: the factor of size 1 is left out of the aggregates.  (Each
    repeat has width 8 and four retained deltas of 2.) *)
Theorem scenario_flatness_l1_is_one (g : G) :
  (width_value norm_l2 scenario_traversal L1 = 8%Q
   ∧ deltas_value norm_l2 scenario_traversal L1 = [2; 2; 2; 2]%Q)
  ∧ ∃ r g' flatness width length,
      metric_flatness norm_l2 ground_truth_dataset representation_function
        factor_repeats batch_size g = Ok (r, g')
      ∧ dict_get r "flatness.ave_flatness_l1" = Ok (Fin flatness)
      ∧ dict_get r "flatness.ave_width_l1" = Ok (Fin width)
      ∧ dict_get r "flatness.ave_length_l1" = Ok (Fin length)
      ∧ (flatness == 1)%Q ∧ (width == 8)%Q ∧ (length == 8)%Q.
Proof.
  split; [apply scenario_width_and_deltas|].
  assert (Hnf : num_factors ground_truth_dataset
                = length (factor_sizes ground_truth_dataset))
    by (by rewrite two_factors, sizes_1_5).
  assert (Hpos : Forall (fun s => 1 ≤ s) (factor_sizes ground_truth_dataset))
    by (rewrite sizes_1_5; repeat constructor; lia).
  assert (Hsome : (1 ≤ num_factors ground_truth_dataset)%nat)
    by (rewrite two_factors; lia).
  set (R := fun (f : nat) (m : pnorm → measure) =>
              f = 1%nat →
              ∃ zss, zss ≠ [] ∧ Forall (fun zs => zs = scenario_traversal) zss
                     ∧ m = factor_measure norm_l2 zss).
  destruct (metric_flatness_form norm_l2 ground_truth_dataset representation_function
              factor_repeats batch_size Hnf Hpos Hsome R) with (g := g)
    as (ms & g' & r & Hr & Hok & HR & Hres & _ & _).
  { intros f s g0 Hf. rewrite sizes_1_5 in Hf.
    destruct f as [|[|f]]; simpl in Hf; [| |done]; inversion Hf; subst s.
    - eexists zero_measure, _. split; [|split; [apply zero_measure_ok|done]].
      apply aggregate_factor_degenerate. by rewrite sizes_1_5.
    - destruct (aggregate_factor_form norm_l2 norm_l2_nonneg norm_l2_zero
                  ground_truth_dataset representation_function
                  (fun zs => zs = scenario_traversal) 1 5
                  factor_repeats batch_size [L1; L2] 1%nat)
        with (g := g0) as (zss & g1 & Hagg & Hall & Hlen); try done.
      { by rewrite sizes_1_5. }
      { intros g2. destruct (scenario_encode g2) as (g3 & Hg3).
        by exists scenario_traversal, g3. }
      { intros zs ->. apply scenario_wellshaped. }
      assert (Hne : zss ≠ []) by (destruct zss; [simpl in Hlen; lia|done]).
      exists (factor_measure norm_l2 zss), g1. split; [done|]. split.
      + exists (Forall flat zss). split; [done|]. intros p.
        destruct (factor_measure_spec norm_l2 norm_l2_nonneg norm_l2_zero zss 5 1%nat p)
          as (a & b & Hm & ?); [done| |by exists a, b].
        eapply Forall_impl; [exact Hall|]. intros zs ->. apply scenario_wellshaped.
      + intros _. by exists zss. }
  destruct (scores_of_collected _ ms Hpos Hok) as (r' & Hr' & Hexp & _).
  rewrite Hres in Hr'. injection Hr' as <-.
  rewrite two_factors in HR. rewrite sizes_1_5 in Hexp.
  destruct ms as [|m0 [|m1 [|m2 ms]]]; try (by inversion HR as [|? ? ? ? ? HR']; inversion HR').
  2: { inversion HR as [|? ? ? ? ? HR']. inversion HR' as [|? ? ? ? ? HR'']. inversion HR''. }
  assert (HR1 : R 1%nat m1).
  { inversion HR as [|? ? ? ? ? HR']. by inversion HR'. }
  destruct (HR1 eq_refl) as (zss & Hne & Hall & ->).
  destruct (scenario_factor_measure zss Hne Hall) as (qw & qd & Hqw & Hqd & Hw8 & Hd2).
  assert (Hl8 : (inject_Z (5 - 1) * qd == 8)%Q) by (rewrite Hd2; reflexivity).
  assert (Hlpos : (0 < inject_Z (5 - 1) * qd)%Q) by (rewrite Hl8; reflexivity).
  unfold mean_factor_flatness, collect_measures in Hexp.
  cbn [fs_ave_widths fs_ave_lengths map zip_with active_entries Z.eqb Pos.eqb] in Hexp.
  rewrite Hqw, Hqd in Hexp. cbn [tf_mul] in Hexp.
  rewrite (factor_flatness_positive qw _ Hlpos), !torch_mean_singleton in Hexp.
  destruct (scores_lookup _ _ _ _ _ _ _ r Hexp) as (H1 & H3 & H5).
  exists r, g'. eexists _, _, _.
  split; [done|]. split; [exact H1|]. split; [exact H3|]. split; [exact H5|].
  split; [|split].
  - rewrite Hw8, Hl8. reflexivity.
  - rewrite Hw8. reflexivity.
  - rewrite Hl8. reflexivity.
Qed.

End Scenario.

(** ** The properties on concrete inputs *)

(** The in-place updates are real: they land in the copies, after the two
    tensors of the caller, which keep their zero entries. *)
Example compute_flatness_writes_to_copies :
  Aliasing.compute_flatness 0 1 [2; 2] [[Fin 0; Fin 3]; [Fin 0; Fin 3]]
  = (Ok (Fin (3 # 6)),
     [[Fin 0; Fin 3]; [Fin 0; Fin 3]; [Fin 0; Fin 3]; [Fin 1; Fin 3];
      [Fin 0; Fin (3 # 3)]]).
Proof. by vm_compute. Qed.

Example scenario_scores :
  metric_flatness norm_l1 scenario_dataset scenario_representation 3 2 11
  = Ok ([ ("flatness.ave_flatness", Fin (288 # 288));
          ("flatness.ave_flatness_l1", Fin (288 # 288));
          ("flatness.ave_flatness_l2", Fin (288 # 288));
          ("flatness.ave_width_l1", Fin (24 # 3));
          ("flatness.ave_width_l2", Fin (24 # 3));
          ("flatness.ave_length_l1", Fin (96 # 12));
          ("flatness.ave_length_l2", Fin (96 # 12)) ], 38).
Proof. by vm_compute. Qed.

Lemma scenario_sample_one_row (g : Z) :
  ∃ row, (sample_factors scenario_dataset 1 g).1 = [row]
         ∧ length row = num_factors scenario_dataset.
Proof. by exists [0; g mod 5]. Qed.

Lemma scenario_encoder_doubles (rows : list (list Z)) :
  scenario_representation (dataset_batch_from_factors scenario_dataset rows)
  = map scenario_point rows.
Proof. done. Qed.

Lemma scenario_encoder_shape (rows : list (list Z)) :
  length (scenario_representation (dataset_batch_from_factors scenario_dataset rows))
  = length rows
  ∧ Forall (fun r => length r = 1%nat)
           (scenario_representation (dataset_batch_from_factors scenario_dataset rows)).
Proof.
  unfold scenario_representation. simpl. rewrite length_map. split; [done|].
  by apply Forall_fmap, Forall_true.
Qed.

Lemma scenario_measures_ok :
  measures_ok [1; 5] {| fs_ave_widths := [Fin 0; Fin 8]; fs_ave_lengths := [Fin 0; Fin 8] |}.
Proof. split; simpl; repeat constructor. Defined.




Lemma extra_inactive_factor_changes_nothing_witness :
  metric_flatness_results
    (with_extra_factor 1 (fun _ => Fin 0) (fun _ => Fin 0) scenario_measures)
    (insert_at 1 1 [1; 5])
  = metric_flatness_results scenario_measures [1; 5].
Proof.
  apply (extra_inactive_factor_changes_nothing scenario_measures [1; 5] 1
           (fun _ => Fin 0) (fun _ => Fin 0)); [|simpl; lia].
  intros p m Hm. unfold scenario_measures in Hm.
  apply elem_of_cons in Hm as [Hm|Hm]; [by inversion Hm|].
  apply elem_of_cons in Hm as [Hm|Hm]; [by inversion Hm|].
  by apply elem_of_nil in Hm.
Defined.

Lemma scenario_flatness_l1_is_one_witness :
  (width_value norm_l1 scenario_traversal L1 = 8%Q
   ∧ deltas_value norm_l1 scenario_traversal L1 = [2; 2; 2; 2]%Q)
  ∧ ∃ r g' flatness width length,
      metric_flatness norm_l1 scenario_dataset scenario_representation 1024 64 11
      = Ok (r, g')
      ∧ dict_get r "flatness.ave_flatness_l1" = Ok (Fin flatness)
      ∧ dict_get r "flatness.ave_width_l1" = Ok (Fin width)
      ∧ dict_get r "flatness.ave_length_l1" = Ok (Fin length)
      ∧ (flatness == 1)%Q ∧ (width == 8)%Q ∧ (length == 8)%Q.
Proof.
  apply (scenario_flatness_l1_is_one norm_l1 norm_l1_nonneg norm_l1_zero
           scenario_dataset scenario_representation eq_refl eq_refl
           scenario_sample_one_row scenario_encoder_doubles 1024 64); lia.
Defined.

Lemma degenerate_factor_measures_witness :
  aggregate_measure_distances_along_factor norm_l1 scenario_dataset
    scenario_representation 0 1024 64 [L1; L2] false 11
  = Ok (map (fun p => (p, {| ave_width := Fin 0; ave_delta := Fin 0 |})) [L1; L2],
        (dataset_sample_batch scenario_dataset 1 11).2)
  ∧ aggregate_measure_distances_along_factor norm_l1 scenario_dataset
      scenario_representation 0 1024 64 [L1; L2] true 11
    = Raise (ValueError
        "dataset factor size is too small for flatness metric with cycle_normalize enabled! size=1 < 2").
Proof.
  apply (degenerate_factor_measures norm_l1 scenario_dataset scenario_representation
           0 1024 64 [L1; L2] 11). reflexivity.
Defined.


Lemma batch_size_does_not_matter_witness :
  (∀ factors, factors ≠ [] →
     encode_all_factors scenario_dataset scenario_representation factors 2
     = Ok (map scenario_point factors))
  ∧ (∀ factors,
       encode_all_factors scenario_dataset scenario_representation factors 2
       = encode_all_factors scenario_dataset scenario_representation factors 64)
  ∧ (∀ factor_repeats g,
       metric_flatness norm_l1 scenario_dataset scenario_representation
         factor_repeats 2 g
       = metric_flatness norm_l1 scenario_dataset scenario_representation
           factor_repeats 64 g).
Proof.
  apply (batch_size_does_not_matter norm_l1 scenario_dataset scenario_representation
           scenario_point scenario_encoder_doubles 2 64); lia.
Defined.


Lemma compute_flatness_preserves_caller_tensors_witness :
  (Aliasing.compute_flatness 0 1 [2; 2] [[Fin 0; Fin 3]; [Fin 0; Fin 3]]).2 !! 1%nat
  = Some [Fin 0; Fin 3]
  ∧ (Aliasing.metric_flatness_results
       [ (L1, {| Aliasing.fs_ave_widths_ref := 0; Aliasing.fs_ave_lengths_ref := 1 |});
         (L2, {| Aliasing.fs_ave_widths_ref := 0; Aliasing.fs_ave_lengths_ref := 1 |}) ]
       [1; 5] [[Fin 0; Fin 8]; [Fin 0; Fin 8]]).1
    = metric_flatness_results scenario_measures [1; 5].
Proof.
  destruct compute_flatness_preserves_caller_tensors as (H1 & H2).
  split.
  - apply H1; [by eexists|by eexists|done].
  - by apply H2.
Defined.

(** * Further properties of the code *)

(** ** [knn] in general *)

Lemma StronglySorted_app_split {A} (R : A → A → Prop) (l1 l2 : list A) :
  StronglySorted R (l1 ++ l2) →
  StronglySorted R l1 ∧ ∀ x y, x ∈ l1 → y ∈ l2 → R x y.
Proof.
  induction l1 as [|a l1 IH]; simpl; intros Hs.
  - split; [constructor|]. intros x y Hx. by apply elem_of_nil in Hx.
  - inversion Hs as [|? ? Hs' Hall]; subst. destruct (IH Hs') as [IH1 IH2].
    apply Forall_app in Hall as [Hall1 Hall2]. split; [by constructor|].
    intros x y Hx Hy. apply elem_of_cons in Hx as [->|Hx]; [|by apply IH2].
    rewrite Forall_forall in Hall2. by apply Hall2.
Qed.

(** [topk] returns the [k] extreme values, in order, and leaves the rest. *)
Lemma topk_spec (t : list Q) (k : Z) (largest : bool) :
  0 ≤ k ≤ Z.of_nat (length t) →
  ∃ row rest,
    topk t k largest = Ok row
    ∧ length row = Z.to_nat k
    ∧ row ++ rest ≡ₚ t
    ∧ StronglySorted (fun a b => if largest then (b <= a)%Q else (a <= b)%Q) row
    ∧ ∀ a b, a ∈ row → b ∈ rest → if largest then (b <= a)%Q else (a <= b)%Q.
Proof.
  intros Hk. unfold topk.
  replace ((0 <=? k) && (k <=? Z.of_nat (length t))) with true
    by (symmetry; apply andb_true_iff; split; apply Z.leb_le; lia).
  set (leb := if largest then Qge_bool else Qle_bool).
  assert (Htot : ∀ a b, leb a b = true ∨ leb b a = true)
    by (unfold leb; destruct largest; [apply Qge_bool_total|apply Qle_bool_total]).
  assert (Htr : ∀ a b c, leb a b = true → leb b c = true → leb a c = true)
    by (unfold leb; destruct largest; [apply Qge_bool_trans|apply Qle_bool_trans]).
  assert (Hleb : ∀ a b, leb a b = true →
                        if largest then (b <= a)%Q else (a <= b)%Q).
  { unfold leb, Qge_bool. intros a b. destruct largest; apply Qle_bool_true. }
  pose proof (sort_by_perm leb t) as Hp.
  pose proof (sort_by_sorted leb Htot Htr t) as Hs.
  pose proof (length_sort_by leb t) as Hl.
  set (s := sort_by leb t) in *.
  rewrite <- (take_drop (Z.to_nat k) s) in Hs, Hp.
  apply StronglySorted_app_split in Hs as [Hs1 Hs2].
  exists (take (Z.to_nat k) s), (drop (Z.to_nat k) s).
  split; [done|]. split; [rewrite length_take; lia|]. split; [done|]. split.
  - clear -Hs1 Hleb. induction Hs1 as [|a l Hl IH Ha]; constructor; [done|].
    eapply Forall_impl; [exact Ha|]. intros b. apply Hleb.
  - intros a b Ha Hb. by apply Hleb, Hs2.
Qed.

Section KnnSpec.

Variable norm_l2 : list Q → Q.

Lemma same_row_shape_rect (x y : list (list Q)) (d : nat) :
  Forall (fun r => length r = d) x → Forall (fun r => length r = d) y →
  same_row_shape x y = true.
Proof.
  rewrite !Forall_forall. intros Hx Hy. unfold same_row_shape.
  apply forallb_forall. intros r Hr. apply forallb_forall. intros s Hs.
  apply list_elem_of_In in Hr, Hs. apply Nat.eqb_eq. by rewrite (Hx r), (Hy s).
Qed.

(** X1: for [k] between 1 and the number of rows of [y], and rows of one
    width, [knn] returns for every row of [x] its [k] largest (or smallest)
    distances to the rows of [y], in order: [k] values that, with the
    distances left out, make up all the distances of that row, none of the
    distances left out being more extreme than a returned one.  Rows of
    different widths fail the assertion on the shapes. *)
Theorem knn_returns_extreme_distances (x y : list (list Q)) (k : Z) (largest : bool)
    (p : pnorm) (d : nat) :
  1 ≤ k ≤ Z.of_nat (length y) →
  (Forall (fun r => length r = d) x → Forall (fun r => length r = d) y →
   ∃ v, knn norm_l2 x y k largest p = Ok v
        ∧ Forall2 (fun xi row =>
             length row = Z.to_nat k
             ∧ StronglySorted (fun a b => if largest then (b <= a)%Q else (a <= b)%Q) row
             ∧ ∃ rest, row ++ rest ≡ₚ map (dist norm_l2 p xi) y
                       ∧ ∀ a b, a ∈ row → b ∈ rest →
                                if largest then (b <= a)%Q else (a <= b)%Q)
           x v)
  ∧ ((∃ r s, r ∈ x ∧ s ∈ y ∧ length r ≠ length s) →
     knn norm_l2 x y k largest p = Raise AssertionError).
Proof.
  intros Hk.
  assert (Hka : (0 <? k) && (k <=? Z.of_nat (length y)) = true)
    by (apply andb_true_iff; split; [apply Z.ltb_lt|apply Z.leb_le]; lia).
  split.
  - intros Hx Hy. unfold knn. rewrite Hka, (same_row_shape_rect x y d Hx Hy). simpl.
    destruct (for_each_Forall2
                (fun drow row =>
                   length row = Z.to_nat k
                   ∧ StronglySorted
                       (fun a b => if largest then (b <= a)%Q else (a <= b)%Q) row
                   ∧ ∃ rest, row ++ rest ≡ₚ drow
                             ∧ ∀ a b, a ∈ row → b ∈ rest →
                                      if largest then (b <= a)%Q else (a <= b)%Q)
                (fun row => topk row k largest)
                (map (fun xi => map (fun yj => dist norm_l2 p xi yj) y) x))
      as (v & Hv & HR).
    { intros drow Hrow. apply list_elem_of_fmap in Hrow as (xi & -> & Hxi).
      destruct (topk_spec (map (fun yj => dist norm_l2 p xi yj) y) k largest)
        as (row & rest & Ht & Hl & Hp & Hs & Hr); [rewrite length_map; lia|].
      exists row. split; [done|]. split; [done|]. split; [done|]. by exists rest. }
    exists v. split; [done|]. by apply Forall2_fmap_l in HR.
  - intros (r & s & Hr & Hs & Hne). unfold knn. rewrite Hka. simpl.
    replace (same_row_shape x y) with false; [done|].
    symmetry. apply not_true_is_false. intros Hsame.
    unfold same_row_shape in Hsame. rewrite forallb_forall in Hsame.
    apply list_elem_of_In in Hr, Hs.
    specialize (Hsame r Hr). rewrite forallb_forall in Hsame.
    specialize (Hsame s Hs). by apply Nat.eqb_eq in Hsame.
Qed.

End KnnSpec.

Lemma knn_returns_extreme_distances_witness :
  (∃ v, knn norm_l1 scenario_traversal scenario_traversal 2 true L1 = Ok v
        ∧ length v = 5%nat)
  ∧ knn norm_l1 [[0%Q; 1%Q]] [[0%Q]; [1%Q]] 1 false L2 = Raise AssertionError.
Proof.
  split.
  - destruct (knn_returns_extreme_distances norm_l1 scenario_traversal
                scenario_traversal 2 true L1 1) as [H _]; [simpl; lia|].
    destruct H as (v & Hv & HF); [by repeat constructor..|].
    exists v. split; [done|]. by apply Forall2_length in HF.
  - destruct (knn_returns_extreme_distances norm_l1 [[0%Q; 1%Q]] [[0%Q]; [1%Q]]
                1 false L2 1)
      as [_ H]; [simpl; lia|].
    apply H. exists [0%Q; 1%Q], [0%Q]. split; [by left|]. split; [by left|]. simpl. lia.
Defined.

(** ** The outcomes of the cross-factor stage *)

Lemma elem_of_nonzero_from (k i : nat) (t : list Z) :
  i ∈ nonzero_from k t ↔ (k ≤ i)%nat ∧ ∃ z, t !! (i - k)%nat = Some z ∧ z ≠ 0.
Proof.
  revert k. induction t as [|z t IH]; intros k; simpl.
  - split; [intros H; by apply elem_of_nil in H|by intros (_ & ? & ? & _)].
  - assert (Hstep : i ∈ nonzero_from (S k) t ↔
                    (k < i)%nat ∧ ∃ z', (z :: t) !! (i - k)%nat = Some z' ∧ z' ≠ 0).
    { rewrite IH. split.
      - intros (Hk & z' & Hz & Hne). split; [lia|]. exists z'. split; [|done].
        by replace (i - k)%nat with (S (i - S k)) by lia.
      - intros (Hk & z' & Hz & Hne). split; [lia|]. exists z'. split; [|done].
        by replace (i - k)%nat with (S (i - S k)) in Hz by lia. }
    destruct (z =? 0) eqn:E.
    + apply Z.eqb_eq in E. subst z. rewrite Hstep. split.
      * intros (Hk & H). split; [lia|done].
      * intros (Hk & z' & Hz & Hne). destruct (decide (i = k)) as [->|].
        -- rewrite Nat.sub_diag in Hz. simpl in Hz. congruence.
        -- split; [lia|]. by exists z'.
    + apply Z.eqb_neq in E. rewrite elem_of_cons, Hstep. split.
      * intros [->|(Hk & H)].
        -- split; [lia|]. exists z. by rewrite Nat.sub_diag.
        -- split; [lia|done].
      * intros (Hk & z' & Hz & Hne). destruct (decide (i = k)) as [->|]; [by left|].
        right. split; [lia|]. by exists z'.
Qed.

Lemma for_each_raises {A B} (f : A → result B) (l : list A) (e : exn) :
  (∀ x, x ∈ l → (∃ y, f x = Ok y) ∨ f x = Raise e) →
  (∃ x, x ∈ l ∧ f x = Raise e) →
  for_each f l = Raise e.
Proof.
  induction l as [|a l IH]; intros Hall (x & Hx & Hfx).
  - by apply elem_of_nil in Hx.
  - simpl. destruct (Hall a (list_elem_of_here _ _)) as [(y & Hy)|Ha].
    + rewrite Hy. simpl. rewrite IH; [done| |].
      * intros z Hz. apply Hall. by right.
      * apply elem_of_cons in Hx as [->|Hx]; [congruence|]. by exists x.
    + by rewrite Ha.
Qed.

Lemma active_entries_all_active {A} (t : list A) (sizes : list Z) :
  length t = length sizes → Forall (fun s => s ≠ 1) sizes → active_entries t sizes = t.
Proof.
  revert t. induction sizes as [|s sizes IH]; intros [|x t] Hl Hs; simpl in *; try done.
  inversion Hs as [|? ? Hs1 Hs']; subst.
  replace (s =? 1) with false by (symmetry; by apply Z.eqb_neq).
  f_equal. apply IH; [lia|done].
Qed.

Lemma forallb_false_not_Forall {A} (f : A → bool) (l : list A) :
  forallb f l = false ↔ ¬ Forall (fun x => f x = true) l.
Proof.
  split.
  - intros H HF. apply Forall_forallb in HF. congruence.
  - intros H. destruct (forallb f l) eqn:E; [|done]. exfalso. apply H.
    apply Forall_forall. intros x Hx. rewrite forallb_forall in E.
    by apply E, list_elem_of_In.
Qed.

(** X2: [filter_inactive_factors] fails its assertion as soon as a factor
    size is below 1, whatever the tensor; with sizes of at least 1 it keeps,
    in order, the entries of the factors whose size is not 1 -- the whole
    tensor when no factor has size 1, nothing when all have --, and it
    raises [IndexError] when the tensor ends before an active factor. *)
Theorem filter_inactive_factors_outcome {A} (t : list A) (sizes : list Z) :
  (¬ Forall (fun s => 1 ≤ s) sizes →
   filter_inactive_factors t sizes = Raise AssertionError)
  ∧ (Forall (fun s => 1 ≤ s) sizes → length t = length sizes →
     filter_inactive_factors t sizes = Ok (active_entries t sizes)
     ∧ (Forall (fun s => s ≠ 1) sizes → filter_inactive_factors t sizes = Ok t))
  ∧ (Forall (fun s => s = 1) sizes → filter_inactive_factors t sizes = Ok [])
  ∧ (Forall (fun s => 1 ≤ s) sizes →
     (∃ i s, sizes !! i = Some s ∧ s ≠ 1 ∧ (length t ≤ i)%nat) →
     filter_inactive_factors t sizes = Raise IndexError).
Proof.
  assert (Hassert : Forall (fun s => 1 ≤ s) sizes →
                    assert (forallb (fun s => 1 <=? s) sizes) = Ok tt).
  { intros Hs. apply assert_true, Forall_forallb.
    eapply Forall_impl; [exact Hs|]. intros s. apply Z.leb_le. }
  split; [|split; [|split]].
  - intros Hs. unfold filter_inactive_factors.
    replace (forallb (fun s => 1 <=? s) sizes) with false; [done|].
    symmetry. apply forallb_false_not_Forall. intros HF. apply Hs.
    eapply Forall_impl; [exact HF|]. intros s. apply Z.leb_le.
  - intros Hs Hlen. rewrite filter_inactive_factors_active by done.
    rewrite Hassert by done. split; [done|].
    intros Hall. simpl. by rewrite active_entries_all_active.
  - intros Hall. unfold filter_inactive_factors.
    rewrite Hassert by (eapply Forall_impl; [exact Hall|]; intros s ->; lia).
    simpl. replace (nonzero (map (fun s => s - 1) sizes)) with (@nil nat); [done|].
    clear Hassert. unfold nonzero. generalize 0%nat.
    induction Hall as [|s sizes -> _ IH]; intros n; simpl; [done|]. apply IH.
  - intros Hs (i & s & Hi & Hne & Hlen). unfold filter_inactive_factors.
    rewrite Hassert by done. simpl. unfold index_select.
    apply for_each_raises.
    + intros j _. destruct (t !! j); [left; by eexists|by right].
    + exists i. split.
      * apply elem_of_nonzero_from. split; [lia|]. exists (s - 1).
        rewrite Nat.sub_0_r, list_lookup_fmap, Hi. split; [done|lia].
      * by rewrite (lookup_ge_None_2 t i Hlen).
Qed.

Lemma filter_inactive_factors_outcome_witness :
  filter_inactive_factors [Fin 0; Fin 8] [1; 0] = Raise AssertionError
  ∧ filter_inactive_factors [Fin 0; Fin 8] [1; 5] = Ok [Fin 8]
  ∧ filter_inactive_factors [Fin 3; Fin 8] [2; 5] = Ok [Fin 3; Fin 8]
  ∧ filter_inactive_factors [Fin 3] [1; 1] = Ok []
  ∧ filter_inactive_factors [Fin 3] [1; 5] = Raise IndexError.
Proof.
  split; [|split; [|split; [|split]]].
  - apply (filter_inactive_factors_outcome [Fin 0; Fin 8] [1; 0]).
    intros H. inversion H as [|? ? _ H']. inversion H'. lia.
  - apply (filter_inactive_factors_outcome [Fin 0; Fin 8] [1; 5]);
      [repeat constructor; lia|done].
  - apply (filter_inactive_factors_outcome [Fin 3; Fin 8] [2; 5]);
      [repeat constructor; lia|done|repeat constructor; lia].
  - apply (filter_inactive_factors_outcome [Fin 3] [1; 1]). by repeat constructor.
  - apply (filter_inactive_factors_outcome [Fin 3] [1; 5]); [repeat constructor; lia|].
    exists 1%nat, 5. split; [done|]. split; [lia|simpl; lia].
Defined.

Lemma forallb_Forall_iff {A} (f : A → bool) (l : list A) :
  forallb f l = true ↔ Forall (fun x => f x = true) l.
Proof.
  split; [|apply Forall_forallb].
  intros H. apply Forall_forall. intros x Hx. rewrite forallb_forall in H.
  by apply H, list_elem_of_In.
Qed.

Lemma zero_pattern_check_iff (w l : list tfloat) :
  length w = length l →
  forallb id (zip_with Bool.eqb (map tf_eq0 w) (map tf_eq0 l)) = true
  ↔ zero_pattern w l.
Proof.
  intros Hlen. split; [|apply zero_pattern_check].
  revert l Hlen. induction w as [|x w IH]; intros [|y l] Hlen H; simpl in *; try done.
  - constructor.
  - apply andb_true_iff in H as [H1 H2]. constructor.
    + unfold id in H1. by apply eqb_prop in H1.
    + apply IH; [lia|done].
Qed.

(** X3: on tensors with one entry per factor, [compute_flatness] has two
    outcomes only.  It returns the mean of the flatness of the active
    factors when their widths and lengths are all non-negative (not nan)
    and null together; otherwise it raises [AssertionError]. *)
Theorem compute_flatness_outcome (w l : list tfloat) (sizes : list Z) :
  Forall (fun s => 1 ≤ s) sizes →
  length w = length sizes → length l = length sizes →
  let aw := active_entries w sizes in
  let al := active_entries l sizes in
  let checks := Forall (fun x => tf_ge0 x = true) aw
                ∧ Forall (fun y => tf_ge0 y = true) al
                ∧ zero_pattern aw al in
  (checks ∧ compute_flatness w l sizes = Ok (mean_factor_flatness w l sizes))
  ∨ (¬ checks ∧ compute_flatness w l sizes = Raise AssertionError).
Proof.
  intros Hs Hw Hl aw al checks. unfold compute_flatness.
  rewrite !filter_inactive_factors_active by done.
  rewrite assert_true
    by (apply Forall_forallb; eapply Forall_impl; [exact Hs|]; intros s; apply Z.leb_le).
  simpl. fold aw al.
  pose proof (active_entries_length w l sizes Hw Hl) as Hlen. fold aw al in Hlen.
  destruct (forallb tf_ge0 aw) eqn:E1; simpl.
  2: { right. split; [|done]. intros (H & _). apply forallb_false_not_Forall in E1. done. }
  destruct (forallb tf_ge0 al) eqn:E2; simpl.
  2: { right. split; [|done]. intros (_ & H & _). apply forallb_false_not_Forall in E2. done. }
  rewrite tensor_binop_same_length by (by rewrite !length_map). simpl.
  destruct (forallb id (zip_with Bool.eqb (map tf_eq0 aw) (map tf_eq0 al))) eqn:E3; simpl.
  2: { right. split; [|done]. intros (_ & _ & H).
       apply zero_pattern_check_iff in H; [congruence|done]. }
  left. apply forallb_Forall_iff in E1, E2. apply zero_pattern_check_iff in E3; [|done].
  split; [done|].
  rewrite !masked_fill_same_length by (by rewrite length_map). simpl.
  rewrite tensor_binop_same_length by (rewrite !length_zip_with, !length_map; lia).
  simpl. unfold mean_factor_flatness. fold aw al. by rewrite (flatness_ratios aw al E2).
Qed.

Lemma compute_flatness_outcome_witness :
  compute_flatness [Fin 0; Fin 8] [Fin 0; Fin 8] [1; 5]
  = Ok (mean_factor_flatness [Fin 0; Fin 8] [Fin 0; Fin 8] [1; 5])
  ∧ compute_flatness [Fin 0; Fin 8] [Fin 0; Fin 0] [1; 5] = Raise AssertionError.
Proof.
  split.
  - destruct (compute_flatness_outcome [Fin 0; Fin 8] [Fin 0; Fin 8] [1; 5])
      as [[_ H]|[H _]]; [repeat constructor; lia|done|done|done|].
    exfalso. apply H. by repeat constructor.
  - destruct (compute_flatness_outcome [Fin 0; Fin 8] [Fin 0; Fin 0] [1; 5])
      as [[(_ & _ & H) _]|[_ H]]; [repeat constructor; lia|done|done| |done].
    inversion H as [|? ? ? ? H' _]. by vm_compute in H'.
Defined.

(** ** Repeats and factors that are missing *)

Section NothingToCollate.

Context {G X : Type}.
Variable norm_l2 : list Q → Q.
Variable ground_truth_dataset : @GroundTruthDataset G X.
Variable representation_function : list X → list (list Q).

(** X4: there must be something to collate.  With [repeats <= 0] the
    aggregator raises [IndexError] on a factor whose size is not 1, and on
    a dataset without factors the metric raises [IndexError], whatever the
    other arguments are. *)
Theorem nothing_to_collate :
  (∀ f_idx f_size repeats batch_size ps cycle_fail g,
      py_index (factor_sizes ground_truth_dataset) f_idx = Ok f_size →
      f_size ≠ 1 → repeats ≤ 0 →
      aggregate_measure_distances_along_factor norm_l2 ground_truth_dataset
        representation_function f_idx repeats batch_size ps cycle_fail g
      = Raise IndexError)
  ∧ (∀ factor_repeats batch_size g,
        num_factors ground_truth_dataset = 0%nat →
        metric_flatness norm_l2 ground_truth_dataset representation_function
          factor_repeats batch_size g = Raise IndexError).
Proof.
  split.
  - intros f_idx f_size repeats batch_size ps cycle_fail g Hidx Hne Hrep.
    unfold aggregate_measure_distances_along_factor, bind. unfold lift at 1.
    rewrite Hidx. replace (f_size =? 1) with false by (symmetry; by apply Z.eqb_neq).
    replace (Z.to_nat repeats) with 0%nat by lia. done.
  - intros factor_repeats batch_size g Hnf.
    unfold metric_flatness, aggregate_measure_distances_along_all_factors, bind.
    rewrite Hnf. done.
Qed.

End NothingToCollate.

Lemma nothing_to_collate_witness :
  aggregate_measure_distances_along_factor norm_l1 scenario_dataset
    scenario_representation 1 0 64 [L1; L2] false 11 = Raise IndexError
  ∧ metric_flatness norm_l1
      {| num_factors := 0; factor_sizes := [];
         sample_factors := fun _ (g : Z) => ([[]], g);
         dataset_batch_from_factors := fun rows => rows;
         dataset_sample_batch := fun _ g => ([[]], g) |}
      scenario_representation 1024 64 11 = Raise IndexError.
Proof.
  split.
  - apply (nothing_to_collate norm_l1 scenario_dataset scenario_representation)
      with (f_size := 5); [reflexivity|lia|lia].
  - by apply nothing_to_collate.
Defined.

(** ** The rows of a traversal *)

Lemma py_set_wrap {A} (l : list A) (i : Z) (v : A) :
  - Z.of_nat (length l) ≤ i < Z.of_nat (length l) →
  py_set l i v = Ok (<[Z.to_nat (i mod Z.of_nat (length l)) := v]> l).
Proof.
  intros Hi. unfold py_set. destruct (i <? 0) eqn:E.
  - apply Z.ltb_lt in E.
    replace (i mod Z.of_nat (length l)) with (i + Z.of_nat (length l)).
    + replace ((0 <=? i + Z.of_nat (length l)) && (i + Z.of_nat (length l) <? Z.of_nat (length l)))
        with true; [done|].
      symmetry. apply andb_true_iff. split; [apply Z.leb_le|apply Z.ltb_lt]; lia.
    + apply Z.mod_unique with (q := -1); lia.
  - apply Z.ltb_ge in E. rewrite Z.mod_small by lia.
    replace ((0 <=? i) && (i <? Z.of_nat (length l))) with true; [done|].
    symmetry. apply andb_true_iff. split; [apply Z.leb_le|apply Z.ltb_lt]; lia.
Qed.

Lemma py_set_out_of_range {A} (l : list A) (i : Z) (v : A) :
  i < - Z.of_nat (length l) ∨ Z.of_nat (length l) ≤ i → py_set l i v = Raise IndexError.
Proof.
  intros Hi. unfold py_set. destruct (i <? 0) eqn:E.
  - apply Z.ltb_lt in E.
    replace (0 <=? i + Z.of_nat (length l)) with false; [done|].
    symmetry. apply Z.leb_gt. lia.
  - apply Z.ltb_ge in E.
    replace (i <? Z.of_nat (length l)) with false; [by rewrite andb_false_r|].
    symmetry. apply Z.ltb_ge. lia.
Qed.

Lemma set_column_repeated (row : list Z) (idx : Z) (vals : list Z) :
  set_column (replicate (length vals) row) idx vals
  = for_each (fun v => py_set row idx v) vals.
Proof.
  unfold set_column. rewrite length_replicate, Nat.eqb_refl.
  induction vals as [|v vals IH]; simpl; [done|]. by rewrite IH.
Qed.

Lemma lookup_arange (num : Z) (i : nat) (v : Z) :
  arange num !! i = Some v ↔ v = Z.of_nat i ∧ (i < Z.to_nat num)%nat.
Proof.
  unfold arange. rewrite list_lookup_fmap. split.
  - intros H. destruct (seq 0 (Z.to_nat num) !! i) as [j|] eqn:E; [|done].
    apply lookup_seq in E as [-> Hlt]. simpl in H. injection H as <-. done.
  - intros [-> Hlt]. by rewrite lookup_seq_lt.
Qed.

Section Traversal.

Context {G X : Type}.
Variable ground_truth_dataset : @GroundTruthDataset G X.


End Traversal.


(** ** The width of a traversal against its length *)

Lemma Qsum_app (l1 l2 : list Q) : (Qsum (l1 ++ l2) == Qsum l1 + Qsum l2)%Q.
Proof.
  induction l1 as [|x l1 IH]; simpl; [ring|].
  change (x + Qsum (l1 ++ l2) == x + Qsum l1 + Qsum l2)%Q. rewrite IH. ring.
Qed.

Lemma Qsum_perm (l l' : list Q) : l ≡ₚ l' → (Qsum l == Qsum l')%Q.
Proof.
  induction 1 as [|x l l' _ IH|x y l|l l' l'' _ IH1 _ IH2].
  - reflexivity.
  - change (x + Qsum l == x + Qsum l')%Q. by rewrite IH.
  - change (y + (x + Qsum l) == x + (y + Qsum l))%Q. ring.
  - by rewrite IH1.
Qed.

Lemma Qsum_concat (ls : list (list Q)) : (Qsum (concat ls) == Qsum (map Qsum ls))%Q.
Proof.
  induction ls as [|l ls IH]; simpl; [reflexivity|].
  rewrite Qsum_app. change (Qsum l + Qsum (concat ls) == Qsum l + Qsum (map Qsum ls))%Q.
  by rewrite IH.
Qed.

Lemma Qsum_le (l l' : list Q) : Forall2 Qle l l' → (Qsum l <= Qsum l')%Q.
Proof.
  induction 1 as [|x y l l' Hxy _ IH]; simpl; [lra|].
  change (x + Qsum l <= y + Qsum l')%Q. lra.
Qed.

Lemma norm_l1_sym (a b : list Q) : (norm_l1 (vsub a b) == norm_l1 (vsub b a))%Q.
Proof.
  revert b. induction a as [|x a IH]; intros [|y b]; simpl; try reflexivity.
  change (Qabs (x - y) + norm_l1 (vsub a b) == Qabs (y - x) + norm_l1 (vsub b a))%Q.
  by rewrite IH, Qabs_Qminus.
Qed.

Lemma norm_l1_triangle (a b c : list Q) :
  length a = length b → length b = length c →
  (norm_l1 (vsub a c) <= norm_l1 (vsub a b) + norm_l1 (vsub b c))%Q.
Proof.
  revert b c. induction a as [|x a IH]; intros [|y b] [|z c] Hab Hbc; simpl in *;
    try done; try lra.
  change (Qabs (x - z) + norm_l1 (vsub a c)
          <= Qabs (x - y) + norm_l1 (vsub a b) + (Qabs (y - z) + norm_l1 (vsub b c)))%Q.
  assert (H1 : (Qabs (x - z) <= Qabs (x - y) + Qabs (y - z))%Q).
  { assert (E : (x - z == (x - y) + (y - z))%Q) by ring.
    rewrite E. apply Qabs_triangle. }
  assert (H2 := IH b c ltac:(lia) ltac:(lia)). lra.
Qed.

Lemma zip_with_closing {A B} (f : A → A → B) (y0 t : A) (ys : list A) :
  ∃ c, zip_with f (y0 :: ys) (ys ++ [t]) = zip_with f (y0 :: ys) ys ++ [c].
Proof.
  revert y0. induction ys as [|y1 ys IH]; intros y0.
  - by exists (f y0 t).
  - destruct (IH y1) as (c & Hc). exists c.
    change (f y0 y1 :: zip_with f (y1 :: ys) (ys ++ [t])
            = f y0 y1 :: (zip_with f (y1 :: ys) ys ++ [c])).
    by rewrite Hc.
Qed.

Section Triangle.

Variable norm_l2 : list Q → Q.
Hypothesis norm_l2_nonneg : ∀ v, (0 <= norm_l2 v)%Q.
Hypothesis norm_l2_zero : ∀ v, (norm_l2 v == 0)%Q ↔ Forall (fun x => (x == 0)%Q) v.
Hypothesis norm_l2_triangle :
  ∀ a b c, length a = length b → length b = length c →
           (norm_l2 (vsub a c) <= norm_l2 (vsub a b) + norm_l2 (vsub b c))%Q.
Hypothesis norm_l2_sym : ∀ a b, (norm_l2 (vsub a b) == norm_l2 (vsub b a))%Q.

Lemma dist_triangle (p : pnorm) (a b c : list Q) :
  length a = length b → length b = length c →
  (dist norm_l2 p a c <= dist norm_l2 p a b + dist norm_l2 p b c)%Q.
Proof.
  unfold dist. destruct p; simpl; [apply norm_l1_triangle|apply norm_l2_triangle].
Qed.

Lemma dist_sym (p : pnorm) (a b : list Q) :
  (dist norm_l2 p a b == dist norm_l2 p b a)%Q.
Proof. unfold dist. destruct p; simpl; [apply norm_l1_sym|apply norm_l2_sym]. Qed.

Lemma dist_self (p : pnorm) (a : list Q) : (dist norm_l2 p a a == 0)%Q.
Proof.
  apply (dist_zero norm_l2 norm_l2_zero); [done|]. apply Forall2_Qeq_refl.
Qed.

(** From the first point of a chain to any of its points is at most the
    length of the chain. *)
Lemma chain_from_head (p : pnorm) (y0 b : list Q) (ys : list (list Q)) (z : nat) :
  Forall (fun r => length r = z) (y0 :: ys) → b ∈ y0 :: ys →
  (dist norm_l2 p y0 b <= Qsum (zip_with (dist norm_l2 p) (y0 :: ys) ys))%Q.
Proof.
  revert y0 b. induction ys as [|y1 ys IH]; intros y0 b Hrect Hb.
  - apply list_elem_of_singleton in Hb as ->. rewrite dist_self. simpl. lra.
  - change (dist norm_l2 p y0 b
            <= dist norm_l2 p y0 y1 + Qsum (zip_with (dist norm_l2 p) (y1 :: ys) ys))%Q.
    inversion Hrect as [|? ? Hy0 Hrect']; subst.
    pose proof (dist_nonneg norm_l2 norm_l2_nonneg p y0 y1) as H01.
    apply elem_of_cons in Hb as [->|Hb].
    + pose proof (IH y1 y1 Hrect' (list_elem_of_here _ _)) as H1.
      pose proof (dist_nonneg norm_l2 norm_l2_nonneg p y1 y1) as H11.
      rewrite dist_self. lra.
    + pose proof (IH y1 b Hrect' Hb) as H1.
      assert (Hl1 : length y0 = length y1).
      { inversion Hrect' as [|? ? Hy1 _]; subst. lia. }
      assert (Hl2 : length y1 = length b).
      { by apply (rows_same_length (y1 :: ys) (length y0)); [|left|]. }
      pose proof (dist_triangle p y0 y1 b Hl1 Hl2). lra.
Qed.

(** Between any two points of a chain is at most the length of the chain. *)
Lemma path_bound (p : pnorm) (ys : list (list Q)) (a b : list Q) (z : nat) :
  Forall (fun r => length r = z) ys → a ∈ ys → b ∈ ys →
  (dist norm_l2 p a b <= Qsum (zip_with (dist norm_l2 p) ys (tail ys)))%Q.
Proof.
  induction ys as [|y0 ys IH]; intros Hrect Ha Hb; [by apply elem_of_nil in Ha|].
  simpl tail. apply elem_of_cons in Ha as [->|Ha].
  - by apply (chain_from_head p y0 b ys z).
  - apply elem_of_cons in Hb as [->|Hb].
    + rewrite dist_sym. apply (chain_from_head p y0 a ys z); [done|by right].
    + inversion Hrect as [|? ? Hy0 Hrect']; subst.
      pose proof (IH Hrect' Ha Hb) as H1.
      destruct ys as [|y1 ys]; [by apply elem_of_nil in Ha|].
      change (dist norm_l2 p a b
              <= dist norm_l2 p y0 y1 + Qsum (zip_with (dist norm_l2 p) (y1 :: ys) ys))%Q.
      pose proof (dist_nonneg norm_l2 norm_l2_nonneg p y0 y1). simpl tail in H1. lra.
Qed.

(** Whatever step of the cycle is left out, the remaining steps pass
    through all the points. *)
Lemma cycle_bound (p : pnorm) (zs : list (list Q)) (kept : list Q) (m : Q)
    (a b : list Q) (z : nat) :
  Forall (fun r => length r = z) zs →
  kept ++ [m] ≡ₚ raw_deltas norm_l2 zs p →
  a ∈ zs → b ∈ zs →
  (dist norm_l2 p a b <= Qsum kept)%Q.
Proof.
  intros Hrect Hperm Ha Hb.
  assert (Hm : m ∈ raw_deltas norm_l2 zs p).
  { rewrite <- Hperm. apply elem_of_app. right. by left. }
  apply list_elem_of_split in Hm as (l1 & l2 & Hraw).
  set (zs' := Nat.iter (length (l1 ++ [m])) roll_m1 zs).
  assert (Hraw' : raw_deltas norm_l2 zs' p = (l2 ++ l1) ++ [m]).
  { unfold zs'. rewrite raw_deltas_iter_roll, Hraw.
    replace (l1 ++ m :: l2) with ((l1 ++ [m]) ++ l2) by (by rewrite <- app_assoc).
    by rewrite iter_roll_m1_app, app_assoc. }
  assert (Hp : zs' ≡ₚ zs) by apply iter_roll_m1_perm.
  assert (Hk : kept ≡ₚ l2 ++ l1).
  { apply (Permutation_app_inv_r [m]). rewrite Hperm, Hraw.
    rewrite <- app_assoc. simpl. rewrite (Permutation_app_comm l2 (l1 ++ [m])).
    by rewrite <- app_assoc. }
  rewrite (Qsum_perm _ _ Hk).
  rewrite <- Hp in Ha, Hb, Hrect.
  destruct zs' as [|y0 ys] eqn:E; [by apply elem_of_nil in Ha|].
  unfold raw_deltas in Hraw'. simpl roll_m1 in Hraw'.
  destruct (zip_with_closing (dist norm_l2 p) y0 y0 ys) as (c & Hc).
  rewrite Hc in Hraw'. apply app_inj_tail in Hraw' as [Hpath _].
  rewrite <- Hpath. by apply (path_bound p (y0 :: ys) a b z).
Qed.

(** X6: under a norm with the triangle inequality, the width of a traversal
    is at most the sum of its retained deltas; so is its width under a norm
    [p] against the deltas under a norm [q] that is nowhere below [p]. *)
Theorem traversal_width_at_most_length (zs : list (list Q)) (p q : pnorm) (d : nat) :
  (2 ≤ length zs)%nat →
  Forall (fun r => length r = d) zs →
  (∀ v, (torch_norm norm_l2 p v <= torch_norm norm_l2 q v)%Q) →
  ∃ w kept, traversal_width norm_l2 zs p = Ok w
            ∧ traversal_deltas norm_l2 zs (Z.of_nat (length zs)) q = Ok kept
            ∧ (0 <= w <= Qsum kept)%Q.
Proof.
  intros Hlen Hrect Hpq.
  destruct (traversal_width_spec norm_l2 zs p d Hlen Hrect)
    as (w & Hw & (a & b & Ha & Hb & ->) & _).
  destruct (traversal_deltas_spec norm_l2 zs q (length zs) eq_refl Hlen)
    as (_ & _ & kept & m & Hk & _ & Hperm & _).
  exists (dist norm_l2 p a b), kept. split; [done|]. split; [done|].
  split; [apply (dist_nonneg norm_l2 norm_l2_nonneg)|].
  pose proof (cycle_bound q zs kept m a b d Hrect Hperm Ha Hb) as H1.
  pose proof (Hpq (vsub a b)) as H2. unfold dist in *. lra.
Qed.

Lemma width_value_le_deltas (zs : list (list Q)) (p q : pnorm) (d : nat) :
  (2 ≤ length zs)%nat →
  Forall (fun r => length r = d) zs →
  (∀ v, (torch_norm norm_l2 p v <= torch_norm norm_l2 q v)%Q) →
  (width_value norm_l2 zs p <= Qsum (deltas_value norm_l2 zs q))%Q.
Proof.
  intros Hlen Hrect Hpq. unfold width_value, deltas_value.
  destruct (traversal_width_spec norm_l2 zs p d Hlen Hrect)
    as (w & -> & (a & b & Ha & Hb & ->) & _).
  destruct (traversal_deltas_spec norm_l2 zs q (length zs) eq_refl Hlen)
    as (_ & _ & kept & m & -> & _ & Hperm & _).
  simpl.
  pose proof (cycle_bound q zs kept m a b d Hrect Hperm Ha Hb) as H1.
  pose proof (Hpq (vsub a b)) as H2. unfold dist in *. lra.
Qed.

Lemma length_concat_const {A} (k : nat) (ls : list (list A)) :
  Forall (fun l => length l = k) ls → length (concat ls) = (length ls * k)%nat.
Proof.
  induction 1 as [|l ls Hl _ IH]; simpl; [done|]. rewrite length_app, Hl, IH. lia.
Qed.

(** Over the repeats of a factor, the mean width is at most the number of
    retained deltas times their mean. *)
Lemma factor_measure_bound (zss : list (list (list Q))) (s : Z) (z : nat) (p q : pnorm) :
  zss ≠ [] → Forall (wellshaped s z) zss →
  (∀ v, (torch_norm norm_l2 p v <= torch_norm norm_l2 q v)%Q) →
  ∃ a b, ave_width (factor_measure norm_l2 zss p) = Fin a
         ∧ ave_delta (factor_measure norm_l2 zss q) = Fin b
         ∧ (0 <= a <= inject_Z (s - 1) * b)%Q.
Proof.
  intros Hne Hws Hpq.
  set (ws := map (fun zs => width_value norm_l2 zs p) zss).
  set (dss := map (fun zs => deltas_value norm_l2 zs q) zss).
  assert (Hs : 2 ≤ s).
  { destruct zss as [|zs zss']; [done|]. by inversion Hws as [|? ? (_ & ? & _) _]. }
  assert (Hdl : Forall (fun l => length l = Z.to_nat (s - 1)) dss).
  { unfold dss. apply Forall_fmap. eapply Forall_impl; [exact Hws|].
    intros zs (Hl & H2 & Hr). simpl.
    destruct (deltas_value_spec norm_l2 norm_l2_nonneg norm_l2_zero zs q z)
      as (_ & Hlen & _); [lia|done|]. rewrite Hlen. lia. }
  assert (Hle : (Qsum ws <= Qsum (concat dss))%Q).
  { rewrite Qsum_concat. apply Qsum_le. unfold ws, dss. rewrite map_map.
    apply Forall2_fmap, Forall_Forall2_diag. eapply Forall_impl; [exact Hws|].
    intros zs (Hl & H2 & Hr). simpl.
    apply width_value_le_deltas with (d := z); [lia|done|done]. }
  assert (Hnn : (0 <= Qsum ws)%Q).
  { apply Qsum_nonneg. unfold ws. apply Forall_fmap. eapply Forall_impl; [exact Hws|].
    intros zs (Hl & H2 & Hr). simpl.
    destruct (width_value_spec norm_l2 norm_l2_nonneg norm_l2_zero zs p z)
      as (_ & H0 & _); [lia|done|done]. }
  assert (Hlen_ws : length ws = length zss) by (unfold ws; by rewrite length_map).
  assert (Hlen_ds : length (concat dss) = (length zss * Z.to_nat (s - 1))%nat).
  { rewrite (length_concat_const _ _ Hdl). unfold dss. by rewrite length_map. }
  assert (Hr : (1 ≤ length zss)%nat) by (destruct zss; [done|simpl; lia]).
  exists (Qsum ws / inject_Z (Z.of_nat (length ws)))%Q,
         (Qsum (concat dss) / inject_Z (Z.of_nat (length (concat dss))))%Q.
  split.
  { unfold factor_measure. simpl. rewrite <- torch_mean_Fin.
    - unfold ws. by rewrite map_map.
    - intros E. rewrite E in Hlen_ws. simpl in Hlen_ws. lia. }
  split.
  { unfold factor_measure. simpl. rewrite <- torch_mean_Fin; [done|].
    intros E. fold dss in E. rewrite E in Hlen_ds. simpl in Hlen_ds. nia. }
  rewrite Hlen_ws, Hlen_ds.
  assert (HR : (0 < inject_Z (Z.of_nat (length zss)))%Q).
  { replace 0%Q with (inject_Z 0) by done. rewrite <- Zlt_Qlt. lia. }
  assert (HN : (0 < inject_Z (s - 1))%Q).
  { replace 0%Q with (inject_Z 0) by done. rewrite <- Zlt_Qlt. lia. }
  assert (HRN : (inject_Z (Z.of_nat (length zss * Z.to_nat (s - 1)))
                 == inject_Z (Z.of_nat (length zss)) * inject_Z (s - 1))%Q).
  { rewrite Nat2Z.inj_mul, Z2Nat.id by lia. by rewrite inject_Z_mult. }
  rewrite HRN.
  set (rR := inject_Z (Z.of_nat (length zss))) in *.
  set (rN := inject_Z (s - 1)) in *.
  assert (E : (rN * (Qsum (concat dss) / (rR * rN)) == Qsum (concat dss) / rR)%Q).
  { field. split; lra. }
  rewrite E. split.
  - apply Qle_shift_div_l; [done|lra].
  - unfold Qdiv. apply Qmult_le_compat_r; [done|].
    apply Qinv_le_0_compat. lra.
Qed.

End Triangle.

Lemma traversal_width_at_most_length_witness :
  ∃ w kept, traversal_width norm_l1 scenario_traversal L2 = Ok w
            ∧ traversal_deltas norm_l1 scenario_traversal 5 L1 = Ok kept
            ∧ (0 <= w <= Qsum kept)%Q.
Proof.
  apply (traversal_width_at_most_length norm_l1 norm_l1_nonneg norm_l1_zero
           norm_l1_triangle norm_l1_sym scenario_traversal L2 L1 1).
  - simpl. lia.
  - by repeat constructor.
  - intros v. simpl. lra.
Defined.

(** ** The range of the scores *)

Lemma flatness_ratio_range (a c : Q) :
  (0 <= a <= c)%Q → ∃ v, factor_flatness (Fin a) (Fin c) = Fin v ∧ (0 <= v <= 1)%Q.
Proof.
  intros [Ha Hac]. destruct (Qlt_le_dec 0 c) as [Hc|Hc].
  - exists (a / c)%Q. split; [by apply factor_flatness_positive|]. split.
    + apply Qle_shift_div_l; [done|lra].
    + apply Qle_shift_div_r; [done|lra].
  - exists 0%Q. split; [|lra]. unfold factor_flatness. simpl. unfold Qlt_bool.
    by replace (Qle_bool c 0) with true by (symmetry; by apply Qle_bool_true).
Qed.

Lemma bounded_pairs (w l : list tfloat) :
  Forall2 (fun x y => ∃ a c, x = Fin a ∧ y = Fin c ∧ (0 <= a <= c)%Q) w l →
  ∃ qa qc vs, w = map Fin qa ∧ l = map Fin qc
              ∧ Forall2 Qle qa qc ∧ Forall (Qle 0) qa
              ∧ zip_with factor_flatness w l = map Fin vs
              ∧ Forall (fun v => (0 <= v <= 1)%Q) vs
              ∧ length vs = length w.
Proof.
  induction 1 as [|x y w l (a & c & -> & -> & Hac) _
                   (qa & qc & vs & -> & -> & Hle & Hnn & Hz & Hvs & Hlen)].
  - by exists [], [], [].
  - destruct (flatness_ratio_range a c Hac) as (v & Hv & Hrange).
    exists (a :: qa), (c :: qc), (v :: vs).
    split; [done|]. split; [done|].
    split; [constructor; [apply Hac|done]|].
    split; [constructor; [apply Hac|done]|].
    split; [simpl; by rewrite Hv, Hz|].
    split; [by constructor|]. simpl. by rewrite Hlen.
Qed.

Lemma Qsum_unit_bounds (vs : list Q) :
  Forall (fun v => (0 <= v <= 1)%Q) vs →
  (0 <= Qsum vs <= inject_Z (Z.of_nat (length vs)))%Q.
Proof.
  induction 1 as [|v vs Hv _ IH].
  - split; apply Qle_refl.
  - change (Qsum (v :: vs)) with (v + Qsum vs)%Q. cbn [length].
    rewrite Nat2Z.inj_succ. unfold Z.succ. rewrite inject_Z_plus.
    change (inject_Z 1) with 1%Q. lra.
Qed.

Lemma count_positive (n : nat) : (1 ≤ n)%nat → (0 < inject_Z (Z.of_nat n))%Q.
Proof. intros Hn. replace 0%Q with (inject_Z 0) by done. rewrite <- Zlt_Qlt. lia. Qed.

Lemma mean_unit_range (vs : list Q) :
  vs ≠ [] → Forall (fun v => (0 <= v <= 1)%Q) vs →
  ∃ v, torch_mean (map Fin vs) = Fin v ∧ (0 <= v <= 1)%Q.
Proof.
  intros Hne Hvs. rewrite (torch_mean_Fin vs Hne). eexists. split; [done|].
  pose proof (Qsum_unit_bounds vs Hvs) as [H0 H1].
  assert (Hn : (0 < inject_Z (Z.of_nat (length vs)))%Q).
  { apply count_positive. destruct vs; [done|simpl; lia]. }
  split.
  - apply Qle_shift_div_l; [done|lra].
  - apply Qle_shift_div_r; [done|lra].
Qed.

Lemma mean_monotone (qa qc : list Q) :
  qa ≠ [] → Forall2 Qle qa qc → Forall (Qle 0) qa →
  ∃ a c, torch_mean (map Fin qa) = Fin a ∧ torch_mean (map Fin qc) = Fin c
         ∧ (0 <= a <= c)%Q.
Proof.
  intros Hne Hle Hnn.
  assert (Hlen : length qa = length qc) by (by eapply Forall2_length).
  assert (Hne' : qc ≠ []) by (intros ->; by destruct qa).
  rewrite (torch_mean_Fin qa Hne), (torch_mean_Fin qc Hne'), <- Hlen.
  eexists _, _. split; [done|]. split; [done|].
  assert (Hn : (0 < inject_Z (Z.of_nat (length qa)))%Q).
  { apply count_positive. destruct qa; [done|simpl; lia]. }
  pose proof (Qsum_le qa qc Hle) as H1.
  assert (H0 : (0 <= Qsum qa)%Q) by (by apply Qsum_nonneg).
  split.
  - apply Qle_shift_div_l; [done|lra].
  - unfold Qdiv. apply Qmult_le_compat_r; [done|]. apply Qinv_le_0_compat. lra.
Qed.

(** Widths that are at most the lengths give a flatness between 0 and 1. *)
Lemma mean_factor_flatness_range (w l : list tfloat) (sizes : list Z) :
  length w = length sizes → (∃ s, s ∈ sizes ∧ s ≠ 1) →
  Forall2 (fun x y => ∃ a c, x = Fin a ∧ y = Fin c ∧ (0 <= a <= c)%Q) w l →
  (∃ v, mean_factor_flatness w l sizes = Fin v ∧ (0 <= v <= 1)%Q)
  ∧ (∃ a c, torch_mean (active_entries w sizes) = Fin a
            ∧ torch_mean (active_entries l sizes) = Fin c
            ∧ (0 <= a <= c)%Q).
Proof.
  intros Hlen Hact Hwl.
  pose proof (active_entries_nonempty w sizes Hlen Hact) as Hne.
  apply (active_entries_Forall2 _ _ _ sizes) in Hwl.
  destruct (bounded_pairs _ _ Hwl)
    as (qa & qc & vs & Ea & Ec & Hle & Hnn & Hz & Hvs & Hl).
  unfold mean_factor_flatness. rewrite Hz, Ea, Ec. rewrite Ea in Hne, Hl.
  split.
  - apply mean_unit_range; [|done]. intros ->. destruct qa; [done|discriminate].
  - apply mean_monotone; [|done|done]. intros ->. done.
Qed.

Lemma collect_measures_bound (sizes : list Z) (ms : list (pnorm → measure)) (p q : pnorm) :
  Forall2 (fun s m => ∃ a b, ave_width (m p) = Fin a ∧ ave_delta (m q) = Fin b
                             ∧ (0 <= a <= inject_Z (s - 1) * b)%Q) sizes ms →
  Forall2 (fun x y => ∃ a c, x = Fin a ∧ y = Fin c ∧ (0 <= a <= c)%Q)
          (fs_ave_widths (collect_measures sizes ms p))
          (fs_ave_lengths (collect_measures sizes ms q)).
Proof.
  induction 1 as [|s m sizes ms (a & b & Ha & Hb & Hab) _ IH]; simpl; [constructor|].
  constructor; [|exact IH].
  exists a, (inject_Z (s - 1) * b)%Q. by rewrite Ha, Hb.
Qed.

Section ScoresRange.

Context {G X : Type}.
Variable norm_l2 : list Q → Q.
Hypothesis norm_l2_nonneg : ∀ v, (0 <= norm_l2 v)%Q.
Hypothesis norm_l2_zero : ∀ v, (norm_l2 v == 0)%Q ↔ Forall (fun x => (x == 0)%Q) v.
Hypothesis norm_l2_triangle :
  ∀ a b c, length a = length b → length b = length c →
           (norm_l2 (vsub a c) <= norm_l2 (vsub a b) + norm_l2 (vsub b c))%Q.
Hypothesis norm_l2_sym : ∀ a b, (norm_l2 (vsub a b) == norm_l2 (vsub b a))%Q.
Hypothesis norm_l2_le_l1 : ∀ v, (norm_l2 v <= norm_l1 v)%Q.

Variable ground_truth_dataset : @GroundTruthDataset G X.
Variable representation_function : list X → list (list Q).

Hypothesis sizes_per_factor :
  num_factors ground_truth_dataset = length (factor_sizes ground_truth_dataset).
Hypothesis sizes_positive : Forall (fun s => 1 ≤ s) (factor_sizes ground_truth_dataset).
Hypothesis sample_one_row :
  ∀ g, ∃ row, (sample_factors ground_truth_dataset 1 g).1 = [row]
              ∧ length row = num_factors ground_truth_dataset.

Variable z : nat.
Hypothesis encoder_shape :
  ∀ rows, length (representation_function
                    (dataset_batch_from_factors ground_truth_dataset rows))
          = length rows
          ∧ Forall (fun r => length r = z)
                   (representation_function
                      (dataset_batch_from_factors ground_truth_dataset rows)).

Variables factor_repeats batch_size : Z.
Hypothesis repeats_positive : 1 ≤ factor_repeats.
Hypothesis batch_size_positive : 1 ≤ batch_size.

(** The width of a factor against its length, for the three pairings of
    norms that the scores use. *)
Lemma aggregate_factor_bounded (f : nat) (s : Z) (g : G) :
  factor_sizes ground_truth_dataset !! f = Some s →
  ∃ m g', aggregate_measure_distances_along_factor norm_l2 ground_truth_dataset
            representation_function (Z.of_nat f) factor_repeats batch_size
            [L1; L2] false g
          = Ok (map (fun p => (p, m p)) [L1; L2], g')
          ∧ factor_ok s m
          ∧ ∀ s', factor_sizes ground_truth_dataset !! f = Some s' →
              ∀ p q, (∀ v, (torch_norm norm_l2 p v <= torch_norm norm_l2 q v)%Q) →
                ∃ a b, ave_width (m p) = Fin a ∧ ave_delta (m q) = Fin b
                       ∧ (0 <= a <= inject_Z (s' - 1) * b)%Q.
Proof.
  intros Hf. destruct (decide (s = 1)) as [->|Hne].
  - eexists zero_measure, _. split; [|split; [apply zero_measure_ok|]].
    + apply aggregate_factor_degenerate. by apply py_index_nat.
    + intros s' Hs' p q _. exists 0%Q, 0%Q. split; [done|]. split; [done|].
      rewrite Hf in Hs'. injection Hs' as <-. simpl. lra.
  - destruct (aggregate_factor_form norm_l2 norm_l2_nonneg norm_l2_zero
                ground_truth_dataset representation_function
                (wellshaped s z) (Z.of_nat f) s factor_repeats batch_size [L1; L2] z)
      with (g := g) as (zss & g' & Hagg & Hws & Hlen); try done.
    { by apply py_index_nat. }
    { intros g0.
      by apply (encode_all_along_factor_shape ground_truth_dataset
                  representation_function sizes_per_factor sizes_positive
                  sample_one_row z encoder_shape batch_size batch_size_positive). }
    assert (Hzss : zss ≠ []) by (destruct zss; [simpl in Hlen; lia|done]).
    exists (factor_measure norm_l2 zss), g'. split; [done|]. split.
    + exists (Forall flat zss). split; [done|]. intros p.
      destruct (factor_measure_spec norm_l2 norm_l2_nonneg norm_l2_zero zss s z p)
        as (a & b & Hm & ?); [done|done|]. by exists a, b.
    + intros s' Hs' p q Hpq. rewrite Hf in Hs'. injection Hs' as <-.
      by apply (factor_measure_bound norm_l2 norm_l2_nonneg norm_l2_zero
                  norm_l2_triangle norm_l2_sym zss s z p q).
Qed.


End ScoresRange.


(** ** The random source *)

Lemma foldl_const_step {A B} (step : A → A) (l : list B) (a : A) :
  foldl (fun a _ => step a) a l = Nat.iter (length l) step a.
Proof.
  revert a. induction l as [|x l IH]; intros a; [done|].
  cbn [foldl length]. by rewrite IH, Nat.iter_succ_r.
Qed.

Lemma foldl_seq_lookup {A B} (h : B → A → A) (l pre : list B) (a : A) :
  foldl (fun a f => match (pre ++ l) !! f with
                    | Some s => h s a
                    | None => a
                    end) a (seq (length pre) (length l))
  = foldl (fun a s => h s a) a l.
Proof.
  revert pre a. induction l as [|x l IH]; intros pre a; [done|].
  cbn [length seq foldl]. rewrite list_lookup_middle by done.
  specialize (IH (pre ++ [x]) (h x a)).
  rewrite <- app_assoc, length_app in IH. simpl in IH.
  by replace (length pre + 1)%nat with (S (length pre)) in IH by lia.
Qed.

Section Draws.

Context {G X : Type}.
Variable norm_l2 : list Q → Q.
Variable ground_truth_dataset : @GroundTruthDataset G X.
Variable representation_function : list X → list (list Q).

Lemma for_each_M_state {A B} (f : A → @M G B) (step : A → G → G) (l : list A) :
  (∀ x g y g', f x g = Ok (y, g') → g' = step x g) →
  ∀ g ys g', for_each_M f l g = Ok (ys, g') → g' = foldl (fun g x => step x g) g l.
Proof.
  intros Hf. induction l as [|a l IH]; intros g ys g' H.
  - unfold for_each_M, ret in H. by injection H as _ <-.
  - cbn [for_each_M] in H. unfold bind at 1 in H.
    destruct (f a g) as [[y g1]|] eqn:E; [|done]. apply Hf in E as ->.
    unfold bind in H.
    destruct (for_each_M f l (step a g)) as [[ys' g2]|] eqn:E2; [|done].
    unfold ret in H. injection H as _ <-. by apply (IH _ ys').
Qed.

(** A traversal draws the factors once. *)
Lemma encode_all_along_factor_state (f_idx batch_size : Z) (g g' : G)
    (zs : list (list Q)) :
  encode_all_along_factor ground_truth_dataset representation_function
    f_idx batch_size g = Ok (zs, g') →
  g' = (sample_factors ground_truth_dataset 1 g).2.
Proof.
  unfold encode_all_along_factor, range_along_repeated_factors, bind, sample, lift.
  destruct (py_index _ f_idx) as [s|]; [|done].
  destruct (sample_factors ground_truth_dataset 1 g) as [rows g1].
  destruct (np_repeat rows s) as [rep|]; [|done].
  destruct (set_column rep f_idx (arange s)) as [factors|]; [|done].
  destruct (encode_all_factors _ _ factors batch_size); [|done].
  by intros [= _ <-].
Qed.

Lemma measure_repeat_state (f_idx f_size batch_size : Z) (ps : list pnorm) (g g' : G)
    (m : dict pnorm (Q * list Q)) :
  measure_repeat norm_l2 ground_truth_dataset representation_function
    f_idx f_size batch_size ps g = Ok (m, g') →
  g' = (sample_factors ground_truth_dataset 1 g).2.
Proof.
  unfold measure_repeat, bind.
  destruct (encode_all_along_factor _ _ f_idx batch_size g) as [[zs g1]|] eqn:E; [|done].
  apply encode_all_along_factor_state in E as ->. unfold lift.
  destruct (for_each _ ps); [|done]. by intros [= _ <-].
Qed.

(** A factor of one value costs one batch of observations, any other factor
    one draw of factors per repeat. *)
Lemma aggregate_factor_state (f_idx f_size repeats batch_size : Z) (ps : list pnorm)
    (g g' : G) (m : dict pnorm measure) :
  py_index (factor_sizes ground_truth_dataset) f_idx = Ok f_size →
  aggregate_measure_distances_along_factor norm_l2 ground_truth_dataset
    representation_function f_idx repeats batch_size ps false g = Ok (m, g') →
  g' = if f_size =? 1
       then (dataset_sample_batch ground_truth_dataset 1 g).2
       else Nat.iter (Z.to_nat repeats)
              (fun g => (sample_factors ground_truth_dataset 1 g).2) g.
Proof.
  intros Hidx. unfold aggregate_measure_distances_along_factor, bind.
  unfold lift at 1. rewrite Hidx. destruct (f_size =? 1).
  - unfold get_device, bind, sample, ret.
    destruct (dataset_sample_batch ground_truth_dataset 1 g) as [b g1].
    by intros [= _ <-].
  - destruct (for_each_M _ (seq 0 (Z.to_nat repeats)) g) as [[pm g1]|] eqn:E; [|done].
    apply (for_each_M_state _ (fun _ g => (sample_factors ground_truth_dataset 1 g).2))
      in E.
    + rewrite foldl_const_step, length_seq in E. subst g1. unfold lift.
      destruct (default_collate pm); [|done]. unfold ret. by intros [= _ <-].
    + intros _ g0 y g0'. apply measure_repeat_state.
Qed.

Lemma metric_flatness_state (factor_repeats batch_size : Z) (g g' : G)
    (r : dict string tfloat) :
  num_factors ground_truth_dataset = length (factor_sizes ground_truth_dataset) →
  metric_flatness norm_l2 ground_truth_dataset representation_function
    factor_repeats batch_size g = Ok (r, g') →
  g' = foldl (fun g s =>
                if s =? 1
                then (dataset_sample_batch ground_truth_dataset 1 g).2
                else Nat.iter (Z.to_nat factor_repeats)
                       (fun g => (sample_factors ground_truth_dataset 1 g).2) g)
             g (factor_sizes ground_truth_dataset).
Proof.
  intros Hnum. unfold metric_flatness, aggregate_measure_distances_along_all_factors, bind.
  destruct (for_each_M _ (seq 0 (num_factors ground_truth_dataset)) g)
    as [[fm g1]|] eqn:E; [|done].
  apply (for_each_M_state _
           (fun f g => match ([] ++ factor_sizes ground_truth_dataset) !! f with
                       | Some s =>
                           if s =? 1
                           then (dataset_sample_batch ground_truth_dataset 1 g).2
                           else Nat.iter (Z.to_nat factor_repeats)
                                  (fun g => (sample_factors ground_truth_dataset 1 g).2) g
                       | None => g
                       end)) in E.
  - rewrite Hnum in E.
    rewrite (foldl_seq_lookup
               (fun s g => if s =? 1
                           then (dataset_sample_batch ground_truth_dataset 1 g).2
                           else Nat.iter (Z.to_nat factor_repeats)
                                  (fun g => (sample_factors ground_truth_dataset 1 g).2) g)
               (factor_sizes ground_truth_dataset) []) in E.
    subst g1. unfold lift.
    destruct (default_collate fm); [|done]. destruct (for_each _ _); [|done].
    destruct (metric_flatness_results _ _); [|done]. by intros [= _ <-].
  - intros f g0 y g0' H. simpl app.
    destruct (factor_sizes ground_truth_dataset !! f) as [s|] eqn:Ef.
    + by apply (aggregate_factor_state _ s) in H; [|apply py_index_nat].
    + exfalso. revert H. unfold aggregate_measure_distances_along_factor, bind.
      unfold lift at 1. rewrite py_index_out_of_range; [done|].
      apply lookup_ge_None_1 in Ef. lia.
Qed.

End Draws.

Section DrawsOfMetric.

Context {G X : Type}.
Variable norm_l2 : list Q → Q.
Hypothesis norm_l2_nonneg : ∀ v, (0 <= norm_l2 v)%Q.
Hypothesis norm_l2_zero : ∀ v, (norm_l2 v == 0)%Q ↔ Forall (fun x => (x == 0)%Q) v.
Variable ground_truth_dataset : @GroundTruthDataset G X.
Variable representation_function : list X → list (list Q).

Hypothesis sizes_per_factor :
  num_factors ground_truth_dataset = length (factor_sizes ground_truth_dataset).
Hypothesis sizes_positive : Forall (fun s => 1 ≤ s) (factor_sizes ground_truth_dataset).
Hypothesis some_factor : (1 ≤ num_factors ground_truth_dataset)%nat.
Hypothesis sample_one_row :
  ∀ g, ∃ row, (sample_factors ground_truth_dataset 1 g).1 = [row]
              ∧ length row = num_factors ground_truth_dataset.

Variable z : nat.
Hypothesis encoder_shape :
  ∀ rows, length (representation_function
                    (dataset_batch_from_factors ground_truth_dataset rows))
          = length rows
          ∧ Forall (fun r => length r = z)
                   (representation_function
                      (dataset_batch_from_factors ground_truth_dataset rows)).

Variables factor_repeats batch_size : Z.
Hypothesis repeats_positive : 1 ≤ factor_repeats.
Hypothesis batch_size_positive : 1 ≤ batch_size.


End DrawsOfMetric.


(** ** Traversals along a straight line *)

Lemma zip_with_closing_last {A B} (f : A → A → B) (y0 l t : A) (ys : list A) :
  zip_with f (y0 :: ys ++ [l]) ((ys ++ [l]) ++ [t])
  = zip_with f (y0 :: ys ++ [l]) (ys ++ [l]) ++ [f l t].
Proof.
  revert y0. induction ys as [|y1 ys IH]; intros y0; [done|].
  change (f y0 y1 :: zip_with f (y1 :: ys ++ [l]) ((ys ++ [l]) ++ [t])
          = f y0 y1 :: (zip_with f (y1 :: ys ++ [l]) (ys ++ [l]) ++ [f l t])).
  by rewrite IH.
Qed.

Lemma elem_le_Qsum (l : list Q) (x : Q) : Forall (Qle 0) l → x ∈ l → (x <= Qsum l)%Q.
Proof.
  induction 1 as [|y l Hy Hl IH]; intros Hx; [by apply elem_of_nil in Hx|].
  change (x <= y + Qsum l)%Q. pose proof (Qsum_nonneg l Hl) as Hs.
  apply elem_of_cons in Hx as [->|Hx]; [lra|]. specialize (IH Hx). lra.
Qed.

Section Straight.

Variable norm_l2 : list Q → Q.
Hypothesis norm_l2_nonneg : ∀ v, (0 <= norm_l2 v)%Q.
Hypothesis norm_l2_zero : ∀ v, (norm_l2 v == 0)%Q ↔ Forall (fun x => (x == 0)%Q) v.
Hypothesis norm_l2_triangle :
  ∀ a b c, length a = length b → length b = length c →
           (norm_l2 (vsub a c) <= norm_l2 (vsub a b) + norm_l2 (vsub b c))%Q.
Hypothesis norm_l2_sym : ∀ a b, (norm_l2 (vsub a b) == norm_l2 (vsub b a))%Q.

Lemma zip_with_dist_nonneg (p : pnorm) (a b : list (list Q)) :
  Forall (Qle 0) (zip_with (dist norm_l2 p) a b).
Proof.
  revert b. induction a as [|x a IH]; intros [|y b]; simpl; try constructor; [|done].
  apply (dist_nonneg norm_l2 norm_l2_nonneg).
Qed.

(** When the way back from the last point to the first is as long as the
    path through the points, the step that is dropped is as long as the way
    back, and what is kept adds up to it. *)
Lemma straight_core (first last_pt : list Q) (mid : list (list Q)) (p : pnorm) (d : nat)
    (w m : Q) (kept : list Q) :
  let zs := first :: mid ++ [last_pt] in
  Forall (fun r => length r = d) zs →
  (dist norm_l2 p last_pt first == Qsum (zip_with (dist norm_l2 p) zs (tail zs)))%Q →
  (∃ a b, a ∈ zs ∧ b ∈ zs ∧ w = dist norm_l2 p a b) →
  (∀ a b, a ∈ zs → b ∈ zs → (dist norm_l2 p a b <= w)%Q) →
  kept ++ [m] ≡ₚ raw_deltas norm_l2 zs p →
  (∀ x, x ∈ raw_deltas norm_l2 zs p → (x <= m)%Q) →
  (w == dist norm_l2 p last_pt first)%Q ∧ (Qsum kept == w)%Q.
Proof.
  intros zs Hrect Hstraight (a & b & Ha & Hb & ->) Hmax Hperm Hm.
  set (c := dist norm_l2 p last_pt first) in *.
  set (path := zip_with (dist norm_l2 p) zs (tail zs)) in *.
  assert (Hraw : raw_deltas norm_l2 zs p = path ++ [c]).
  { unfold raw_deltas, path, c, zs. simpl roll_m1. simpl tail.
    apply zip_with_closing_last. }
  assert (Hlast : last_pt ∈ zs).
  { unfold zs. right. apply elem_of_app. right. by left. }
  assert (Hfirst : first ∈ zs) by (by left).
  assert (Hcm : (c <= m)%Q).
  { apply Hm. rewrite Hraw. apply elem_of_app. right. by left. }
  assert (Hmc : (m <= c)%Q).
  { assert (Hin : m ∈ path ++ [c]).
    { rewrite <- Hraw, <- Hperm. apply elem_of_app. right. by left. }
    apply elem_of_app in Hin as [Hin|Hin].
    - rewrite Hstraight. apply elem_le_Qsum; [apply zip_with_dist_nonneg|done].
    - apply list_elem_of_singleton in Hin as ->. lra. }
  assert (Hk : (Qsum kept == c)%Q).
  { pose proof (Qsum_perm _ _ Hperm) as Hp. rewrite Hraw, !Qsum_app in Hp.
    simpl in Hp. lra. }
  assert (Hw1 : (c <= dist norm_l2 p a b)%Q) by (by apply Hmax).
  assert (Hw2 : (dist norm_l2 p a b <= Qsum kept)%Q).
  { by apply (cycle_bound norm_l2 norm_l2_nonneg norm_l2_zero norm_l2_triangle
                norm_l2_sym p zs kept m a b d). }
  split; lra.
Qed.

(** X9: a traversal whose last point is as far from the first as the path
    through all the points is long -- the points advance along a straight
    line -- has a width equal to the sum of its retained deltas, both equal
    to the distance between the two end points. *)
Theorem straight_traversal_width_is_length (first last_pt : list Q)
    (mid : list (list Q)) (p : pnorm) (d : nat) :
  let zs := first :: mid ++ [last_pt] in
  Forall (fun r => length r = d) zs →
  (dist norm_l2 p last_pt first == Qsum (zip_with (dist norm_l2 p) zs (tail zs)))%Q →
  ∃ w kept, traversal_width norm_l2 zs p = Ok w
            ∧ traversal_deltas norm_l2 zs (Z.of_nat (length zs)) p = Ok kept
            ∧ (w == dist norm_l2 p last_pt first)%Q
            ∧ (Qsum kept == w)%Q.
Proof.
  intros zs Hrect Hstraight.
  assert (Hlen : (2 ≤ length zs)%nat).
  { unfold zs. simpl. rewrite length_app. simpl. lia. }
  destruct (traversal_width_spec norm_l2 zs p d Hlen Hrect) as (w & Hw & Hab & Hmax).
  destruct (traversal_deltas_spec norm_l2 zs p (length zs) eq_refl Hlen)
    as (_ & _ & kept & m & Hk & _ & Hperm & Hm & _).
  exists w, kept. split; [done|]. split; [done|].
  by apply (straight_core first last_pt mid p d w m kept).
Qed.

Lemma straight_values (zs : list (list Q)) (p : pnorm) (s : Z) (z : nat) :
  wellshaped s z zs → straight norm_l2 p zs →
  (0 < width_value norm_l2 zs p)%Q
  ∧ (width_value norm_l2 zs p == Qsum (deltas_value norm_l2 zs p))%Q.
Proof.
  intros (Hl & Hs & Hrect) (first & mid & last_pt & -> & Hpos & Hst).
  set (zs := first :: mid ++ [last_pt]) in *.
  assert (Hlen : (2 ≤ length zs)%nat) by lia.
  destruct (traversal_width_spec norm_l2 zs p z Hlen Hrect) as (w & Hw & Hab & Hmax).
  destruct (traversal_deltas_spec norm_l2 zs p (length zs) eq_refl Hlen)
    as (_ & _ & kept & m & Hk & _ & Hperm & Hm & _).
  unfold width_value, deltas_value. rewrite Hw, Hk. simpl.
  destruct (straight_core first last_pt mid p z w m kept Hrect Hst Hab Hmax Hperm Hm)
    as [H1 H2].
  split; [by rewrite H1|by rewrite H2].
Qed.

Lemma Qsum_eq (l l' : list Q) : Forall2 Qeq l l' → (Qsum l == Qsum l')%Q.
Proof.
  induction 1 as [|x y l l' Hxy _ IH]; [reflexivity|].
  change (x + Qsum l == y + Qsum l')%Q. by rewrite Hxy, IH.
Qed.

Lemma Qsum_pos (l : list Q) : l ≠ [] → Forall (Qlt 0) l → (0 < Qsum l)%Q.
Proof.
  intros Hne Hl. destruct Hl as [|x l Hx Hl]; [done|].
  change (0 < x + Qsum l)%Q.
  assert (0 <= Qsum l)%Q.
  { apply Qsum_nonneg. eapply Forall_impl; [exact Hl|]. intros y Hy. simpl in *. lra. }
  lra.
Qed.

(** Over repeats that are all straight, the mean width is the number of
    retained deltas times their mean, and it is positive. *)
Lemma factor_measure_straight (zss : list (list (list Q))) (s : Z) (z : nat) (p : pnorm) :
  zss ≠ [] → Forall (fun zs => wellshaped s z zs ∧ straight norm_l2 p zs) zss →
  ∃ a b, ave_width (factor_measure norm_l2 zss p) = Fin a
         ∧ ave_delta (factor_measure norm_l2 zss p) = Fin b
         ∧ (0 < a)%Q ∧ (a == inject_Z (s - 1) * b)%Q.
Proof.
  intros Hne Hall.
  set (ws := map (fun zs => width_value norm_l2 zs p) zss).
  set (dss := map (fun zs => deltas_value norm_l2 zs p) zss).
  assert (Hs : 2 ≤ s).
  { destruct zss as [|zs zss']; [done|]. by inversion Hall as [|? ? [(_ & ? & _) _] _]. }
  assert (Hdl : Forall (fun l => length l = Z.to_nat (s - 1)) dss).
  { unfold dss. apply Forall_fmap. eapply Forall_impl; [exact Hall|].
    intros zs [(Hl & H2 & Hr) _]. simpl.
    destruct (deltas_value_spec norm_l2 norm_l2_nonneg norm_l2_zero zs p z)
      as (_ & Hlen & _); [lia|done|]. rewrite Hlen. lia. }
  assert (Heq : (Qsum ws == Qsum (concat dss))%Q).
  { rewrite Qsum_concat. apply Qsum_eq. unfold ws, dss. rewrite map_map.
    apply Forall2_fmap, Forall_Forall2_diag. eapply Forall_impl; [exact Hall|].
    intros zs [Hw Hst]. simpl. by apply (straight_values zs p s z). }
  assert (Hpos : (0 < Qsum ws)%Q).
  { apply Qsum_pos; [unfold ws; by destruct zss|].
    unfold ws. apply Forall_fmap. eapply Forall_impl; [exact Hall|].
    intros zs [Hw Hst]. simpl. by apply (straight_values zs p s z). }
  assert (Hlen_ws : length ws = length zss) by (unfold ws; by rewrite length_map).
  assert (Hlen_ds : length (concat dss) = (length zss * Z.to_nat (s - 1))%nat).
  { rewrite (length_concat_const _ _ Hdl). unfold dss. by rewrite length_map. }
  assert (Hr : (1 ≤ length zss)%nat) by (destruct zss; [done|simpl; lia]).
  exists (Qsum ws / inject_Z (Z.of_nat (length ws)))%Q,
         (Qsum (concat dss) / inject_Z (Z.of_nat (length (concat dss))))%Q.
  split.
  { unfold factor_measure. simpl. rewrite <- torch_mean_Fin.
    - unfold ws. by rewrite map_map.
    - intros E. rewrite E in Hlen_ws. simpl in Hlen_ws. lia. }
  split.
  { unfold factor_measure. simpl. rewrite <- torch_mean_Fin; [done|].
    intros E. fold dss in E. rewrite E in Hlen_ds. simpl in Hlen_ds. nia. }
  rewrite Hlen_ws, Hlen_ds.
  assert (HR : (0 < inject_Z (Z.of_nat (length zss)))%Q) by (by apply count_positive).
  assert (HN : (0 < inject_Z (s - 1))%Q).
  { replace 0%Q with (inject_Z 0) by done. rewrite <- Zlt_Qlt. lia. }
  assert (HRN : (inject_Z (Z.of_nat (length zss * Z.to_nat (s - 1)))
                 == inject_Z (Z.of_nat (length zss)) * inject_Z (s - 1))%Q).
  { rewrite Nat2Z.inj_mul, Z2Nat.id by lia. by rewrite inject_Z_mult. }
  rewrite HRN.
  set (rR := inject_Z (Z.of_nat (length zss))) in *.
  set (rN := inject_Z (s - 1)) in *.
  assert (E : (rN * (Qsum (concat dss) / (rR * rN)) == Qsum (concat dss) / rR)%Q).
  { field. split; lra. }
  rewrite E, Heq. split; [|reflexivity].
  rewrite <- Heq. apply Qlt_shift_div_l; [done|lra].
Qed.

End Straight.

Lemma straight_traversal_width_is_length_witness :
  ∃ w kept, traversal_width norm_l1 scenario_traversal L1 = Ok w
            ∧ traversal_deltas norm_l1 scenario_traversal 5 L1 = Ok kept
            ∧ (w == 8)%Q ∧ (Qsum kept == w)%Q.
Proof.
  apply (straight_traversal_width_is_length norm_l1 norm_l1_nonneg norm_l1_zero
           norm_l1_triangle norm_l1_sym [0%Q] [8%Q] [[2%Q]; [4%Q]; [6%Q]] L1 1).
  - by repeat constructor.
  - by vm_compute.
Defined.

Lemma straight_pairs (w l : list tfloat) :
  Forall2 (fun x y => ∃ a c, x = Fin a ∧ y = Fin c ∧ (0 < a)%Q ∧ (a == c)%Q) w l →
  ∃ qa qc vs, w = map Fin qa ∧ l = map Fin qc
              ∧ Forall2 Qeq qa qc ∧ Forall (Qlt 0) qa
              ∧ zip_with factor_flatness w l = map Fin vs
              ∧ Forall (fun v => (v == 1)%Q) vs
              ∧ length vs = length w.
Proof.
  induction 1 as [|x y w l (a & c & -> & -> & Ha & Hac) _
                   (qa & qc & vs & -> & -> & Heq & Hpos & Hz & Hvs & Hlen)].
  - by exists [], [], [].
  - exists (a :: qa), (c :: qc), ((a / c)%Q :: vs).
    split; [done|]. split; [done|].
    split; [by constructor|]. split; [by constructor|].
    split; [simpl; rewrite factor_flatness_positive by lra; by rewrite Hz|].
    split; [|simpl; by rewrite Hlen].
    constructor; [|done]. rewrite Hac. field. lra.
Qed.

Lemma collect_measures_straight (sizes : list Z) (ms : list (pnorm → measure))
    (p : pnorm) :
  Forall2 (fun s m => s ≠ 1 →
             ∃ a b, ave_width (m p) = Fin a ∧ ave_delta (m p) = Fin b
                    ∧ (0 < a)%Q ∧ (a == inject_Z (s - 1) * b)%Q) sizes ms →
  Forall2 (fun x y => ∃ a c, x = Fin a ∧ y = Fin c ∧ (0 < a)%Q ∧ (a == c)%Q)
          (active_entries (fs_ave_widths (collect_measures sizes ms p)) sizes)
          (active_entries (fs_ave_lengths (collect_measures sizes ms p)) sizes).
Proof.
  induction 1 as [|s m sizes ms H _ IH]; simpl; [constructor|].
  destruct (s =? 1) eqn:E; [exact IH|].
  apply Z.eqb_neq in E. destruct (H E) as (a & b & Ha & Hb & Hpos & Hab).
  constructor; [|exact IH].
  exists a, (inject_Z (s - 1) * b)%Q. by rewrite Ha, Hb.
Qed.

Section StraightScores.

Context {G X : Type}.
Variable norm_l2 : list Q → Q.
Hypothesis norm_l2_nonneg : ∀ v, (0 <= norm_l2 v)%Q.
Hypothesis norm_l2_zero : ∀ v, (norm_l2 v == 0)%Q ↔ Forall (fun x => (x == 0)%Q) v.
Hypothesis norm_l2_triangle :
  ∀ a b c, length a = length b → length b = length c →
           (norm_l2 (vsub a c) <= norm_l2 (vsub a b) + norm_l2 (vsub b c))%Q.
Hypothesis norm_l2_sym : ∀ a b, (norm_l2 (vsub a b) == norm_l2 (vsub b a))%Q.

Variable ground_truth_dataset : @GroundTruthDataset G X.
Variable representation_function : list X → list (list Q).

Hypothesis sizes_per_factor :
  num_factors ground_truth_dataset = length (factor_sizes ground_truth_dataset).
Hypothesis sizes_positive : Forall (fun s => 1 ≤ s) (factor_sizes ground_truth_dataset).

Variables factor_repeats batch_size : Z.
Hypothesis repeats_positive : 1 ≤ factor_repeats.

(** Under the norm [p], the encoder sends every traversal of a factor of
    several values to [z]-dimensional points that advance along a straight
    line. *)
Variable p : pnorm.
Variable z : nat.
Hypothesis straight_traversals :
  ∀ f s g, factor_sizes ground_truth_dataset !! f = Some s → s ≠ 1 →
    ∃ zs g', encode_all_along_factor ground_truth_dataset representation_function
               (Z.of_nat f) batch_size g = Ok (zs, g')
             ∧ wellshaped s z zs ∧ straight norm_l2 p zs.

Lemma aggregate_factor_straight (f : nat) (s : Z) (g : G) :
  factor_sizes ground_truth_dataset !! f = Some s →
  ∃ m g', aggregate_measure_distances_along_factor norm_l2 ground_truth_dataset
            representation_function (Z.of_nat f) factor_repeats batch_size
            [L1; L2] false g
          = Ok (map (fun p => (p, m p)) [L1; L2], g')
          ∧ factor_ok s m
          ∧ ∀ s', factor_sizes ground_truth_dataset !! f = Some s' → s' ≠ 1 →
              ∃ a b, ave_width (m p) = Fin a ∧ ave_delta (m p) = Fin b
                     ∧ (0 < a)%Q ∧ (a == inject_Z (s' - 1) * b)%Q.
Proof.
  intros Hf. destruct (decide (s = 1)) as [->|Hne].
  - eexists zero_measure, _. split; [|split; [apply zero_measure_ok|]].
    + apply aggregate_factor_degenerate. by apply py_index_nat.
    + intros s' Hs' Hne. rewrite Hf in Hs'. by injection Hs' as <-.
  - destruct (aggregate_factor_form norm_l2 norm_l2_nonneg norm_l2_zero
                ground_truth_dataset representation_function
                (fun zs => wellshaped s z zs ∧ straight norm_l2 p zs)
                (Z.of_nat f) s factor_repeats batch_size [L1; L2] z)
      with (g := g) as (zss & g' & Hagg & Hall & Hlen); try done.
    { by apply py_index_nat. }
    { intros g0. by apply straight_traversals. }
    { by intros zs [H _]. }
    assert (Hzss : zss ≠ []) by (destruct zss; [simpl in Hlen; lia|done]).
    exists (factor_measure norm_l2 zss), g'. split; [done|]. split.
    + exists (Forall flat zss). split; [done|]. intros q.
      destruct (factor_measure_spec norm_l2 norm_l2_nonneg norm_l2_zero zss s z q)
        as (a & b & Hm & ?); [done| |by exists a, b].
      eapply Forall_impl; [exact Hall|]. by intros zs [H _].
    + intros s' Hs' _. rewrite Hf in Hs'. injection Hs' as <-.
      by apply (factor_measure_straight norm_l2 norm_l2_nonneg norm_l2_zero
                  norm_l2_triangle norm_l2_sym zss s z p).
Qed.


End StraightScores.

Lemma scenario_straight_traversals (batch_size : Z) (f : nat) (s g : Z) :
  1 ≤ batch_size →
  factor_sizes scenario_dataset !! f = Some s → s ≠ 1 →
  ∃ zs g', encode_all_along_factor scenario_dataset scenario_representation
             (Z.of_nat f) batch_size g = Ok (zs, g')
           ∧ wellshaped s 1 zs ∧ straight norm_l1 L1 zs.
Proof.
  intros Hbs Hf Hne. destruct f as [|[|f]]; simpl in Hf; [| |done];
    injection Hf as <-; [done|].
  destruct (scenario_encode scenario_dataset scenario_representation eq_refl eq_refl
              scenario_sample_one_row scenario_encoder_doubles batch_size Hbs g)
    as (g' & Hg).
  exists scenario_traversal, g'. split; [exact Hg|].
  split; [split; [done|split; [lia|by repeat constructor]]|].
  exists [0%Q], [[2%Q]; [4%Q]; [6%Q]], [8%Q]. split; [done|]. split; by vm_compute.
Qed.


(** ** Factor sizes below one *)

Section SizeBelowOne.

Context {G X : Type}.
Variable norm_l2 : list Q → Q.
Variable ground_truth_dataset : @GroundTruthDataset G X.
Variable representation_function : list X → list (list Q).

Lemma aggregate_first_repeat_raises (f_idx f_size repeats batch_size : Z)
    (ps : list pnorm) (cycle_fail : bool) (g : G) (e : exn) :
  py_index (factor_sizes ground_truth_dataset) f_idx = Ok f_size →
  f_size ≠ 1 → 1 ≤ repeats →
  encode_all_along_factor ground_truth_dataset representation_function
    f_idx batch_size g = Raise e →
  aggregate_measure_distances_along_factor norm_l2 ground_truth_dataset
    representation_function f_idx repeats batch_size ps cycle_fail g = Raise e.
Proof.
  intros Hidx Hne Hrep Henc. unfold aggregate_measure_distances_along_factor.
  unfold bind at 1. unfold lift at 1. rewrite Hidx.
  replace (f_size =? 1) with false by (symmetry; by apply Z.eqb_neq).
  destruct (Z.to_nat repeats) as [|n] eqn:En; [lia|].
  simpl. unfold bind at 1. unfold bind at 1. unfold measure_repeat.
  unfold bind at 1. by rewrite Henc.
Qed.


End SizeBelowOne.


(** ** What the aggregation hands to the cross-factor stage *)

Section Handover.

Context {G X : Type}.
Variable norm_l2 : list Q → Q.
Hypothesis norm_l2_nonneg : ∀ v, (0 <= norm_l2 v)%Q.
Hypothesis norm_l2_zero : ∀ v, (norm_l2 v == 0)%Q ↔ Forall (fun x => (x == 0)%Q) v.
Variable ground_truth_dataset : @GroundTruthDataset G X.
Variable representation_function : list X → list (list Q).

Hypothesis sizes_per_factor :
  num_factors ground_truth_dataset = length (factor_sizes ground_truth_dataset).
Hypothesis sizes_positive : Forall (fun s => 1 ≤ s) (factor_sizes ground_truth_dataset).
Hypothesis some_factor : (1 ≤ num_factors ground_truth_dataset)%nat.
Hypothesis sample_one_row :
  ∀ g, ∃ row, (sample_factors ground_truth_dataset 1 g).1 = [row]
              ∧ length row = num_factors ground_truth_dataset.

Variable z : nat.
Hypothesis encoder_shape :
  ∀ rows, length (representation_function
                    (dataset_batch_from_factors ground_truth_dataset rows))
          = length rows
          ∧ Forall (fun r => length r = z)
                   (representation_function
                      (dataset_batch_from_factors ground_truth_dataset rows)).

Variables factor_repeats batch_size : Z.
Hypothesis repeats_positive : 1 ≤ factor_repeats.
Hypothesis batch_size_positive : 1 ≤ batch_size.


End Handover.

